(** * MyShama: the presence / queue server of [server.js]

    A shallow embedding of the socket handlers of [src/server.js] and the
    properties of the slot allocator and the turn notifier.

    Modelling choices, all taken from the source:
    - [users] is a JS [Map] that is iterated by [getState]: it is an
      association list in insertion order ([Map.set] on a present key
      keeps its position, on a new key appends).
    - [nameToSockets] is a JS [Map] that is only read by key: a [gmap].
      Its values are JS [Set]s whose first element is read
      ([Array.from(sockets)[0]]): lists in insertion order.
    - a user object is reached only through [users.get(socketId)], so a
      mutation of the object is a [Map.set] at the same key.
    - [setTimeout] / [clearTimeout] act on a table of armed timers; a
      handle is a number, fresh at each [setTimeout]; the callback closure
      captures [queuedUser.name], which the table stores.
    - [Date.now()] is read once per handler run: every event carries it.
    - [socket.emit], [io.to(id).emit] and [io.emit] append to a log.
    - strings are sequences of code units below 256 (Latin-1), for which
      [toLowerCase] and [trim] are written out. *)

From Stdlib Require Import ssreflect.
From stdpp Require Import base option list gmap strings.
From Stdlib Require Import ZArith Lia Ascii Sorted.
From Stdlib Require String.

Local Open Scope general_if_scope.
Local Open Scope Z_scope.

(** ** Strings *)

Module Text.

(** The code unit of a character. *)
Definition code (c : ascii) : N := N_of_ascii c.

(** The character class removed by [sanitizeName]: angle brackets,
    single quote, double quote, backquote, semicolon, parentheses. *)
Definition isStripped (c : ascii) : bool :=
  let n := code c in
  ((n =? 60) || (n =? 62) || (n =? 39) || (n =? 34) || (n =? 96)
   || (n =? 59) || (n =? 40) || (n =? 41))%N.

(** White space and line terminators removed by [String.prototype.trim],
    among the code units below 256. *)
Definition isSpace (c : ascii) : bool :=
  let n := code c in
  ((n =? 9) || (n =? 10) || (n =? 11) || (n =? 12) || (n =? 13)
   || (n =? 32) || (n =? 160))%N.

(** [toLowerCase] on one code unit below 256: the letters A-Z and the
    upper-case letters of Latin-1 (192-222 but the sign 215) move by 32. *)
Definition lowerChar (c : ascii) : ascii :=
  let n := code c in
  if ((65 <=? n) && (n <=? 90))%N then ascii_of_N (n + 32)
  else if ((192 <=? n) && (n <=? 222) && negb (n =? 215))%N
       then ascii_of_N (n + 32)
       else c.

(** [String.prototype.toLowerCase] *)
Fixpoint toLowerCase (s : string) : string :=
  match s with
  | EmptyString => EmptyString
  | String c r => String (lowerChar c) (toLowerCase r)
  end.

(** [s.replace(/[...]/g, '')] with the class above. *)
Fixpoint strip (s : string) : string :=
  match s with
  | EmptyString => EmptyString
  | String c r => if isStripped c then strip r else String c (strip r)
  end.

(** [String.prototype.trim], as the trim of both ends. *)
Fixpoint trimStart (s : string) : string :=
  match s with
  | EmptyString => EmptyString
  | String c r => if isSpace c then trimStart r else s
  end.

Fixpoint trimEnd (s : string) : string :=
  match s with
  | EmptyString => EmptyString
  | String c r =>
      match trimEnd r with
      | EmptyString => if isSpace c then EmptyString else String c EmptyString
      | r' => String c r'
      end
  end.

Definition trim (s : string) : string := trimEnd (trimStart s).

End Text.

Export Text.

(** ** Data *)

(** [socket.id] is a string; a timer handle is a number. *)
Abbreviation SocketId := string (only parsing).
Abbreviation TimerId := nat (only parsing).

(** The three values the code ever stores in [user.status]. *)
Inductive Status := Idle | Outside | Queue.

#[global] Instance Status_eq_dec : EqDecision Status.
Proof. solve_decision. Defined.

(** [{name, status, joinedAt, notificationTimeout}] *)
Record User := mkUser {
  name : string;
  status : Status;
  joinedAt : Z;
  notificationTimeout : option TimerId
}.

(** The [{name, joinedAt}] objects pushed by [getState]. *)
Record Entry := mkEntry { entryName : string; entryJoinedAt : Z }.

(** The [{outside, queue}] object returned by [getState]. *)
Record State := mkState { outside : list Entry; queue : list Entry }.

(** An armed timer: its handle, the name captured by its callback and its
    delay in milliseconds. *)
Record Timer := mkTimer { timerId : TimerId; timerName : string; timerDelay : Z }.

(** The events the server emits, with their payloads. *)
Inductive Message :=
| login_error (reason : string)
| login_success (n : string)
| state_update (s : State)
| user_status (s : Status)
| your_turn
| queue_timeout.

(** [ToSocket id m] is [io.to(id).emit(m)] or [socket.emit(m)];
    [ToAll m] is [io.emit(m)]. *)
Inductive Emit :=
| ToSocket (id : SocketId) (m : Message)
| ToAll (m : Message).

(** The argument of the [login] event: any JS value. *)
Inductive JsValue := JsString (s : string) | JsOther.

(** server.js, lines 26-27. *)
Definition MAX_OUTSIDE : Z := 4.
Definition NOTIFICATION_TIMEOUT : Z := 2 * 60 * 1000.

(** ** The [users] map, in insertion order *)

Module JsMap.
Section Ops.
Context {V : Type}.

(** [Map.prototype.get], [has], [set] and [delete]. *)
Fixpoint get (k : string) (m : list (string * V)) : option V :=
  match m with
  | [] => None
  | (k', v) :: r => if String.eqb k k' then Some v else get k r
  end.

Definition has (k : string) (m : list (string * V)) : bool :=
  match get k m with Some _ => true | None => false end.

Fixpoint set (k : string) (v : V) (m : list (string * V)) : list (string * V) :=
  match m with
  | [] => [(k, v)]
  | (k', v') :: r =>
      if String.eqb k k' then (k', v) :: r else (k', v') :: set k v r
  end.

Fixpoint delete (k : string) (m : list (string * V)) : list (string * V) :=
  match m with
  | [] => []
  | (k', v') :: r =>
      if String.eqb k k' then delete k r else (k', v') :: delete k r
  end.
End Ops.
End JsMap.

(** A JS [Set] of socket ids, in insertion order. *)
Module JsSet.
Definition has (x : string) (s : list string) : bool :=
  existsb (String.eqb x) s.
Definition add (x : string) (s : list string) : list string :=
  if has x s then s else s ++ [x].
Definition delete (x : string) (s : list string) : list string :=
  List.filter (fun y => negb (String.eqb x y)) s.
Definition size (s : list string) : Z := Z.of_nat (length s).
End JsSet.

(** ** The server *)

(** The two maps of server.js (lines 22-23), the timers of the event
    loop, the next fresh handle and the log of emitted messages. *)
Record Server := mkServer {
  users : list (SocketId * User);
  nameToSockets : gmap string (list SocketId);
  timers : list Timer;
  nextTimer : TimerId;
  emitted : list Emit
}.

(** The server when it starts. *)
Definition initial : Server := mkServer [] ∅ [] 0%nat [].

(** Writes to one component of the server. *)
Definition setUsers (us : list (SocketId * User)) (s : Server) : Server :=
  mkServer us (nameToSockets s) (timers s) (nextTimer s) (emitted s).
Definition setNameToSockets (r : gmap string (list SocketId)) (s : Server) : Server :=
  mkServer (users s) r (timers s) (nextTimer s) (emitted s).
Definition setTimers (ts : list Timer) (s : Server) : Server :=
  mkServer (users s) (nameToSockets s) ts (nextTimer s) (emitted s).
Definition emit (e : Emit) (s : Server) : Server :=
  mkServer (users s) (nameToSockets s) (timers s) (nextTimer s) (emitted s ++ [e]).

(** [user.status = st; user.joinedAt = now] and
    [user.notificationTimeout = t]. *)
Definition withStatus (st : Status) (now : Z) (u : User) : User :=
  mkUser (name u) st now (notificationTimeout u).
Definition withTimeout (t : option TimerId) (u : User) : User :=
  mkUser (name u) (status u) (joinedAt u) t.

(** [clearTimeout(h)]: the timer leaves the table; nothing happens when it
    is not armed. *)
Definition clearTimeout (h : TimerId) (s : Server) : Server :=
  setTimers (List.filter (fun t => negb (Nat.eqb (timerId t) h)) (timers s)) s.

(** [setTimeout(cb, delay)] where [cb] captured [n]. *)
Definition setTimeout (n : string) (delay : Z) (s : Server) : Server :=
  mkServer (users s) (nameToSockets s)
           (timers s ++ [mkTimer (nextTimer s) n delay])
           (S (nextTimer s)) (emitted s).

(** The timer with handle [h] is armed. *)
Definition armed (h : TimerId) (s : Server) : bool :=
  existsb (fun t => Nat.eqb (timerId t) h) (timers s).

(** *** sanitizeName *)

(** server.js, lines 30-41.  A value that is falsy or not a string gives
    [null]. *)
Definition sanitizeName (v : JsValue) : option string :=
  match v with
  | JsString EmptyString => None
  | JsString n =>
      let sanitized := trim (strip n) in
      if (Z.of_nat (String.length sanitized) =? 0)
         || (Z.of_nat (String.length sanitized) >? 30)
      then None else Some sanitized
  | JsOther => None
  end.

(** *** getState *)

(** server.js, lines 44-75. *)
Definition entryOf (u : User) : Entry := mkEntry (name u) (joinedAt u).

(** The [for ... of users.entries()] loop; [processedNames] is the set of
    lower-cased names seen so far. *)
Fixpoint collect (us : list (SocketId * User)) (processedNames : list string)
  : list Entry * list Entry :=
  match us with
  | [] => ([], [])
  | (_, user) :: rest =>
      let nameLower := toLowerCase (name user) in
      if JsSet.has nameLower processedNames then collect rest processedNames
      else
        let '(o, q) := collect rest (nameLower :: processedNames) in
        match status user with
        | Outside => (entryOf user :: o, q)
        | Queue => (o, entryOf user :: q)
        | Idle => (o, q)
        end
  end.

(** [arr.sort((a, b) => a.joinedAt - b.joinedAt)]: a stable sort. *)
Fixpoint insertByJoinedAt (e : Entry) (l : list Entry) : list Entry :=
  match l with
  | [] => [e]
  | x :: r =>
      if entryJoinedAt e <=? entryJoinedAt x then e :: l
      else x :: insertByJoinedAt e r
  end.

Fixpoint sortByJoinedAt (l : list Entry) : list Entry :=
  match l with
  | [] => []
  | e :: r => insertByJoinedAt e (sortByJoinedAt r)
  end.

(** [getState]: the loop, then the two sorts. *)
Definition getState (s : Server) : State :=
  let '(o, q) := collect (users s) [] in
  mkState (sortByJoinedAt o) (sortByJoinedAt q).

(** server.js, lines 78-81. *)
Definition broadcastState (s : Server) : Server :=
  emit (ToAll (state_update (getState s))) s.

(** *** Lookups by name *)

(** server.js, lines 94-97. *)
Definition getSocketsByName (n : string) (s : Server) : list SocketId :=
  match nameToSockets s !! toLowerCase n with
  | Some sockets => sockets
  | None => []
  end.

(** server.js, lines 84-91.  [getUserByName] returns a reference to a user
    object: the socket id under which the object is stored, and its present
    content. *)
Definition getUserByName (n : string) (s : Server) : option (SocketId * User) :=
  match nameToSockets s !! toLowerCase n with
  | Some (socketId :: _) =>
      match JsMap.get socketId (users s) with
      | Some user => Some (socketId, user)
      | None => None
      end
  | _ => None
  end.

(** server.js, lines 100-112; [additionalData] is always empty. *)
Definition updateUserStatus (n : string) (st : Status) (now : Z) (s : Server) : Server :=
  foldl (fun acc socketId =>
           match JsMap.get socketId (users acc) with
           | Some user =>
               setUsers (JsMap.set socketId (withStatus st now user) (users acc)) acc
           | None => acc
           end)
        s (getSocketsByName n s).

(** server.js, lines 115-121. *)
Definition clearUserNotificationTimeout (n : string) (s : Server) : Server :=
  match getUserByName n s with
  | Some (socketId, user) =>
      match notificationTimeout user with
      | Some h =>
          let s1 := clearTimeout h s in
          setUsers (JsMap.set socketId (withTimeout None user) (users s1)) s1
      | None => s
      end
  | None => s
  end.

(** [for (const sid of sockets) io.to(sid).emit(m)] *)
Definition emitTo (sockets : list SocketId) (m : Message) (s : Server) : Server :=
  foldl (fun acc sid => emit (ToSocket sid m) acc) s sockets.

(** *** notifyNextInQueue *)

(** One round of the second [for] loop (server.js, lines 137-163). *)
Definition notifyOne (s : Server) (queuedUser : Entry) : Server :=
  match getUserByName (entryName queuedUser) s with
  | None => s
  | Some (socketId, user) =>
      let timeoutId := nextTimer s in
      let s1 := setTimeout (entryName queuedUser) NOTIFICATION_TIMEOUT s in
      let s2 := setUsers (JsMap.set socketId (withTimeout (Some timeoutId) user)
                                    (users s1)) s1 in
      emitTo (getSocketsByName (entryName queuedUser) s2) your_turn s2
  end.

(** server.js, lines 124-164. *)
Definition notifyNextInQueue (s : Server) : Server :=
  let state := getState s in
  let availableSlots := Z.max 0 (MAX_OUTSIDE - Z.of_nat (length (outside state))) in
  let s1 := foldl (fun acc e => clearUserNotificationTimeout (entryName e) acc)
                  s (queue state) in
  if (availableSlots <=? 0) || (Z.of_nat (length (queue state)) =? 0) then s1
  else
    let toNotify := Z.min availableSlots (Z.of_nat (length (queue state))) in
    foldl notifyOne s1 (take (Z.to_nat toNotify) (queue state)).

(** The callback given to [setTimeout] (server.js, lines 143-154), for the
    captured name [n]. *)
Definition timeoutCallback (n : string) (now : Z) (s : Server) : Server :=
  match getUserByName n s with
  | Some (_, currentUser) =>
      if decide (status currentUser = Queue) then
        let s1 := updateUserStatus n Idle now s in
        let s2 := emitTo (getSocketsByName n s1) queue_timeout s1 in
        notifyNextInQueue (broadcastState s2)
      else s
  | None => s
  end.

(** ** The socket handlers *)

(** server.js, lines 171-218. *)
Definition on_login (socket : SocketId) (v : JsValue) (now : Z) (s : Server) : Server :=
  match sanitizeName v with
  | None => emit (ToSocket socket (login_error "Invalid name")) s
  | Some sanitized =>
      let nameLower := toLowerCase sanitized in
      let fresh := mkUser sanitized Idle now None in
      match nameToSockets s !! nameLower with
      | Some sockets =>
          if JsSet.has socket sockets then
            let s1 := if JsMap.has socket (users s) then s
                      else setUsers (JsMap.set socket fresh (users s)) s in
            broadcastState (emit (ToSocket socket (login_success sanitized)) s1)
          else if JsSet.size sockets >? 0 then
            emit (ToSocket socket (login_error "Name already in use")) s
          else
            let s1 := setNameToSockets
                        (<[nameLower := JsSet.add socket sockets]> (nameToSockets s)) s in
            let s2 := setUsers (JsMap.set socket fresh (users s1)) s1 in
            broadcastState (emit (ToSocket socket (login_success sanitized)) s2)
      | None =>
          let s1 := setNameToSockets
                      (<[nameLower := JsSet.add socket []]> (nameToSockets s)) s in
          let s2 := setUsers (JsMap.set socket fresh (users s1)) s1 in
          broadcastState (emit (ToSocket socket (login_success sanitized)) s2)
      end
  end.

(** [findIndex]: the index of the first match, [-1] when there is none. *)
Fixpoint findIndex (p : Entry → bool) (l : list Entry) : Z :=
  match l with
  | [] => -1
  | x :: r => if p x then 0 else
                let i := findIndex p r in if i <? 0 then -1 else i + 1
  end.

(** The status [leave_class] gives to [user], from the values it reads
    (server.js, lines 225-253). *)
Definition leaveClassTarget (state : State) (user : User) : Status :=
  let outsideCount := Z.of_nat (length (outside state)) in
  let queueCount := Z.of_nat (length (queue state)) in
  let availableSlots := MAX_OUTSIDE - outsideCount in
  let sameName := fun u : Entry =>
    String.eqb (toLowerCase (entryName u)) (toLowerCase (name user)) in
  let isUserQueued := existsb sameName (queue state) in
  let queueIndex := findIndex sameName (queue state) in
  if queueCount >? 0 then
    if isUserQueued && (queueIndex >? -1) && (queueIndex <? availableSlots) then Outside
    else if negb isUserQueued && (queueCount <? availableSlots) then Outside
    else Queue
  else
    if outsideCount <? MAX_OUTSIDE then Outside else Queue.

(** server.js, lines 221-257. *)
Definition on_leave_class (socket : SocketId) (now : Z) (s : Server) : Server :=
  match JsMap.get socket (users s) with
  | None => s
  | Some user =>
      let state := getState s in
      let s1 := clearUserNotificationTimeout (name user) s in
      let s2 := updateUserStatus (name user) (leaveClassTarget state user) now s1 in
      notifyNextInQueue (broadcastState s2)
  end.

(** server.js, lines 260-268. *)
Definition on_come_back (socket : SocketId) (now : Z) (s : Server) : Server :=
  match JsMap.get socket (users s) with
  | None => s
  | Some user =>
      if decide (status user = Outside) then
        let s1 := updateUserStatus (name user) Idle now s in
        notifyNextInQueue (broadcastState s1)
      else s
  end.

(** server.js, lines 271-280. *)
Definition on_leave_queue (socket : SocketId) (now : Z) (s : Server) : Server :=
  match JsMap.get socket (users s) with
  | None => s
  | Some user =>
      if decide (status user = Queue) then
        let s1 := clearUserNotificationTimeout (name user) s in
        let s2 := updateUserStatus (name user) Idle now s1 in
        notifyNextInQueue (broadcastState s2)
      else s
  end.

(** server.js, lines 283-289. *)
Definition on_request_state (socket : SocketId) (s : Server) : Server :=
  match JsMap.get socket (users s) with
  | Some user => broadcastState (emit (ToSocket socket (user_status (status user))) s)
  | None => broadcastState s
  end.

(** server.js, lines 292-315. *)
Definition on_disconnect (socket : SocketId) (s : Server) : Server :=
  match JsMap.get socket (users s) with
  | None => s
  | Some user =>
      let nameLower := toLowerCase (name user) in
      match nameToSockets s !! nameLower with
      | None => s
      | Some sockets =>
          let sockets' := JsSet.delete socket sockets in
          (* [sockets.delete(socket.id)] mutates the set held by the map *)
          let s1 := setNameToSockets (<[nameLower := sockets']> (nameToSockets s)) s in
          if JsSet.size sockets' =? 0 then
            let s2 := setNameToSockets (base.delete nameLower (nameToSockets s1)) s1 in
            let s3 := clearUserNotificationTimeout (name user) s2 in
            let s4 := setUsers (JsMap.delete socket (users s3)) s3 in
            notifyNextInQueue (broadcastState s4)
          else
            setUsers (JsMap.delete socket (users s1)) s1
      end
  end.

(** ** Events *)

(** A timer that fires leaves the table and runs its callback; a handle
    that is not armed cannot fire. *)
Definition on_timer (h : TimerId) (now : Z) (s : Server) : Server :=
  match List.find (fun t => Nat.eqb (timerId t) h) (timers s) with
  | Some t => timeoutCallback (timerName t) now (clearTimeout h s)
  | None => s
  end.

(** What the event loop delivers: the six socket events, each with the
    socket it comes from and the time [Date.now()] returns while it is
    handled, and the expiry of a timer. *)
Inductive Event :=
| Login (socket : SocketId) (v : JsValue) (now : Z)
| LeaveClass (socket : SocketId) (now : Z)
| ComeBack (socket : SocketId) (now : Z)
| LeaveQueue (socket : SocketId) (now : Z)
| RequestState (socket : SocketId)
| Disconnect (socket : SocketId)
| TimerFires (h : TimerId) (now : Z).

#[global] Instance JsValue_eq_dec : EqDecision JsValue.
Proof. solve_decision. Defined.

#[global] Instance Event_eq_dec : EqDecision Event.
Proof. solve_decision. Defined.

(** One event, handled to completion. *)
Definition handle (s : Server) (e : Event) : Server :=
  match e with
  | Login socket v now => on_login socket v now s
  | LeaveClass socket now => on_leave_class socket now s
  | ComeBack socket now => on_come_back socket now s
  | LeaveQueue socket now => on_leave_queue socket now s
  | RequestState socket => on_request_state socket s
  | Disconnect socket => on_disconnect socket s
  | TimerFires h now => on_timer h now s
  end.

(** Every event is processed to completion before the next one. *)
Definition run (evs : list Event) (s : Server) : Server := foldl handle s evs.

(** The states the server can be in between two events. *)
Inductive reachable : Server → Prop :=
| reachable_initial : reachable initial
| reachable_step s e : reachable s → reachable (handle s e).

(** ** Vocabulary of the properties and of their proofs *)

(** The canonical key of a user and of a projected entry. *)
Definition lname (u : User) : string := toLowerCase (name u).

Definition lnameE (e : Entry) : string := toLowerCase (entryName e).

(** A mutation of the user object stored under [sid]. *)
Definition upd (sid : SocketId) (f : User → User) (us : list (SocketId * User))
  : list (SocketId * User) :=
  (λ r, if decide (r.1 = sid) then (r.1, f r.2) else r) <$> us.

(** What [getState] reads of a user: everything but the timer handle. *)
Definition pub (r : SocketId * User) : string * Status * Z :=
  (name r.2, status r.2, joinedAt r.2).

(** The table of timers after [clearTimeout] of the handle [o], if any. *)
Definition dropTimer (o : option TimerId) (ts : list Timer) : list Timer :=
  match o with
  | Some h => List.filter (λ t, negb (Nat.eqb (timerId t) h)) ts
  | None => ts
  end.

(** The records [getState] projects to [outside] and to [queue]. *)
Definition isOutside (r : SocketId * User) : Prop := status r.2 = Outside.

Definition isQueued (r : SocketId * User) : Prop := status r.2 = Queue.

#[global] Instance isOutside_dec r : Decision (isOutside r).
Proof. unfold isOutside. apply _. Defined.

#[global] Instance isQueued_dec r : Decision (isQueued r).
Proof. unfold isQueued. apply _. Defined.

(** The number of free slots the turn notifier computes. *)
Definition availableSlots (s : Server) : Z :=
  Z.max 0 (MAX_OUTSIDE - Z.of_nat (length (outside (getState s)))).

(** A user holds an armed claim timer when the handle stored in its
    [notificationTimeout] field is in the table of armed timers. *)
Definition holdsArmed (s : Server) (u : User) : bool :=
  match notificationTimeout u with
  | Some h => armed h s
  | None => false
  end.

(** The queued users that hold an armed claim timer. *)
Definition armedQueued (s : Server) : list (SocketId * User) :=
  filter (λ r, status r.2 = Queue ∧ holdsArmed s r.2 = true) (users s).

(** The registry and the presence store agree. *)
Record WfUR (us : list (SocketId * User)) (reg : gmap string (list SocketId)) : Prop := {
  wf_keys : NoDup us.*1;
  wf_owner : ∀ sid u, (sid, u) ∈ us → reg !! lname u = Some [sid];
  wf_single : ∀ k l, reg !! k = Some l → ∃ sid, l = [sid]
}.

(** The registry and the presence store of a server agree. *)
Definition Wf (s : Server) : Prop := WfUR (users s) (nameToSockets s).

(** Handles are allocated in increasing order. *)
Record Fresh (s : Server) : Prop := {
  fresh_timers : ∀ t, t ∈ timers s → (timerId t < nextTimer s)%nat;
  fresh_handles : ∀ sid u h, (sid, u) ∈ users s →
                             notificationTimeout u = Some h → (h < nextTimer s)%nat
}.

(** [mapH g us] stores the handle [g u] in every user [u]. *)
Definition mapH (g : User → option TimerId) (us : list (SocketId * User))
  : list (SocketId * User) :=
  (λ r, (r.1, withTimeout (g r.2) r.2)) <$> us.

(** The position of a key in a list of keys. *)
Fixpoint posOf (x : string) (l : list string) : option nat :=
  match l with
  | [] => None
  | y :: r => if decide (x = y) then Some 0%nat else S <$> posOf x r
  end.

(** Every entry of [L] is the entry of a user of [s]. *)
Definition Owned (s : Server) (L : list Entry) : Prop :=
  ∀ e, e ∈ L → ∃ sid u, (sid, u) ∈ users s ∧ lname u = lnameE e.

(** The first [for] loop of [notifyNextInQueue]. *)
Definition clearLoop (L : list Entry) (s : Server) : Server :=
  foldl (λ acc e, clearUserNotificationTimeout (entryName e) acc) s L.

(** [your_turn] to every socket registered for each entry of [L], in order. *)
Definition turnsOf (s : Server) (L : list Entry) : list Emit :=
  L ≫= λ e, (λ x, ToSocket x your_turn) <$> getSocketsByName (entryName e) s.

(** The timers the second loop arms for the entries of [L], from the
    handle [nx] on. *)
Definition newTimers (nx : TimerId) (L : list Entry) : list Timer :=
  imap (λ i e, mkTimer (nx + i)%nat (entryName e) NOTIFICATION_TIMEOUT) L.

(** The number of queued users a pass notifies. *)
Definition toNotify (s : Server) : nat :=
  Z.to_nat (Z.min (availableSlots s) (Z.of_nat (length (queue (getState s))))).

(** The users a pass notifies: the head of the projected queue. *)
Definition notified (s : Server) : list Entry :=
  take (toNotify s) (queue (getState s)).

(** The handle a pass leaves in a user. *)
Definition passHandle (s : Server) (u : User) : option TimerId :=
  match posOf (lname u) (lnameE <$> notified s) with
  | Some i => Some (nextTimer s + i)%nat
  | None => if decide (lname u ∈ lnameE <$> queue (getState s)) then None
            else notificationTimeout u
  end.

(** The invariant of the server: every reachable state satisfies it. *)
Record Inv (s : Server) : Prop := {
  inv_wf : Wf s;
  inv_fresh : Fresh s;
  inv_outside : Z.of_nat (length (outside (getState s))) ≤ MAX_OUTSIDE;
  inv_armed : Z.of_nat (length (armedQueued s)) ≤ availableSlots s
}.

(** The admission rule in the words of the specification: [O] is the
    outside count, [Q] the projected queue in FIFO order, [idx] the FIFO
    index of the sender when it is queued. *)
Definition specAdmission (O : Z) (Q : list Entry) (idx : option nat) : Status :=
  let avail := MAX_OUTSIDE - O in
  match Q with
  | [] => if decide (O < MAX_OUTSIDE) then Outside else Queue
  | _ :: _ =>
      match idx with
      | Some i => if decide (Z.of_nat i < avail) then Outside else Queue
      | None => if decide (Z.of_nat (length Q) < avail) then Outside else Queue
      end
  end.

(** The FIFO index of a user in the projected queue. *)
Definition queueIndexOf (s : Server) (u : User) : option nat :=
  posOf (lname u) (lnameE <$> queue (getState s)).

(** The messages a handler run emits. *)
Definition emittedBy (s : Server) (e : Event) : list Emit :=
  drop (length (emitted s)) (emitted (handle s e)).

(** The state a handler has built when it reaches its pair of calls
    [broadcastState(); notifyNextInQueue();], when it reaches it. *)
Definition beforeBroadcast (s : Server) (e : Event) : option Server :=
  match e with
  | LeaveClass socket now =>
      match JsMap.get socket (users s) with
      | Some user =>
          Some (updateUserStatus (name user) (leaveClassTarget (getState s) user) now
                  (clearUserNotificationTimeout (name user) s))
      | None => None
      end
  | ComeBack socket now =>
      match JsMap.get socket (users s) with
      | Some user =>
          if decide (status user = Outside)
          then Some (updateUserStatus (name user) Idle now s) else None
      | None => None
      end
  | LeaveQueue socket now =>
      match JsMap.get socket (users s) with
      | Some user =>
          if decide (status user = Queue)
          then Some (updateUserStatus (name user) Idle now
                       (clearUserNotificationTimeout (name user) s))
          else None
      | None => None
      end
  | Disconnect socket =>
      match JsMap.get socket (users s) with
      | Some user =>
          let nameLower := toLowerCase (name user) in
          match nameToSockets s !! nameLower with
          | Some sockets =>
              let sockets' := JsSet.delete socket sockets in
              let s1 := setNameToSockets (<[nameLower := sockets']> (nameToSockets s)) s in
              if JsSet.size sockets' =? 0 then
                let s2 := setNameToSockets (base.delete nameLower (nameToSockets s1)) s1 in
                let s3 := clearUserNotificationTimeout (name user) s2 in
                Some (setUsers (JsMap.delete socket (users s3)) s3)
              else None
          | None => None
          end
      | None => None
      end
  | TimerFires h now =>
      match List.find (fun t => Nat.eqb (timerId t) h) (timers s) with
      | Some t =>
          let s0 := clearTimeout h s in
          match getUserByName (timerName t) s0 with
          | Some (_, currentUser) =>
              if decide (status currentUser = Queue) then
                let s1 := updateUserStatus (timerName t) Idle now s0 in
                Some (emitTo (getSocketsByName (timerName t) s1) queue_timeout s1)
              else None
          | None => None
          end
      | None => None
      end
  | Login _ _ _ | RequestState _ => None
  end.

(** A [your_turn] signal, to any socket. *)
Definition isYourTurn (x : Emit) : Prop := ∃ sid, x = ToSocket sid your_turn.

(** FIFO order: by [joinedAt]. *)
Definition entryLe (a b : Entry) : Prop := entryJoinedAt a ≤ entryJoinedAt b.

(** Five sockets log in under five names. *)
Definition fiveLogins : list Event :=
  [Login "s1" (JsString "Ann") 1; Login "s2" (JsString "Bob") 2;
   Login "s3" (JsString "Cy") 3; Login "s4" (JsString "Dan") 4;
   Login "s5" (JsString "Eve") 5].

(** Scenario A of the specification: five users ask to leave; four are
    outside, the fifth is queued. *)
Definition scenarioA : list Event :=
  fiveLogins ++ [LeaveClass "s1" 11; LeaveClass "s2" 12; LeaveClass "s3" 13;
                 LeaveClass "s4" 14; LeaveClass "s5" 15].

(** Then one comes back: the queued user is notified, timer [0] is armed. *)
Definition scenarioB : list Event := scenarioA ++ [ComeBack "s1" 20].

(** Four users outside, nobody queued. *)
Definition fourOutside : list Event :=
  [Login "s1" (JsString "Ann") 1; Login "s2" (JsString "Bob") 2;
   Login "s3" (JsString "Cy") 3; Login "s4" (JsString "Dan") 4;
   LeaveClass "s1" 11; LeaveClass "s2" 12; LeaveClass "s3" 13; LeaveClass "s4" 14].

(** After the queued user of scenario B has disconnected: the freed slot
    is taken, a new socket logs in under the same name and is queued. *)
Definition afterDisconnect : list Event :=
  scenarioB ++ [Disconnect "s5"; LeaveClass "s1" 21;
                Login "s6" (JsString "eve") 22; LeaveClass "s6" 23].

(** One socket logs in under a name, then under another, then
    disconnects. *)
Definition relogin : list Event :=
  [Login "s1" (JsString "Ann") 1; Login "s1" (JsString "Bea") 2; Disconnect "s1"].

(** Scenario B, then the socket of the queued user disconnects, the freed
    slot is taken again, and a new socket logs in under her name. *)
Definition nameTakenAgain : list Event :=
  scenarioB ++ [Disconnect "s5"; LeaveClass "s1" 21; Login "s6" (JsString "eve") 22].

(** The code units of a string. *)
Definition chars (s : string) : list ascii := String.list_ascii_of_string s.

(** What [getState] reads of the user stored under a socket, if any. *)
Definition pubIn (sid : SocketId) (us : list (SocketId * User))
  : option (string * Status * Z) :=
  (λ u, (name u, status u, joinedAt u)) <$> JsMap.get sid us.

(** The socket a socket event comes from. *)
Definition senderOf (e : Event) : option SocketId :=
  match e with
  | Login socket _ _ | LeaveClass socket _ | ComeBack socket _
  | LeaveQueue socket _ | RequestState socket | Disconnect socket => Some socket
  | TimerFires _ _ => None
  end.

(** The first user, in insertion order, whose canonical name is [n]. *)
Definition firstWithName (n : string) (us : list (SocketId * User)) : option User :=
  snd <$> List.find (λ r, String.eqb (lname r.2) n) us.

(** ** Facts about the [users] map *)

Section JsMapFacts.
Context {V : Type}.
Implicit Types (m : list (string * V)) (k : string) (v : V).

Lemma eqb_decide k k' : String.eqb k k' = bool_decide (k = k').
Proof.
  destruct (String.eqb_spec k k'); symmetry;
    [apply bool_decide_eq_true | apply bool_decide_eq_false]; done.
Qed.

Lemma get_elem_of k v m : JsMap.get k m = Some v → (k, v) ∈ m.
Proof.
  induction m as [|[k' v'] m IH]; simpl; [done|].
  destruct (String.eqb_spec k k') as [->|]; intros H.
  - injection H as ->. left.
  - right. auto.
Qed.

Lemma elem_of_get k v m : NoDup m.*1 → (k, v) ∈ m → JsMap.get k m = Some v.
Proof.
  induction m as [|[k' v'] m IH]; simpl; intros Hnd Hin.
  - by apply elem_of_nil in Hin.
  - apply NoDup_cons in Hnd as [Hk Hnd].
    apply elem_of_cons in Hin as [Heq|Hin].
    + injection Heq as -> ->. by rw String.eqb_refl.
    + destruct (String.eqb_spec k k') as [->|]; [|by auto].
      exfalso. apply Hk. apply list_elem_of_fmap. by exists (k', v).
Qed.

Lemma get_None_keys k m : JsMap.get k m = None ↔ k ∉ m.*1.
Proof.
  induction m as [|[k' v'] m IH]; simpl.
  - split; [intros _; apply not_elem_of_nil | done].
  - rw not_elem_of_cons. destruct (String.eqb_spec k k') as [->|]; [|tauto].
    split; [done | tauto].
Qed.

Lemma get_set k k' v m :
  JsMap.get k (JsMap.set k' v m) = if decide (k = k') then Some v else JsMap.get k m.
Proof.
  induction m as [|[k0 v0] m IH]; simpl.
  - destruct (String.eqb_spec k k'); by case_decide.
  - destruct (String.eqb_spec k' k0) as [->|]; simpl.
    + destruct (String.eqb_spec k k0); by case_decide.
    + destruct (String.eqb_spec k k0) as [->|]; [by case_decide|]. apply IH.
Qed.

Lemma keys_set_present k v m :
  k ∈ m.*1 → (JsMap.set k v m).*1 = m.*1.
Proof.
  induction m as [|[k0 v0] m IH]; simpl; intros Hin.
  - by apply elem_of_nil in Hin.
  - destruct (String.eqb_spec k k0) as [->|]; simpl; [done|].
    apply elem_of_cons in Hin as [?|?]; [done|]. f_equal. by apply IH.
Qed.

Lemma keys_set_absent k v m :
  k ∉ m.*1 → JsMap.set k v m = m ++ [(k, v)].
Proof.
  induction m as [|[k0 v0] m IH]; simpl; intros Hin; [done|].
  apply not_elem_of_cons in Hin as [? ?].
  destruct (String.eqb_spec k k0); [done|]. f_equal. by apply IH.
Qed.

Lemma NoDup_keys_set k v m : NoDup m.*1 → NoDup (JsMap.set k v m).*1.
Proof.
  intros Hnd. destruct (decide (k ∈ m.*1)) as [Hin|Hin].
  - by rw keys_set_present.
  - rw keys_set_absent // fmap_app /=. apply NoDup_app. split_and!; [done| |].
    + intros x Hx Hx'. apply list_elem_of_singleton in Hx'. by subst.
    + apply NoDup_singleton.
Qed.

Lemma elem_of_delete k r m : r ∈ JsMap.delete k m ↔ r ∈ m ∧ r.1 ≠ k.
Proof.
  induction m as [|[k0 v0] m IH]; simpl.
  - split; [intros H; by apply elem_of_nil in H | intros [H _]; by apply elem_of_nil in H].
  - destruct (String.eqb_spec k k0) as [->|Hne].
    + rw IH elem_of_cons. split; [tauto|]. intros [[->|?] ?]; [done | tauto].
    + rw !elem_of_cons IH. split; [intros [->|[? ?]]; [split; [by left|simpl; congruence] | tauto] | tauto].
Qed.

Lemma delete_sublist k m : JsMap.delete k m `sublist_of` m.
Proof.
  induction m as [|[k0 v0] m IH]; simpl; [done|].
  destruct (String.eqb k k0); by constructor.
Qed.

Lemma get_delete k k' m :
  JsMap.get k (JsMap.delete k' m) = if decide (k = k') then None else JsMap.get k m.
Proof.
  induction m as [|[k0 v0] m IH]; simpl; [by case_decide|].
  destruct (String.eqb_spec k' k0) as [->|]; simpl.
  - rw IH. case_decide; [done|]. by destruct (String.eqb_spec k k0).
  - destruct (String.eqb_spec k k0) as [->|]; [by case_decide | done].
Qed.
End JsMapFacts.

(** ** Mutations of one user object *)

Section UpdFacts.
Implicit Types (us : list (SocketId * User)) (f : User → User) (sid : SocketId).

Lemma keys_upd sid f us : (upd sid f us).*1 = us.*1.
Proof.
  unfold upd. rw -list_fmap_compose. apply list_fmap_ext.
  intros i [k u] _. simpl. by case_decide.
Qed.

Lemma pub_upd sid f us :
  (∀ u, name (f u) = name u ∧ status (f u) = status u ∧ joinedAt (f u) = joinedAt u) →
  pub <$> upd sid f us = pub <$> us.
Proof.
  intros Hf. unfold upd. rw -list_fmap_compose. apply list_fmap_ext.
  intros i [k u] _. simpl. case_decide; [|done].
  unfold pub; simpl. destruct (Hf u) as (-> & -> & ->). done.
Qed.

Lemma get_upd k sid f us :
  JsMap.get k (upd sid f us) =
  if decide (k = sid) then f <$> JsMap.get k us else JsMap.get k us.
Proof.
  induction us as [|[k0 u0] us IH]; csimpl; [by case_decide|].
  destruct (decide (k0 = sid)) as [->|Hne]; simpl.
  - destruct (String.eqb_spec k sid) as [->|]; [by rw decide_True|].
    rw IH. done.
  - destruct (String.eqb_spec k k0) as [->|]; [by rw decide_False|].
    by rw IH.
Qed.

Lemma upd_absent sid f us : sid ∉ us.*1 → upd sid f us = us.
Proof.
  intros Hn. unfold upd. rw -{2}(list_fmap_id us). apply list_fmap_ext.
  intros i [k u] Hi. simpl. case_decide as Hk; [|done]. subst k.
  exfalso. apply Hn. apply list_elem_of_fmap. exists (sid, u).
  split; [done|]. by eapply list_elem_of_lookup_2.
Qed.

Lemma set_upd sid f u us :
  NoDup us.*1 → JsMap.get sid us = Some u →
  JsMap.set sid (f u) us = upd sid f us.
Proof.
  induction us as [|[k0 u0] us IH]; csimpl; [done|].
  intros [Hk Hnd]%NoDup_cons.
  destruct (String.eqb_spec sid k0) as [->|Hne].
  - intros [= ->]. rw decide_True //. simpl. f_equal. by rw upd_absent.
  - intros Hg. rw decide_False; [congruence|]. f_equal. by apply IH.
Qed.

Lemma elem_of_upd r sid f us :
  r ∈ upd sid f us ↔
  ∃ r0, r0 ∈ us ∧ r = if decide (r0.1 = sid) then (r0.1, f r0.2) else r0.
Proof.
  unfold upd. rw list_elem_of_fmap. split; intros (r0 & ? & ?); exists r0; done.
Qed.

Lemma upd_upd sid f g us : upd sid g (upd sid f us) = upd sid (g ∘ f) us.
Proof.
  unfold upd. rw -list_fmap_compose. apply list_fmap_ext.
  intros i [k u] _. unfold compose. simpl.
  destruct (decide (k = sid)) as [?|?]; simpl; [by rw decide_True | by rw decide_False].
Qed.
End UpdFacts.

(** ** Facts about [getState] *)

Section GetStateFacts.
Implicit Types (us : list (SocketId * User)) (P : list string).

Lemma JsSet_has_elem_of x P : JsSet.has x P = true ↔ x ∈ P.
Proof.
  unfold JsSet.has. rw existsb_exists. split.
  - intros (y & Hy & ->%String.eqb_eq). by apply list_elem_of_In.
  - intros H. exists x. split; [by apply list_elem_of_In | apply String.eqb_refl].
Qed.

Lemma JsSet_has_false x P : JsSet.has x P = false ↔ x ∉ P.
Proof.
  rw -JsSet_has_elem_of. destruct (JsSet.has x P); naive_solver.
Qed.

Lemma collect_pub us us' P :
  pub <$> us = pub <$> us' → collect us P = collect us' P.
Proof.
  revert us' P. induction us as [|[k u] us IH]; intros [|[k' u'] us'] P; csimpl; try done.
  intros [= Hn Hs Hj Hr]. rw Hn. destruct (JsSet.has _ P); [by apply IH|].
  rw (IH us' _ Hr). unfold entryOf. by rw Hn Hs Hj.
Qed.

Lemma collect_distinct us P :
  NoDup ((lname ∘ snd) <$> us) →
  (∀ r, r ∈ us → lname r.2 ∉ P) →
  collect us P = ((entryOf ∘ snd) <$> filter isOutside us,
                  (entryOf ∘ snd) <$> filter isQueued us).
Proof.
  revert P. induction us as [|[k u] us IH]; intros P; csimpl; [done|].
  intros [Hk Hnd]%NoDup_cons HP.
  assert (JsSet.has (toLowerCase (name u)) P = false) as ->.
  { apply JsSet_has_false. apply (HP (k, u)). left. }
  rw IH; [done| |].
  { intros r Hr. apply not_elem_of_cons. split.
    - intros Heq. apply Hk. apply list_elem_of_fmap. by exists r.
    - apply HP. by right. }
  rw !filter_cons. unfold isOutside, isQueued. simpl.
  destruct u as [n [] j t]; simpl; repeat case_decide; try done.
Qed.

Lemma insertByJoinedAt_perm e l : insertByJoinedAt e l ≡ₚ e :: l.
Proof.
  induction l as [|x l IH]; simpl; [done|].
  destruct (entryJoinedAt e <=? entryJoinedAt x); [done|].
  rw IH. apply Permutation_swap.
Qed.

Lemma sortByJoinedAt_perm l : sortByJoinedAt l ≡ₚ l.
Proof.
  induction l as [|x l IH]; simpl; [done|].
  by rw insertByJoinedAt_perm IH.
Qed.

Lemma sortByJoinedAt_length l : length (sortByJoinedAt l) = length l.
Proof. by rw sortByJoinedAt_perm. Qed.

Lemma NoDup_fmap_keys {A} (f : SocketId * User → A) us :
  NoDup us.*1 →
  (∀ r1 r2, r1 ∈ us → r2 ∈ us → f r1 = f r2 → r1.1 = r2.1) →
  NoDup (f <$> us).
Proof.
  induction us as [|r us IH]; csimpl; [constructor|].
  intros [Hk Hnd]%NoDup_cons Hinj. apply NoDup_cons. split.
  - intros (r' & Heq & Hin)%list_elem_of_fmap. apply Hk.
    rw (Hinj r r'); [left | by right | done |].
    apply list_elem_of_fmap. by exists r'.
  - apply IH; [done|]. intros r1 r2 ? ?. apply Hinj; by right.
Qed.

Lemma WfUR_lnames us reg : WfUR us reg → NoDup ((lname ∘ snd) <$> us).
Proof.
  intros [Hk Ho _]. apply NoDup_fmap_keys; [done|].
  intros [k1 u1] [k2 u2] H1 H2. simpl. intros Heq.
  apply Ho in H1. apply Ho in H2. rw Heq in H1. congruence.
Qed.
End GetStateFacts.

Lemma getState_setUsers_pub us s :
  pub <$> us = pub <$> users s → getState (setUsers us s) = getState s.
Proof. intros H. unfold getState. simpl. by rw (collect_pub _ _ _ H). Qed.

Lemma getState_pub s s' :
  pub <$> users s = pub <$> users s' → getState s = getState s'.
Proof. intros H. unfold getState. by rw (collect_pub _ _ _ H). Qed.

Lemma getState_wf s :
  Wf s →
  getState s =
  mkState (sortByJoinedAt ((entryOf ∘ snd) <$> filter isOutside (users s)))
          (sortByJoinedAt ((entryOf ∘ snd) <$> filter isQueued (users s))).
Proof.
  intros H. unfold getState. rw collect_distinct; [| |done].
  - by eapply WfUR_lnames.
  - intros r _. apply not_elem_of_nil.
Qed.

Lemma outside_length_wf s :
  Wf s → length (outside (getState s)) = length (filter isOutside (users s)).
Proof.
  intros H. rw (getState_wf s H). simpl.
  by rw sortByJoinedAt_length length_fmap.
Qed.

Lemma queue_length_wf s :
  Wf s → length (queue (getState s)) = length (filter isQueued (users s)).
Proof.
  intros H. rw (getState_wf s H). simpl.
  by rw sortByJoinedAt_length length_fmap.
Qed.

(** An entry of the projected queue is the entry of a queued user. *)
Lemma elem_of_queue_wf s e :
  Wf s → e ∈ queue (getState s) ↔
         ∃ sid u, (sid, u) ∈ users s ∧ status u = Queue ∧ e = entryOf u.
Proof.
  intros H. rw (getState_wf s H). simpl. rw sortByJoinedAt_perm.
  rw list_elem_of_fmap. split.
  - intros ([sid u] & -> & [Hq Hin]%list_elem_of_filter). by exists sid, u.
  - intros (sid & u & Hin & Hq & ->). exists (sid, u). split; [done|].
    by apply list_elem_of_filter.
Qed.

Lemma queue_lnames_NoDup s : Wf s → NoDup (lnameE <$> queue (getState s)).
Proof.
  intros H. rw (getState_wf s H). simpl. rw sortByJoinedAt_perm.
  rw -list_fmap_compose.
  assert (lnameE ∘ (entryOf ∘ snd) = lname ∘ snd) as -> by done.
  eapply sublist_NoDup; [by eapply WfUR_lnames|].
  apply fmap_sublist. apply sublist_filter.
Qed.

(** ** The helpers, as mutations of one user object *)

Lemma Server_eta s :
  mkServer (users s) (nameToSockets s) (timers s) (nextTimer s) (emitted s) = s.
Proof. by destruct s. Qed.

Lemma withTimeout_same u : withTimeout (notificationTimeout u) u = u.
Proof. by destruct u. Qed.

Lemma emitTo_eq l m s :
  emitTo l m s =
  mkServer (users s) (nameToSockets s) (timers s) (nextTimer s)
           (emitted s ++ ((λ x, ToSocket x m) <$> l)).
Proof.
  unfold emitTo. revert s. induction l as [|x l IH]; intros s; csimpl.
  - rw app_nil_r. by destruct s.
  - rw IH. simpl. by rw -app_assoc.
Qed.

Lemma upd_same sid f u us :
  NoDup us.*1 → JsMap.get sid us = Some u → f u = u → upd sid f us = us.
Proof.
  intros Hnd Hg Hf. rw -(set_upd sid f u) //. rw Hf.
  clear Hnd Hf. induction us as [|[k0 u0] us IH]; simpl in *; [done|].
  destruct (String.eqb_spec sid k0) as [->|]; [congruence|]. f_equal. by apply IH.
Qed.

Section Lookups.
Context (s : Server).

Lemma getUserByName_wf sid u :
  Wf s → (sid, u) ∈ users s → getUserByName (name u) s = Some (sid, u).
Proof.
  intros [Hk Ho _] Hin. unfold getUserByName.
  rw (Ho sid u Hin). by rw (elem_of_get sid u).
Qed.

Lemma getSocketsByName_wf sid u :
  Wf s → (sid, u) ∈ users s → getSocketsByName (name u) s = [sid].
Proof. intros [Hk Ho _] Hin. unfold getSocketsByName. by rw (Ho sid u Hin). Qed.

Lemma getUserByName_Some n sid u :
  getUserByName n s = Some (sid, u) →
  (sid, u) ∈ users s ∧ ∃ l, nameToSockets s !! toLowerCase n = Some (sid :: l).
Proof.
  unfold getUserByName. destruct (nameToSockets s !! toLowerCase n) as [[|x l]|]; try done.
  destruct (JsMap.get x (users s)) as [u'|] eqn:Hg; [|done].
  intros [= -> ->]. split; [by apply get_elem_of | by exists l].
Qed.

Lemma getUserByName_entry sid u :
  Wf s → (sid, u) ∈ users s → getUserByName (entryName (entryOf u)) s = Some (sid, u).
Proof. apply getUserByName_wf. Qed.

Lemma clear_eq n sid u :
  NoDup (users s).*1 → getUserByName n s = Some (sid, u) →
  clearUserNotificationTimeout n s =
  mkServer (upd sid (withTimeout None) (users s)) (nameToSockets s)
           (dropTimer (notificationTimeout u) (timers s)) (nextTimer s) (emitted s).
Proof.
  intros Hnd Hg. unfold clearUserNotificationTimeout. rw Hg.
  apply getUserByName_Some in Hg as [Hin _].
  pose proof (elem_of_get _ _ _ Hnd Hin) as Hget.
  destruct (notificationTimeout u) as [h|] eqn:Hnt; simpl.
  - unfold setUsers, clearTimeout, setTimers. simpl. by rw (set_upd sid _ u).
  - rw (upd_same sid (withTimeout None) u); [done|done| |by rw Server_eta].
    by rw -Hnt withTimeout_same.
Qed.

Lemma clear_None n :
  getUserByName n s = None → clearUserNotificationTimeout n s = s.
Proof. intros Hg. unfold clearUserNotificationTimeout. by rw Hg. Qed.

Lemma notifyOne_eq e sid u :
  NoDup (users s).*1 → getUserByName (entryName e) s = Some (sid, u) →
  notifyOne s e =
  mkServer (upd sid (withTimeout (Some (nextTimer s))) (users s)) (nameToSockets s)
           (timers s ++ [mkTimer (nextTimer s) (entryName e) NOTIFICATION_TIMEOUT])
           (S (nextTimer s))
           (emitted s ++ ((λ x, ToSocket x your_turn) <$> getSocketsByName (entryName e) s)).
Proof.
  intros Hnd Hg. unfold notifyOne. rw Hg.
  apply getUserByName_Some in Hg as [Hin _].
  pose proof (elem_of_get _ _ _ Hnd Hin) as Hget.
  rw emitTo_eq. simpl. by rw (set_upd sid _ u).
Qed.

Lemma updateUserStatus_eq n st now :
  Wf s →
  updateUserStatus n st now s =
  setUsers (match getSocketsByName n s with
            | sid :: _ => upd sid (withStatus st now) (users s)
            | [] => users s
            end) s.
Proof.
  intros [Hk Ho Hs]. unfold updateUserStatus, getSocketsByName.
  destruct (nameToSockets s !! toLowerCase n) as [l|] eqn:Hl; simpl.
  - destruct (Hs _ _ Hl) as [sid ->]. simpl.
    destruct (JsMap.get sid (users s)) as [u|] eqn:Hg.
    + by rw (set_upd sid _ u).
    + rw upd_absent; [by apply get_None_keys|]. unfold setUsers. by rw Server_eta.
  - unfold setUsers. by rw Server_eta.
Qed.
End Lookups.

Lemma WfUR_upd us reg sid f :
  (∀ u, name (f u) = name u) → WfUR us reg → WfUR (upd sid f us) reg.
Proof.
  intros Hf [Hk Ho Hs]. split; [by rw keys_upd| |done].
  intros k u (r0 & Hin & Heq)%elem_of_upd. destruct r0 as [k0 u0]. simpl in Heq.
  case_decide; injection Heq as -> ->; [|by apply Ho].
  unfold lname. rw Hf. by apply Ho.
Qed.

(** ** Mutations of the timer handle, by name *)

Section MapHFacts.
Implicit Types (us : list (SocketId * User)) (g : User → option TimerId).

Lemma keys_mapH g us : (mapH g us).*1 = us.*1.
Proof. unfold mapH. rw -list_fmap_compose. by apply list_fmap_ext. Qed.

Lemma pub_mapH g us : pub <$> mapH g us = pub <$> us.
Proof. unfold mapH. rw -list_fmap_compose. by apply list_fmap_ext. Qed.

Lemma elem_of_mapH r g us :
  r ∈ mapH g us ↔ ∃ u, (r.1, u) ∈ us ∧ r.2 = withTimeout (g u) u.
Proof.
  unfold mapH. rw list_elem_of_fmap. split.
  - intros ([k u] & -> & Hin). by exists u.
  - intros (u & Hin & Heq). exists (r.1, u). split; [|done].
    destruct r; simpl in *; by subst.
Qed.

Lemma mapH_ext g g' us :
  (∀ k u, (k, u) ∈ us → g u = g' u) → mapH g us = mapH g' us.
Proof.
  intros H. apply list_fmap_ext. intros i [k u] Hi. simpl.
  rw (H k u) //. by eapply list_elem_of_lookup_2.
Qed.

Lemma mapH_mapH g1 g2 us :
  mapH g2 (mapH g1 us) = mapH (λ u, g2 (withTimeout (g1 u) u)) us.
Proof. unfold mapH. rw -list_fmap_compose. by apply list_fmap_ext. Qed.

Lemma get_mapH k g us :
  JsMap.get k (mapH g us) = (λ u, withTimeout (g u) u) <$> JsMap.get k us.
Proof.
  induction us as [|[k0 u0] us IH]; csimpl; [done|].
  by destruct (String.eqb k k0).
Qed.

Lemma WfUR_mapH g us reg : WfUR us reg → WfUR (mapH g us) reg.
Proof.
  intros [Hk Ho Hs]. split; [by rw keys_mapH| |done].
  intros k u (u0 & Hin & Heq)%elem_of_mapH. simpl in *. subst u.
  by apply (Ho k u0).
Qed.

Lemma owner_unique us reg sid sid' u u' :
  WfUR us reg → (sid, u) ∈ us → (sid', u') ∈ us → lname u = lname u' →
  sid = sid' ∧ u = u'.
Proof.
  intros [Hk Ho Hs] H1 H2 Heq.
  pose proof (Ho _ _ H1) as E1. pose proof (Ho _ _ H2) as E2.
  rw Heq in E1. assert (sid = sid') as <- by congruence. split; [done|].
  apply (elem_of_get _ _ _ Hk) in H1, H2. congruence.
Qed.

(** Under the agreement of registry and presence store, the record stored
    under a socket is the record of its name. *)
Lemma upd_as_mapH us reg sid u0 x :
  WfUR us reg → (sid, u0) ∈ us →
  upd sid (withTimeout x) us =
  mapH (λ u, if decide (lname u = lname u0) then x else notificationTimeout u) us.
Proof.
  intros Hwf Hin. apply list_fmap_ext. intros i [k u] Hi. simpl.
  apply list_elem_of_lookup_2 in Hi.
  destruct (decide (k = sid)) as [->|Hne].
  - destruct (owner_unique us reg sid sid u u0 Hwf Hi Hin) as [_ ->].
    + apply (elem_of_get _ _ _ (wf_keys _ _ Hwf)) in Hi, Hin. congruence.
    + by rw decide_True.
  - rw decide_False; [|by rw withTimeout_same].
    intros Heq. by destruct (owner_unique us reg k sid u u0 Hwf Hi Hin Heq).
Qed.

Lemma posOf_None x l : posOf x l = None ↔ x ∉ l.
Proof.
  induction l as [|y l IH]; simpl; [split; [intros _; apply not_elem_of_nil|done]|].
  rw not_elem_of_cons. case_decide as Hd; [split; [done | by intros [? _]]|].
  destruct (posOf x l) as [i|]; simpl.
  - split; [done|]. intros [_ Hn]. by apply IH in Hn.
  - split; [|done]. intros _. split; [done | by apply IH].
Qed.

Lemma posOf_Some x l i : posOf x l = Some i → l !! i = Some x.
Proof.
  revert i. induction l as [|y l IH]; intros i; simpl; [done|].
  case_decide; [by intros [= <-]; subst|].
  destruct (posOf x l) as [j|]; simpl; [|done]. intros [= <-]. by apply IH.
Qed.

Lemma posOf_lookup x l i : NoDup l → l !! i = Some x → posOf x l = Some i.
Proof.
  revert i. induction l as [|y l IH]; intros i; [done|].
  intros [Hy Hnd]%NoDup_cons. destruct i as [|i]; simpl.
  - intros [= ->]. by rw decide_True.
  - intros Hi. rw decide_False.
    { intros ->. apply Hy. by eapply list_elem_of_lookup_2. }
    by rw (IH i).
Qed.
End MapHFacts.

(** ** The two loops of [notifyNextInQueue] *)

Lemma getUserByName_owner s n sid u :
  Wf s → (sid, u) ∈ users s → lname u = toLowerCase n →
  getUserByName n s = Some (sid, u).
Proof.
  intros Hwf Hin Heq. rw -(getUserByName_wf s sid u Hwf Hin).
  unfold getUserByName. unfold lname in Heq. by rw Heq.
Qed.

Lemma Owned_users s s' L :
  (lname ∘ snd) <$> users s = (lname ∘ snd) <$> users s' → (users s).*1 = (users s').*1 →
  Owned s L → Owned s' L.
Proof.
  intros Hn Hk Ho e He. destruct (Ho e He) as (sid & u & Hin & Hl).
  apply list_elem_of_lookup_1 in Hin as [i Hi].
  assert (((lname ∘ snd) <$> users s') !! i = Some (lname u)) as H1.
  { rw -Hn list_lookup_fmap Hi. done. }
  assert ((users s').*1 !! i = Some sid) as H2.
  { rw -Hk list_lookup_fmap Hi. done. }
  rw list_lookup_fmap in H1. rw list_lookup_fmap in H2.
  destruct (users s' !! i) as [[k' u']|] eqn:Hi'; simpl in *; [|done].
  injection H1 as H1. injection H2 as ->. exists sid, u'. split.
  - by eapply list_elem_of_lookup_2.
  - congruence.
Qed.

Lemma lnames_mapH g us : (lname ∘ snd) <$> mapH g us = (lname ∘ snd) <$> us.
Proof. unfold mapH. rw -list_fmap_compose. by apply list_fmap_ext. Qed.

Lemma clearLoop_spec L s :
  Wf s → Owned s L →
  let s' := clearLoop L s in
  users s' = mapH (λ u, if decide (lname u ∈ lnameE <$> L) then None
                        else notificationTimeout u) (users s)
  ∧ nameToSockets s' = nameToSockets s
  ∧ nextTimer s' = nextTimer s
  ∧ emitted s' = emitted s
  ∧ (∀ t, t ∈ timers s' → t ∈ timers s)
  ∧ (∀ t sid u, t ∈ timers s' → (sid, u) ∈ users s → lname u ∈ lnameE <$> L →
                notificationTimeout u ≠ Some (timerId t)).
Proof.
  revert s. induction L as [|e L IH]; intros s Hwf Hown; simpl.
  { split_and!; try done.
    - rw -{1}(list_fmap_id (users s)). apply list_fmap_ext. intros i [k u] _. simpl.
      by rw withTimeout_same.
    - intros t sid u _ _ Hin. by apply elem_of_nil in Hin. }
  destruct (Hown e) as (sid & u0 & Hin0 & Hl0); [left|].
  pose proof (getUserByName_owner s (entryName e) sid u0 Hwf Hin0 Hl0) as Hg.
  rw (clear_eq s _ sid u0 (wf_keys _ _ Hwf) Hg).
  rw (upd_as_mapH _ _ sid u0 None Hwf Hin0).
  set (s1 := mkServer _ _ _ _ _).
  assert (Wf s1) as Hwf1 by by apply WfUR_mapH.
  assert (Owned s1 L) as Hown1.
  { apply (Owned_users s); [by rw /= lnames_mapH | by rw /= keys_mapH |].
    intros e' He'. apply Hown. by right. }
  destruct (IH s1 Hwf1 Hown1) as (Hu & Hr & Hn & He & Ht1 & Ht2).
  fold (clearLoop L s1). split_and!; try done.
  - rw Hu. simpl. rw mapH_mapH. apply mapH_ext. intros k u Hin. simpl.
    change (lname (withTimeout _ u)) with (lname u).
    csimpl. rw Hl0.
    destruct (decide (lname u = lnameE e)) as [Heq|Hne];
      destruct (decide (lname u ∈ lnameE <$> L)) as [HL|HL]; simpl.
    + rw decide_True //. rw Heq. by left.
    + rw decide_True //. rw Heq. by left.
    + rw decide_True //. by right.
    + rw decide_False //. by intros [?|?]%elem_of_cons.
  - intros t Ht. apply Ht1 in Ht. simpl in Ht. destruct (notificationTimeout u0); [|done].
    simpl in Ht. apply list_elem_of_In in Ht. apply filter_In in Ht as [Ht _].
    by apply list_elem_of_In.
  - intros t k u Ht Hin Hl. csimpl in Hl. apply elem_of_cons in Hl as [Hl|Hl].
    + rw -Hl0 in Hl. destruct (owner_unique _ _ _ _ _ _ Hwf Hin Hin0 Hl) as [-> ->].
      apply Ht1 in Ht. simpl in Ht. destruct (notificationTimeout u0) as [h|]; [|done].
      simpl in Ht. apply list_elem_of_In in Ht. apply filter_In in Ht as [_ Ht].
      apply negb_true_iff, Nat.eqb_neq in Ht. congruence.
    + assert ((k, withTimeout (if decide (lname u = lname u0) then None
                               else notificationTimeout u) u) ∈ users s1) as Hin1.
      { apply elem_of_mapH. by exists u. }
      specialize (Ht2 t _ _ Ht Hin1 Hl). simpl in Ht2.
      case_decide as Hd; [|done].
      destruct (owner_unique _ _ _ _ _ _ Hwf Hin Hin0 Hd) as [-> ->].
      apply Ht1 in Ht. simpl in Ht. destruct (notificationTimeout u0) as [h|]; [|done].
      simpl in Ht. apply list_elem_of_In in Ht. apply filter_In in Ht as [_ Ht].
      apply negb_true_iff, Nat.eqb_neq in Ht. congruence.
Qed.

Lemma turnsOf_reg s s' L :
  nameToSockets s' = nameToSockets s → turnsOf s' L = turnsOf s L.
Proof. intros H. unfold turnsOf, getSocketsByName. by rw H. Qed.

Lemma newTimers_cons nx e L :
  newTimers nx (e :: L) =
  mkTimer nx (entryName e) NOTIFICATION_TIMEOUT :: newTimers (S nx) L.
Proof.
  unfold newTimers. rw imap_cons. rw Nat.add_0_r. f_equal.
  apply imap_ext. intros i x _. simpl. f_equal. lia.
Qed.

Lemma notifyLoop_spec L s :
  Wf s → Owned s L → NoDup (lnameE <$> L) →
  let s' := foldl notifyOne s L in
  users s' = mapH (λ u, match posOf (lname u) (lnameE <$> L) with
                        | Some i => Some (nextTimer s + i)%nat
                        | None => notificationTimeout u
                        end) (users s)
  ∧ nameToSockets s' = nameToSockets s
  ∧ nextTimer s' = (nextTimer s + length L)%nat
  ∧ timers s' = timers s ++ newTimers (nextTimer s) L
  ∧ emitted s' = emitted s ++ turnsOf s L.
Proof.
  revert s. induction L as [|e L IH]; intros s Hwf Hown Hnd; cbv zeta.
  { simpl. split_and!; try done.
    - rw -{1}(list_fmap_id (users s)). apply list_fmap_ext. intros i [k u] _. simpl.
      by rw withTimeout_same.
    - by rw app_nil_r.
    - by rw app_nil_r. }
  change (foldl notifyOne s (e :: L)) with (foldl notifyOne (notifyOne s e) L).
  csimpl in Hnd. apply NoDup_cons in Hnd as [Hfresh Hnd].
  destruct (Hown e) as (sid & u0 & Hin0 & Hl0); [left|].
  pose proof (getUserByName_owner s (entryName e) sid u0 Hwf Hin0 Hl0) as Hg.
  rw (notifyOne_eq s _ sid u0 (wf_keys _ _ Hwf) Hg).
  rw (upd_as_mapH _ _ sid u0 _ Hwf Hin0).
  set (s1 := mkServer _ _ _ _ _).
  assert (Wf s1) as Hwf1 by by apply WfUR_mapH.
  assert (Owned s1 L) as Hown1.
  { apply (Owned_users s); [by rw /= lnames_mapH | by rw /= keys_mapH |].
    intros e' He'. apply Hown. by right. }
  destruct (IH s1 Hwf1 Hown1 Hnd) as (Hu & Hr & Hn & Ht & He).
  split_and!; try done.
  - rw Hu. simpl. rw mapH_mapH. apply mapH_ext. intros k u Hin. csimpl.
    change (lname (withTimeout _ u)) with (lname u). rw Hl0.
    destruct (decide (lname u = lnameE e)) as [Heq|Hne].
    + rw Heq. apply posOf_None in Hfresh. rw Hfresh. simpl. by rw Nat.add_0_r.
    + destruct (posOf (lname u) (lnameE <$> L)); simpl; [f_equal; lia | done].
  - rw Hn. simpl. lia.
  - rw Ht. simpl. by rw newTimers_cons -app_assoc.
  - rw He. simpl. rw (turnsOf_reg s1 s) //. unfold turnsOf. csimpl. by rw -app_assoc.
Qed.

(** ** The turn notifier pass *)

Lemma toNotify_le s : (toNotify s ≤ length (queue (getState s)))%nat.
Proof. unfold toNotify. lia. Qed.

Lemma toNotify_avail s : Z.of_nat (toNotify s) ≤ availableSlots s.
Proof. unfold toNotify, availableSlots. lia. Qed.

Lemma notified_length s : length (notified s) = toNotify s.
Proof. unfold notified. rw length_take. pose proof (toNotify_le s). lia. Qed.

Lemma notifyNextInQueue_loops s :
  notifyNextInQueue s =
  foldl notifyOne (clearLoop (queue (getState s)) s) (notified s).
Proof.
  unfold notifyNextInQueue, notified, toNotify, availableSlots, clearLoop.
  set (a := Z.max 0 _). set (Q := queue (getState s)).
  destruct ((a <=? 0) || (Z.of_nat (length Q) =? 0)) eqn:Hc; [|done].
  apply orb_true_iff in Hc.
  assert (Z.to_nat (a `min` Z.of_nat (length Q)) = 0%nat) as -> by lia.
  done.
Qed.

Lemma Owned_queue s : Wf s → Owned s (queue (getState s)).
Proof.
  intros Hwf e (sid & u & Hin & _ & ->)%elem_of_queue_wf; [|done].
  by exists sid, u.
Qed.

Lemma queued_iff_in_queue s sid u :
  Wf s → (sid, u) ∈ users s →
  lname u ∈ lnameE <$> queue (getState s) ↔ status u = Queue.
Proof.
  intros Hwf Hin. rw list_elem_of_fmap. split.
  - intros (e & Hl & (sid' & u' & Hin' & Hq & ->)%elem_of_queue_wf); [|done].
    by destruct (owner_unique _ _ _ _ _ _ Hwf Hin Hin' Hl) as [_ ->].
  - intros Hq. exists (entryOf u). split; [done|].
    apply elem_of_queue_wf; [done|]. by exists sid, u.
Qed.

Lemma notifyNextInQueue_spec s :
  Wf s →
  let s' := notifyNextInQueue s in
  users s' = mapH (passHandle s) (users s)
  ∧ nameToSockets s' = nameToSockets s
  ∧ nextTimer s' = (nextTimer s + toNotify s)%nat
  ∧ emitted s' = emitted s ++ turnsOf s (notified s)
  ∧ ∃ ts, timers s' = ts ++ newTimers (nextTimer s) (notified s)
          ∧ (∀ t, t ∈ ts → t ∈ timers s)
          ∧ (∀ t sid u, t ∈ ts → (sid, u) ∈ users s → status u = Queue →
                        notificationTimeout u ≠ Some (timerId t)).
Proof.
  intros Hwf. cbv zeta. rw notifyNextInQueue_loops.
  pose proof (Owned_queue s Hwf) as Hown.
  destruct (clearLoop_spec _ s Hwf Hown) as (Hu & Hr & Hn & He & Ht1 & Ht2).
  set (s1 := clearLoop _ s) in *.
  assert (Wf s1) as Hwf1.
  { unfold Wf. rw Hu Hr. by apply WfUR_mapH. }
  assert (Owned s1 (notified s)) as Hown1.
  { apply (Owned_users s); [by rw Hu lnames_mapH | by rw Hu keys_mapH |].
    intros e He'. apply Hown. unfold notified in He'.
    by eapply subseteq_take. }
  assert (NoDup (lnameE <$> notified s)) as Hnd.
  { unfold notified. rw fmap_take. eapply sublist_NoDup; [apply (queue_lnames_NoDup s Hwf)|].
    apply sublist_take. }
  destruct (notifyLoop_spec _ s1 Hwf1 Hown1 Hnd) as (Hu' & Hr' & Hn' & Ht' & He').
  split_and!.
  - rw Hu' Hu mapH_mapH. apply mapH_ext. intros k u Hin. unfold passHandle.
    change (lname (withTimeout _ u)) with (lname u). by rw Hn.
  - by rw Hr'.
  - by rw Hn' Hn notified_length.
  - by rw He' He (turnsOf_reg s1 s).
  - exists (timers s1). split_and!; [by rw Ht' Hn | done |].
    intros t sid u Ht Hin Hq. apply (Ht2 t sid u Ht Hin).
    by apply (queued_iff_in_queue s sid u Hwf Hin).
Qed.

Lemma notifyNextInQueue_getState s :
  Wf s → getState (notifyNextInQueue s) = getState s.
Proof.
  intros Hwf. destruct (notifyNextInQueue_spec s Hwf) as (Hu & _).
  apply getState_pub. by rw Hu pub_mapH.
Qed.

Lemma notifyNextInQueue_Wf s : Wf s → Wf (notifyNextInQueue s).
Proof.
  intros Hwf. destruct (notifyNextInQueue_spec s Hwf) as (Hu & Hr & _).
  unfold Wf. rw Hu Hr. by apply WfUR_mapH.
Qed.

Lemma elem_of_newTimers t nx L :
  t ∈ newTimers nx L ↔
  ∃ i e, L !! i = Some e ∧ t = mkTimer (nx + i)%nat (entryName e) NOTIFICATION_TIMEOUT.
Proof.
  unfold newTimers. rw elem_of_lookup_imap. split; intros (i & e & H1 & H2); by exists i, e.
Qed.

Lemma passHandle_Some s u h :
  passHandle s u = Some h →
  (∃ i, posOf (lname u) (lnameE <$> notified s) = Some i ∧ h = (nextTimer s + i)%nat
        ∧ (i < toNotify s)%nat)
  ∨ ((lname u ∉ lnameE <$> queue (getState s)) ∧ notificationTimeout u = Some h).
Proof.
  unfold passHandle. destruct (posOf _ _) as [i|] eqn:Hp.
  - intros [= <-]. left. exists i. split_and!; [done|done|].
    apply posOf_Some, lookup_lt_Some in Hp. by rw length_fmap notified_length in Hp.
  - case_decide; [done|]. intros ?. by right.
Qed.

Lemma notifyNextInQueue_Fresh s : Wf s → Fresh s → Fresh (notifyNextInQueue s).
Proof.
  intros Hwf [Hft Hfh].
  destruct (notifyNextInQueue_spec s Hwf) as (Hu & Hr & Hn & He & ts & Ht & Hts & _).
  split.
  - intros t. rw Ht Hn. intros [Hin|Hin]%elem_of_app.
    + apply Hts, Hft in Hin. lia.
    + apply elem_of_newTimers in Hin as (i & e & Hi & ->). simpl.
      apply lookup_lt_Some in Hi. rw notified_length in Hi. lia.
  - intros sid u h. rw Hu Hn. intros (u0 & Hin & Heq)%elem_of_mapH.
    simpl in *. subst u. simpl.
    intros [(i & _ & -> & Hi)|[_ Hh]]%passHandle_Some; [lia|].
    apply (Hfh _ _ _ Hin) in Hh. lia.
Qed.

Lemma notifyNextInQueue_avail s :
  Wf s → availableSlots (notifyNextInQueue s) = availableSlots s.
Proof. intros Hwf. unfold availableSlots. by rw notifyNextInQueue_getState. Qed.

(** After a pass, the queued users that hold an armed timer are among the
    notified ones. *)
Lemma notifyNextInQueue_armedQueued s :
  Wf s → (length (armedQueued (notifyNextInQueue s)) ≤ toNotify s)%nat.
Proof.
  intros Hwf. pose proof (notifyNextInQueue_Wf s Hwf) as Hwf'.
  destruct (notifyNextInQueue_spec s Hwf) as (Hu & _).
  set (s' := notifyNextInQueue s) in *.
  rw -(notified_length s) -(length_fmap lnameE (notified s)).
  rw -(length_fmap (lname ∘ snd) (armedQueued s')).
  apply submseteq_length, NoDup_submseteq.
  - eapply sublist_NoDup; [by apply (WfUR_lnames _ _ Hwf')|].
    apply fmap_sublist, sublist_filter.
  - intros x ([k u'] & -> & [[Hq Ha] Hin]%list_elem_of_filter)%list_elem_of_fmap.
    simpl in *. rw Hu in Hin. apply elem_of_mapH in Hin as (u & Hin & Heq).
    simpl in *. subst u'. simpl in *.
    unfold holdsArmed in Ha. simpl in Ha.
    destruct (passHandle s u) as [h|] eqn:Hp; [|done].
    apply passHandle_Some in Hp as [(i & Hp & _)|[Hn _]].
    + apply posOf_Some in Hp. by eapply list_elem_of_lookup_2.
    + exfalso. apply Hn. by apply (queued_iff_in_queue s k u Hwf Hin).
Qed.

(** ** Counting users *)

Section Counting.
Context (P : SocketId * User → Prop) `{∀ r, Decision (P r)}.
Implicit Types (us : list (SocketId * User)).

Lemma count_set_le k v us :
  ¬ P (k, v) → (length (filter P (JsMap.set k v us)) ≤ length (filter P us))%nat.
Proof.
  intros Hv. induction us as [|[k0 v0] us IH]; simpl.
  - rw filter_cons. by rw decide_False.
  - destruct (String.eqb_spec k k0) as [->|].
    + rw !filter_cons. rw (decide_False (P:=P (k0, v))) //.
      destruct (decide (P (k0, v0))); simpl; lia.
    + rw !filter_cons. destruct (decide (P (k0, v0))); simpl; lia.
Qed.

Lemma count_delete_le k us :
  (length (filter P (JsMap.delete k us)) ≤ length (filter P us))%nat.
Proof.
  induction us as [|[k0 v0] us IH]; simpl; [done|].
  destruct (String.eqb k k0); rw !filter_cons;
    destruct (decide (P (k0, v0))); simpl; lia.
Qed.

Lemma count_upd_le sid f us :
  (∀ k u, ¬ P (k, f u)) →
  (length (filter P (upd sid f us)) ≤ length (filter P us))%nat.
Proof.
  intros Hf. induction us as [|[k0 v0] us IH]; csimpl; [done|].
  rw !filter_cons. simpl. destruct (decide (k0 = sid)) as [->|].
  - rw (decide_False (P:=P (sid, f v0))) //.
    destruct (decide (P (sid, v0))); simpl; lia.
  - destruct (decide (P (k0, v0))); simpl; lia.
Qed.

Lemma count_upd_S sid f us :
  NoDup us.*1 →
  (length (filter P (upd sid f us)) ≤ S (length (filter P us)))%nat.
Proof.
  induction us as [|[k0 v0] us IH]; csimpl; [lia|].
  intros [Hk Hnd]%NoDup_cons.
  rw !filter_cons. simpl. destruct (decide (k0 = sid)) as [->|].
  - rw upd_absent //.
    destruct (decide (P (sid, f v0))); destruct (decide (P (sid, v0))); simpl; lia.
  - specialize (IH Hnd). destruct (decide (P (k0, v0))); simpl; lia.
Qed.
End Counting.

Lemma count_mono {A} (P Q : A → Prop) `{∀ x, Decision (P x)} `{∀ x, Decision (Q x)}
      (l : list A) :
  (∀ x, x ∈ l → P x → Q x) → (length (filter P l) ≤ length (filter Q l))%nat.
Proof.
  induction l as [|x l IH]; intros Himp; [done|].
  rw !filter_cons.
  assert (length (filter P l) ≤ length (filter Q l))%nat.
  { apply IH. intros y Hy. apply Himp. by right. }
  destruct (decide (P x)) as [HP|]; destruct (decide (Q x)) as [|HQ]; simpl; try lia.
  exfalso. apply HQ, Himp; [left | done].
Qed.

Lemma elem_of_set {V} k (v : V) r (m : list (string * V)) :
  NoDup m.*1 → r ∈ JsMap.set k v m → r = (k, v) ∨ (r ∈ m ∧ r.1 ≠ k).
Proof.
  induction m as [|[k0 v0] m IH]; csimpl.
  - intros _ ->%list_elem_of_singleton. by left.
  - intros [Hk Hnd]%NoDup_cons. destruct (String.eqb_spec k k0) as [->|Hne].
    + intros [->|Hin]%elem_of_cons; [by left|]. right. split; [by right|].
      intros Heq. apply Hk. rw -Heq. apply list_elem_of_fmap. by exists r.
    + intros [->|Hin]%elem_of_cons.
      * right. split; [left | simpl; congruence].
      * destruct (IH Hnd Hin) as [->|[? ?]]; [by left|]. right. split; [by right|done].
Qed.

(** ** The invariant of the server *)

Lemma dropTimer_subset o ts t : t ∈ dropTimer o ts → t ∈ ts.
Proof.
  destruct o as [h|]; simpl; [|done].
  intros Hin%list_elem_of_In. apply filter_In in Hin as [Hin _]. by apply list_elem_of_In.
Qed.

Lemma dropTimer_not_in h ts t : t ∈ dropTimer (Some h) ts → timerId t ≠ h.
Proof.
  simpl. intros Hin%list_elem_of_In. apply filter_In in Hin as [_ Hin].
  by apply negb_true_iff, Nat.eqb_neq in Hin.
Qed.

Lemma Fresh_mono s s' :
  (nextTimer s ≤ nextTimer s')%nat →
  (∀ t, t ∈ timers s' → t ∈ timers s) →
  (∀ sid u h, (sid, u) ∈ users s' → notificationTimeout u = Some h →
              ∃ sid0 u0, (sid0, u0) ∈ users s ∧ notificationTimeout u0 = Some h) →
  Fresh s → Fresh s'.
Proof.
  intros Hn Ht Hu [Hft Hfh]. split.
  - intros t Hin. apply Ht, Hft in Hin. lia.
  - intros sid u h Hin Hh. destruct (Hu _ _ _ Hin Hh) as (sid0 & u0 & Hin0 & Hh0).
    apply (Hfh _ _ _ Hin0) in Hh0. lia.
Qed.

Lemma armed_elem_of h s : armed h s = true ↔ ∃ t, t ∈ timers s ∧ timerId t = h.
Proof.
  unfold armed. rw existsb_exists. split; intros (t & Hin & Heq); exists t.
  - split; [by apply list_elem_of_In | by apply Nat.eqb_eq].
  - split; [by apply list_elem_of_In | by apply Nat.eqb_eq].
Qed.

Lemma Inv_emit e s : Inv s → Inv (emit e s).
Proof. intros [Hwf [Hft Hfh] Ho Ha]. split; [exact Hwf | by split | exact Ho | exact Ha]. Qed.

Lemma Inv_emitTo l m s : Inv s → Inv (emitTo l m s).
Proof.
  intros [Hwf [Hft Hfh] Ho Ha]. rw emitTo_eq.
  split; [exact Hwf | by split | exact Ho | exact Ha].
Qed.

Lemma Inv_broadcastState s : Inv s → Inv (broadcastState s).
Proof. apply Inv_emit. Qed.

(** Every handler that changes the occupancy ends with a broadcast and a
    pass; the pass establishes the bound on armed timers. *)
Lemma finish_Inv s :
  Wf s → Fresh s → Z.of_nat (length (outside (getState s))) ≤ MAX_OUTSIDE →
  Inv (notifyNextInQueue (broadcastState s)).
Proof.
  intros Hwf Hf Ho.
  assert (Wf (broadcastState s)) as Hwf' by exact Hwf.
  assert (Fresh (broadcastState s)) as Hf' by (destruct Hf; by split).
  split.
  - by apply notifyNextInQueue_Wf.
  - by apply notifyNextInQueue_Fresh.
  - by rw notifyNextInQueue_getState.
  - rw notifyNextInQueue_avail //.
    pose proof (notifyNextInQueue_armedQueued _ Hwf').
    pose proof (toNotify_avail (broadcastState s)). lia.
Qed.

Section ClearAndUpdate.
Context (s : Server) (Hwf : Wf s).

Lemma clear_cases n :
  clearUserNotificationTimeout n s = s
  ∨ ∃ sid u, (sid, u) ∈ users s ∧
      clearUserNotificationTimeout n s =
      mkServer (upd sid (withTimeout None) (users s)) (nameToSockets s)
               (dropTimer (notificationTimeout u) (timers s)) (nextTimer s) (emitted s).
Proof.
  destruct (getUserByName n s) as [[sid u]|] eqn:Hg.
  - right. exists sid, u. split; [by apply (getUserByName_Some s n)|].
    apply clear_eq; [apply Hwf | done].
  - left. by apply clear_None.
Qed.

Lemma clear_Wf n : Wf (clearUserNotificationTimeout n s).
Proof.
  destruct (clear_cases n) as [->|(sid & u & _ & ->)]; [done|].
  by apply WfUR_upd.
Qed.

Lemma clear_pub n : pub <$> users (clearUserNotificationTimeout n s) = pub <$> users s.
Proof.
  destruct (clear_cases n) as [->|(sid & u & _ & ->)]; [done|].
  simpl. by apply pub_upd.
Qed.

Lemma clear_getState n : getState (clearUserNotificationTimeout n s) = getState s.
Proof. apply getState_pub, clear_pub. Qed.

Lemma clear_Fresh n : Fresh s → Fresh (clearUserNotificationTimeout n s).
Proof.
  destruct (clear_cases n) as [->|(sid & u & _ & ->)]; [done|].
  apply Fresh_mono; simpl; [done| |].
  - intros t. apply dropTimer_subset.
  - intros k v h (r0 & Hin & Heq)%elem_of_upd. destruct r0 as [k0 v0]. simpl in *.
    case_decide; injection Heq as -> ->; [done|]. intros ?. by exists k0, v0.
Qed.

Lemma updateUserStatus_Wf n st now : Wf (updateUserStatus n st now s).
Proof.
  rw updateUserStatus_eq //. destruct (getSocketsByName n s); [done|].
  by apply WfUR_upd.
Qed.

Lemma updateUserStatus_Fresh n st now : Fresh s → Fresh (updateUserStatus n st now s).
Proof.
  rw updateUserStatus_eq //. apply Fresh_mono; simpl; [done|done|].
  destruct (getSocketsByName n s) as [|sid ?]; [intros k v h ? ?; by exists k, v|].
  intros k v h (r0 & Hin & Heq)%elem_of_upd. destruct r0 as [k0 v0]. simpl in *.
  case_decide; injection Heq as -> ->; intros ?; by exists k0, v0.
Qed.

Lemma updateUserStatus_outside_le n st now :
  st ≠ Outside →
  (length (filter isOutside (users (updateUserStatus n st now s)))
   ≤ length (filter isOutside (users s)))%nat.
Proof.
  intros Hst. rw updateUserStatus_eq //. simpl.
  destruct (getSocketsByName n s); [done|]. by apply count_upd_le.
Qed.

Lemma updateUserStatus_outside_S n st now :
  (length (filter isOutside (users (updateUserStatus n st now s)))
   ≤ S (length (filter isOutside (users s))))%nat.
Proof.
  rw updateUserStatus_eq //. simpl.
  destruct (getSocketsByName n s); [lia|]. apply count_upd_S, Hwf.
Qed.
End ClearAndUpdate.

Lemma leaveClassTarget_Outside state user :
  leaveClassTarget state user = Outside →
  Z.of_nat (length (outside state)) < MAX_OUTSIDE.
Proof.
  unfold leaveClassTarget.
  set (p := λ u : Entry, String.eqb _ _).
  assert (-1 ≤ findIndex p (queue state)) as Hidx.
  { induction (queue state) as [|x l IH]; simpl; [lia|].
    destruct (p x); [lia|]. destruct (findIndex p l <? 0) eqn:?; lia. }
  destruct (_ >? 0) eqn:Hq.
  - destruct (existsb p (queue state)); simpl.
    + destruct (_ >? -1) eqn:H1; simpl; [|done].
      destruct (_ <? _) eqn:H2; [|done]. lia.
    + destruct (_ <? _) eqn:H2; [|done]. lia.
  - destruct (_ <? MAX_OUTSIDE) eqn:H2; [|done]. lia.
Qed.

(** ** Every handler keeps the invariant *)

Lemma emitTo_Wf l m s : Wf s → Wf (emitTo l m s).
Proof. by rw emitTo_eq. Qed.

Lemma emitTo_Fresh l m s : Fresh s → Fresh (emitTo l m s).
Proof. rw emitTo_eq. intros [? ?]. by split. Qed.

Lemma emitTo_getState l m s : getState (emitTo l m s) = getState s.
Proof. by rw emitTo_eq. Qed.

Lemma on_leave_class_Inv socket now s : Inv s → Inv (on_leave_class socket now s).
Proof.
  intros [Hwf Hf Ho Ha]. unfold on_leave_class.
  destruct (JsMap.get socket (users s)) as [user|] eqn:Hg; [|by split].
  set (s1 := clearUserNotificationTimeout (name user) s).
  set (tg := leaveClassTarget _ _).
  assert (Wf s1) as Hwf1 by by apply clear_Wf.
  assert (Wf (updateUserStatus (name user) tg now s1)) as Hwf2 by by apply updateUserStatus_Wf.
  apply finish_Inv; [done | by apply updateUserStatus_Fresh, clear_Fresh |].
  rw outside_length_wf //.
  assert (length (filter isOutside (users s1)) = length (outside (getState s))) as Heq.
  { rw -(outside_length_wf s1) //. unfold s1. by rw clear_getState. }
  destruct (decide (tg = Outside)) as [Htg|Htg].
  - apply leaveClassTarget_Outside in Htg.
    pose proof (updateUserStatus_outside_S s1 Hwf1 (name user) tg now). lia.
  - pose proof (updateUserStatus_outside_le s1 Hwf1 (name user) tg now Htg). lia.
Qed.

Lemma to_idle_Inv n now s :
  Wf s → Fresh s → Z.of_nat (length (outside (getState s))) ≤ MAX_OUTSIDE →
  ∀ s2, users s2 = users (updateUserStatus n Idle now s) →
        nameToSockets s2 = nameToSockets s → timers s2 = timers s →
        nextTimer s2 = nextTimer s →
        Inv (notifyNextInQueue (broadcastState s2)).
Proof.
  intros Hwf Hf Ho s2 Hu Hr Ht Hn.
  pose proof (updateUserStatus_Wf s Hwf n Idle now) as Hwf1.
  pose proof (updateUserStatus_Fresh s Hwf n Idle now Hf) as Hf1.
  assert (nameToSockets (updateUserStatus n Idle now s) = nameToSockets s
          ∧ timers (updateUserStatus n Idle now s) = timers s
          ∧ nextTimer (updateUserStatus n Idle now s) = nextTimer s) as (Er & Et & En).
  { by rw updateUserStatus_eq. }
  assert (Wf s2) as Hwf2.
  { unfold Wf. rw Hu Hr -Er. exact Hwf1. }
  apply finish_Inv; [done| |].
  - destruct Hf1 as [F1 F2]. split.
    + intros t. rw Ht Hn -Et -En. apply F1.
    + intros sid u h. rw Hu Hn -En. apply F2.
  - rw outside_length_wf // Hu.
    pose proof (updateUserStatus_outside_le s Hwf n Idle now ltac:(done)).
    rw outside_length_wf // in Ho. lia.
Qed.

Lemma updateUserStatus_frame n st now s :
  Wf s →
  nameToSockets (updateUserStatus n st now s) = nameToSockets s
  ∧ timers (updateUserStatus n st now s) = timers s
  ∧ nextTimer (updateUserStatus n st now s) = nextTimer s
  ∧ emitted (updateUserStatus n st now s) = emitted s.
Proof. intros Hwf. by rw updateUserStatus_eq. Qed.

Lemma on_come_back_Inv socket now s : Inv s → Inv (on_come_back socket now s).
Proof.
  intros HI. pose proof HI as [Hwf Hf Ho Ha]. unfold on_come_back.
  destruct (JsMap.get socket (users s)) as [user|] eqn:Hg; [|done].
  case_decide; [|done].
  destruct (updateUserStatus_frame (name user) Idle now s Hwf) as (? & ? & ? & ?).
  by apply (to_idle_Inv (name user) now s).
Qed.

Lemma on_leave_queue_Inv socket now s : Inv s → Inv (on_leave_queue socket now s).
Proof.
  intros HI. pose proof HI as [Hwf Hf Ho Ha]. unfold on_leave_queue.
  destruct (JsMap.get socket (users s)) as [user|] eqn:Hg; [|done].
  case_decide; [|done].
  pose proof (clear_Wf s Hwf (name user)) as Hwf1.
  destruct (updateUserStatus_frame (name user) Idle now _ Hwf1) as (? & ? & ? & ?).
  apply (to_idle_Inv (name user) now (clearUserNotificationTimeout (name user) s));
    try done.
  - by apply clear_Fresh.
  - by rw clear_getState.
Qed.

Lemma on_request_state_Inv socket s : Inv s → Inv (on_request_state socket s).
Proof.
  intros HI. unfold on_request_state.
  destruct (JsMap.get socket (users s)); by repeat apply Inv_emit.
Qed.

Lemma clearTimeout_Inv h s : Inv s → Inv (clearTimeout h s).
Proof.
  intros [Hwf Hf Ho Ha]. split; [exact Hwf| |exact Ho|].
  - revert Hf. apply Fresh_mono; simpl; [done| |by eauto].
    intros t. apply (dropTimer_subset (Some h)).
  - change (availableSlots (clearTimeout h s)) with (availableSlots s).
    etrans; [|exact Ha]. apply inj_le. unfold armedQueued. simpl.
    apply count_mono. intros [k u] _ [Hq Harm]. split; [done|].
    simpl in *. unfold holdsArmed in *. destruct (notificationTimeout u) as [h'|]; [|done].
    apply armed_elem_of in Harm as (t & Hin & Heq). apply armed_elem_of.
    exists t. split; [|done]. by apply (dropTimer_subset (Some h)).
Qed.

Lemma timeoutCallback_Inv n now s : Inv s → Inv (timeoutCallback n now s).
Proof.
  intros HI. pose proof HI as [Hwf Hf Ho Ha]. unfold timeoutCallback.
  destruct (getUserByName n s) as [[sid u]|]; [|done].
  case_decide; [|done].
  destruct (updateUserStatus_frame n Idle now s Hwf) as (? & ? & ? & ?).
  apply (to_idle_Inv n now s); try done; by rw emitTo_eq.
Qed.

Lemma on_timer_Inv h now s : Inv s → Inv (on_timer h now s).
Proof.
  intros HI. unfold on_timer. destruct (find _ _); [|done].
  by apply timeoutCallback_Inv, clearTimeout_Inv.
Qed.

(** [disconnect] of a logged-in socket: under the invariant its name maps
    to this socket alone, so the branch of the last socket is taken.  The
    call of [clearUserNotificationTimeout] comes after
    [nameToSockets.delete(nameLower)], finds no user and does nothing. *)
Lemma on_disconnect_eq socket user s :
  Wf s → JsMap.get socket (users s) = Some user →
  on_disconnect socket s =
  notifyNextInQueue
    (broadcastState
       (mkServer (JsMap.delete socket (users s))
                 (base.delete (lname user) (nameToSockets s))
                 (timers s) (nextTimer s) (emitted s))).
Proof.
  intros Hwf Hg. unfold on_disconnect. rw Hg.
  pose proof (wf_owner _ _ Hwf socket user (get_elem_of _ _ _ Hg)) as Hreg.
  fold (lname user). rw Hreg.
  assert (JsSet.delete socket [socket] = []) as ->.
  { unfold JsSet.delete. simpl. by rw String.eqb_refl. }
  simpl. rw delete_insert_eq.
  rw clear_None; [|done].
  unfold getUserByName. simpl. fold (lname user). by rw lookup_delete_eq.
Qed.

Lemma WfUR_delete socket user us (reg : gmap string (list string)) :
  WfUR us reg → JsMap.get socket us = Some user →
  WfUR (JsMap.delete socket us) (base.delete (lname user) reg).
Proof.
  intros Hwf Hg. pose proof Hwf as [Hk Ho Hs]. split.
  - eapply sublist_NoDup; [exact Hk|]. apply fmap_sublist, delete_sublist.
  - intros k u [Hin Hne]%elem_of_delete. simpl in Hne.
    rw lookup_delete_ne; [|by apply Ho].
    intros Heq. apply get_elem_of in Hg.
    destruct (owner_unique _ _ _ _ _ _ Hwf Hg Hin Heq). congruence.
  - intros k l [_ Hl]%lookup_delete_Some. by apply Hs in Hl.
Qed.

Lemma on_disconnect_Inv socket s : Inv s → Inv (on_disconnect socket s).
Proof.
  intros HI. pose proof HI as [Hwf Hf Ho Ha].
  destruct (JsMap.get socket (users s)) as [user|] eqn:Hg.
  2:{ unfold on_disconnect. by rw Hg. }
  rw (on_disconnect_eq socket user) //.
  pose proof (WfUR_delete _ _ _ _ Hwf Hg) as Hwf'.
  apply finish_Inv; [exact Hwf'| |].
  - revert Hf. apply Fresh_mono; simpl; [done|done|].
    intros k u h [Hin _]%elem_of_delete ?. by exists k, u.
  - rw outside_length_wf; [exact Hwf'|]. simpl.
    rw outside_length_wf // in Ho.
    pose proof (count_delete_le isOutside socket (users s)). lia.
Qed.

(** [login] stores a fresh idle record. *)
Lemma login_set_Inv socket fresh reg' em s :
  Inv s → WfUR (JsMap.set socket fresh (users s)) reg' →
  status fresh = Idle → notificationTimeout fresh = None →
  Inv (mkServer (JsMap.set socket fresh (users s)) reg' (timers s) (nextTimer s) em).
Proof.
  intros [Hwf Hf Ho Ha] Hwf' Hst Hnt.
  assert (length (outside (getState
            (mkServer (JsMap.set socket fresh (users s)) reg' (timers s) (nextTimer s) em)))
          ≤ length (outside (getState s)))%nat as Hle.
  { rw outside_length_wf; [exact Hwf'|]. rw (outside_length_wf s) //. simpl.
    apply count_set_le. unfold isOutside. simpl. by rw Hst. }
  split; [exact Hwf'| |lia|].
  - revert Hf. apply Fresh_mono; simpl; [done|done|].
    intros k u h [Heq|[Hin _]]%elem_of_set; [|intros ?; by exists k, u|by apply Hwf].
    injection Heq as -> ->. by rw Hnt.
  - unfold availableSlots in *.
    assert (length (armedQueued
              (mkServer (JsMap.set socket fresh (users s)) reg' (timers s) (nextTimer s) em))
            ≤ length (armedQueued s))%nat; [|lia].
    unfold armedQueued. simpl.
    apply (count_set_le (λ r, status r.2 = Queue ∧ holdsArmed s r.2 = true)).
    simpl. rw Hst. by intros [? _].
Qed.

Lemma on_login_Inv socket v now s : Inv s → Inv (on_login socket v now s).
Proof.
  intros HI. pose proof HI as [Hwf Hf Ho Ha]. unfold on_login.
  destruct (sanitizeName v) as [sanitized|]; [|by apply Inv_emit].
  set (fresh := mkUser sanitized Idle now None).
  destruct (nameToSockets s !! toLowerCase sanitized) as [sockets|] eqn:Hreg.
  - destruct (wf_single _ _ Hwf _ _ Hreg) as [x ->].
    destruct (JsSet.has socket [x]) eqn:Hhas.
    + apply Inv_broadcastState, Inv_emit.
      apply JsSet_has_elem_of, list_elem_of_singleton in Hhas as <-.
      unfold JsMap.has. destruct (JsMap.get socket (users s)) eqn:Hg; [done|].
      apply (login_set_Inv socket fresh); try done.
      pose proof Hwf as [Hk Hown Hs]. split; [by apply NoDup_keys_set| |done].
      intros k u [Heq|[Hin _]]%elem_of_set; [|by apply Hown|done].
      by injection Heq as -> ->.
    + by apply Inv_emit.
  - apply Inv_broadcastState, Inv_emit. unfold setUsers, setNameToSockets. simpl.
    apply (login_set_Inv socket fresh); try done.
    pose proof Hwf as [Hk Hown Hs]. split; [by apply NoDup_keys_set| |].
    + intros k u [Heq|[Hin _]]%elem_of_set; [| |done].
      * injection Heq as -> ->. by rw lookup_insert_eq.
      * rw lookup_insert_ne; [|by apply Hown].
        intros Heq. apply Hown in Hin. rw -Heq in Hin. congruence.
    + intros k l [[_ <-]|[_ Hl]]%lookup_insert_Some; [by exists socket | by eapply Hs].
Qed.

Lemma handle_Inv s e : Inv s → Inv (handle s e).
Proof.
  destruct e; simpl.
  - apply on_login_Inv.
  - apply on_leave_class_Inv.
  - apply on_come_back_Inv.
  - apply on_leave_queue_Inv.
  - apply on_request_state_Inv.
  - apply on_disconnect_Inv.
  - apply on_timer_Inv.
Qed.

Lemma initial_Inv : Inv initial.
Proof.
  split.
  - split; [constructor | by intros ? ? ?%elem_of_nil | by intros ? ? ?].
  - split; [by intros ? ?%elem_of_nil | by intros ? ? ? ?%elem_of_nil].
  - by vm_compute.
  - by vm_compute.
Qed.

Lemma reachable_Inv s : reachable s → Inv s.
Proof. induction 1; [apply initial_Inv | by apply handle_Inv]. Qed.

Lemma reachable_run evs s : reachable s → reachable (run evs s).
Proof.
  revert s. induction evs as [|e evs IH]; intros s Hs; [done|].
  simpl. apply IH. by constructor.
Qed.

(** ** The capacity of [outside] *)

(** C1.  For every sequence of [login], [leave_class], [come_back],
    [leave_queue], [request_state], [disconnect] and claim-timer events,
    run from the empty server, the projected [outside] list holds at most
    [MAX_OUTSIDE = 4] identities; hence no transition raises it above 4. *)
Theorem outside_never_exceeds_MAX_OUTSIDE (evs : list Event) :
  Z.of_nat (length (outside (getState (run evs initial)))) ≤ MAX_OUTSIDE
  ∧ MAX_OUTSIDE = 4.
Proof.
  split; [|done].
  apply reachable_Inv, reachable_run, reachable_initial.
Qed.

(** ** [leave_class] *)

Lemma findIndex_posOf x (Q : list Entry) :
  findIndex (λ e, String.eqb (toLowerCase (entryName e)) x) Q =
  match posOf x (lnameE <$> Q) with Some i => Z.of_nat i | None => -1 end.
Proof.
  induction Q as [|e Q IH]; csimpl; [done|].
  fold (lnameE e). destruct (String.eqb_spec (lnameE e) x) as [Heq|Hne].
  - by rw decide_True.
  - rw decide_False; [congruence|]. rw IH.
    destruct (posOf x (lnameE <$> Q)) as [i|]; simpl; [|done].
    destruct (Z.of_nat i <? 0) eqn:?; lia.
Qed.

Lemma existsb_posOf x (Q : list Entry) :
  existsb (λ e, String.eqb (toLowerCase (entryName e)) x) Q =
  match posOf x (lnameE <$> Q) with Some _ => true | None => false end.
Proof.
  induction Q as [|e Q IH]; csimpl; [done|].
  fold (lnameE e). destruct (String.eqb_spec (lnameE e) x) as [Heq|Hne]; simpl.
  - by rw decide_True.
  - rw decide_False; [congruence|]. rw IH. by destruct (posOf x (lnameE <$> Q)).
Qed.

(** The code's rule is the specification's rule. *)
Lemma leaveClassTarget_spec state user :
  leaveClassTarget state user =
  specAdmission (Z.of_nat (length (outside state))) (queue state)
                (posOf (lname user) (lnameE <$> queue state)).
Proof.
  unfold leaveClassTarget, specAdmission. fold (lname user).
  rw findIndex_posOf existsb_posOf.
  destruct (queue state) as [|e Q] eqn:HQ.
  - simpl. destruct (_ <? _) eqn:?; case_decide; try done; lia.
  - rw -HQ. assert ((Z.of_nat (length (queue state)) >? 0) = true) as ->.
    { rw HQ. simpl length. apply Z.gtb_lt. lia. }
    destruct (posOf (lname user) (lnameE <$> queue state)) as [i|]; simpl.
    + assert ((Z.of_nat i >? -1) = true) as -> by (apply Z.gtb_lt; lia). simpl.
      destruct (_ <? _) eqn:?; case_decide; try done; lia.
    + destruct (_ <? _) eqn:?; case_decide; try done; lia.
Qed.

Lemma finish_get s sid :
  Wf s →
  JsMap.get sid (users (notifyNextInQueue (broadcastState s))) =
  (λ u, withTimeout (passHandle (broadcastState s) u) u) <$> JsMap.get sid (users s).
Proof.
  intros Hwf. destruct (notifyNextInQueue_spec (broadcastState s) Hwf) as (Hu & _).
  rw Hu. apply get_mapH.
Qed.

Lemma pass_not_armed s h :
  Wf s → (h < nextTimer s)%nat → armed h s = false →
  armed h (notifyNextInQueue s) = false.
Proof.
  intros Hwf Hlt Hna.
  destruct (notifyNextInQueue_spec s Hwf) as (_ & _ & _ & _ & ts & Ht & Hts & _).
  apply not_true_is_false. intros (t & Hin & Heq)%armed_elem_of.
  rw Ht in Hin. apply elem_of_app in Hin as [Hin|Hin].
  - apply not_true_iff_false in Hna. apply Hna, armed_elem_of.
    exists t. split; [by apply Hts | done].
  - apply elem_of_newTimers in Hin as (i & e & _ & ->). simpl in Heq. lia.
Qed.

Lemma clear_user s sid u :
  Wf s → JsMap.get sid (users s) = Some u →
  clearUserNotificationTimeout (name u) s =
  mkServer (upd sid (withTimeout None) (users s)) (nameToSockets s)
           (dropTimer (notificationTimeout u) (timers s)) (nextTimer s) (emitted s).
Proof.
  intros Hwf Hg. apply clear_eq; [apply Hwf|].
  apply getUserByName_wf; [done|]. by apply get_elem_of.
Qed.

Lemma updateUserStatus_user s sid u st now :
  Wf s → JsMap.get sid (users s) = Some u →
  updateUserStatus (name u) st now s =
  setUsers (upd sid (withStatus st now) (users s)) s.
Proof.
  intros Hwf Hg. rw updateUserStatus_eq //.
  rw (getSocketsByName_wf s sid u) //. by apply get_elem_of.
Qed.

Lemma armed_dropTimer h s ts :
  timers s = dropTimer (Some h) ts → armed h s = false.
Proof.
  intros Ht. apply not_true_is_false. intros (t & Hin & Heq)%armed_elem_of.
  rw Ht in Hin. by apply dropTimer_not_in in Hin.
Qed.

(** ** The order of broadcast and pass *)

Lemma handle_beforeBroadcast s e s2 :
  beforeBroadcast s e = Some s2 →
  handle s e = notifyNextInQueue (broadcastState s2).
Proof.
  destruct e as [socket v now|socket now|socket now|socket now|socket|socket|h now];
    simpl; try done.
  - unfold on_leave_class. destruct (JsMap.get socket (users s)); [|done].
    by intros [= <-].
  - unfold on_come_back. destruct (JsMap.get socket (users s)); [|done].
    case_decide; [|done]. by intros [= <-].
  - unfold on_leave_queue. destruct (JsMap.get socket (users s)); [|done].
    case_decide; [|done]. by intros [= <-].
  - unfold on_disconnect. destruct (JsMap.get socket (users s)); [|done].
    destruct (nameToSockets s !! _); [|done]. simpl.
    destruct (_ =? 0); [|done]. by intros [= <-].
  - unfold on_timer. destruct (find _ _) as [t|]; [|done]. unfold timeoutCallback.
    destruct (getUserByName _ _) as [[? cu]|]; [|done].
    case_decide; [|done]. by intros [= <-].
Qed.

(** A handler that does not reach the pair of calls emits no [your_turn]. *)
Lemma no_pass_no_turn s e x :
  beforeBroadcast s e = None → x ∈ emittedBy s e → ¬ isYourTurn x.
Proof.
  unfold emittedBy.
  destruct e as [socket v now|socket now|socket now|socket now|socket|socket|h now];
    simpl.
  - intros _. unfold on_login.
    destruct (sanitizeName v) as [z|]; simpl.
    2:{ rw drop_app_length. intros ->%list_elem_of_singleton [? [=]]. }
    destruct (nameToSockets s !! toLowerCase z) as [l|]; simpl.
    + destruct (JsSet.has socket l).
      * destruct (JsMap.has socket (users s)); simpl;
          rw -app_assoc drop_app_length;
          intros [->|[->|[]%elem_of_nil]%elem_of_cons]%elem_of_cons [? [=]].
      * destruct (JsSet.size l >? 0); simpl.
        -- rw drop_app_length. intros ->%list_elem_of_singleton [? [=]].
        -- rw -app_assoc drop_app_length.
           intros [->|[->|[]%elem_of_nil]%elem_of_cons]%elem_of_cons [? [=]].
    + rw -app_assoc drop_app_length.
      intros [->|[->|[]%elem_of_nil]%elem_of_cons]%elem_of_cons [? [=]].
  - unfold on_leave_class. destruct (JsMap.get socket (users s)); [done|].
    rw drop_all. by intros _ ?%elem_of_nil.
  - unfold on_come_back. destruct (JsMap.get socket (users s)).
    + case_decide; [done|]. rw drop_all. by intros _ ?%elem_of_nil.
    + rw drop_all. by intros _ ?%elem_of_nil.
  - unfold on_leave_queue. destruct (JsMap.get socket (users s)).
    + case_decide; [done|]. rw drop_all. by intros _ ?%elem_of_nil.
    + rw drop_all. by intros _ ?%elem_of_nil.
  - intros _. unfold on_request_state. destruct (JsMap.get socket (users s)); simpl.
    + rw -app_assoc drop_app_length.
      intros [->|[->|[]%elem_of_nil]%elem_of_cons]%elem_of_cons [? [=]].
    + rw drop_app_length. intros ->%list_elem_of_singleton [? [=]].
  - unfold on_disconnect. destruct (JsMap.get socket (users s)).
    2:{ rw drop_all. by intros _ ?%elem_of_nil. }
    destruct (nameToSockets s !! _).
    2:{ rw drop_all. by intros _ ?%elem_of_nil. }
    simpl. destruct (_ =? 0); [done|]. simpl.
    rw drop_all. by intros _ ?%elem_of_nil.
  - unfold on_timer. destruct (find _ _) as [t|].
    2:{ rw drop_all. by intros _ ?%elem_of_nil. }
    unfold timeoutCallback. destruct (getUserByName _ _) as [[? cu]|].
    2:{ simpl. rw drop_all. by intros _ ?%elem_of_nil. }
    case_decide; [done|]. simpl. rw drop_all. by intros _ ?%elem_of_nil.
Qed.

Lemma clear_emitted s n :
  Wf s → emitted (clearUserNotificationTimeout n s) = emitted s.
Proof.
  intros Hwf. by destruct (clear_cases s Hwf n) as [->|(sid & u & _ & ->)].
Qed.

Lemma beforeBroadcast_disconnect socket user s :
  Wf s → JsMap.get socket (users s) = Some user →
  beforeBroadcast s (Disconnect socket) =
  Some (mkServer (JsMap.delete socket (users s))
                 (base.delete (lname user) (nameToSockets s))
                 (timers s) (nextTimer s) (emitted s)).
Proof.
  intros Hwf Hg. simpl. rw Hg.
  pose proof (wf_owner _ _ Hwf socket user (get_elem_of _ _ _ Hg)) as Hreg.
  fold (lname user). rw Hreg.
  assert (JsSet.delete socket [socket] = []) as ->.
  { unfold JsSet.delete. simpl. by rw String.eqb_refl. }
  simpl. rw delete_insert_eq.
  rw clear_None; [|done].
  unfold getUserByName. simpl. fold (lname user). by rw lookup_delete_eq.
Qed.

(** The state handed to the pair of calls is well formed, and what the
    handler emitted before holds no [your_turn]. *)
Lemma beforeBroadcast_ok s e s2 :
  Inv s → beforeBroadcast s e = Some s2 →
  Wf s2 ∧ Fresh s2
  ∧ ∃ pre, emitted s2 = emitted s ++ pre ∧ ∀ x, x ∈ pre → ¬ isYourTurn x.
Proof.
  intros HI. pose proof HI as [Hwf Hf _ _].
  destruct e as [socket v now|socket now|socket now|socket now|socket|socket|h now];
    simpl; try done.
  - destruct (JsMap.get socket (users s)) as [user|]; [|done]. intros [= <-].
    pose proof (clear_Wf s Hwf (name user)) as Hwf1. split_and!.
    + by apply updateUserStatus_Wf.
    + by apply updateUserStatus_Fresh, clear_Fresh.
    + exists []. split; [|by intros ? ?%elem_of_nil].
      destruct (updateUserStatus_frame (name user)
                  (leaveClassTarget (getState s) user) now _ Hwf1) as (_ & _ & _ & ->).
      by rw clear_emitted // app_nil_r.
  - destruct (JsMap.get socket (users s)) as [user|]; [|done].
    case_decide; [|done]. intros [= <-]. split_and!.
    + by apply updateUserStatus_Wf.
    + by apply updateUserStatus_Fresh.
    + exists []. split; [|by intros ? ?%elem_of_nil].
      destruct (updateUserStatus_frame (name user) Idle now _ Hwf) as (_ & _ & _ & ->).
      by rw app_nil_r.
  - destruct (JsMap.get socket (users s)) as [user|]; [|done].
    case_decide; [|done]. intros [= <-].
    pose proof (clear_Wf s Hwf (name user)) as Hwf1. split_and!.
    + by apply updateUserStatus_Wf.
    + by apply updateUserStatus_Fresh, clear_Fresh.
    + exists []. split; [|by intros ? ?%elem_of_nil].
      destruct (updateUserStatus_frame (name user) Idle now _ Hwf1) as (_ & _ & _ & ->).
      by rw clear_emitted // app_nil_r.
  - destruct (JsMap.get socket (users s)) as [user|] eqn:Hg; [|done].
    pose proof (beforeBroadcast_disconnect socket user s Hwf Hg) as Hb.
    simpl in Hb. rw Hg in Hb. rw Hb. intros [= <-]. split_and!.
    + by apply WfUR_delete.
    + revert Hf. apply Fresh_mono; simpl; [done|done|].
      intros k u h' [Hin _]%elem_of_delete ?. by exists k, u.
    + exists []. split; [by rw app_nil_r | by intros ? ?%elem_of_nil].
  - destruct (find _ _) as [t|]; [|done].
    pose proof (clearTimeout_Inv h s HI) as [Hwf0 Hf0 _ _].
    destruct (getUserByName _ _) as [[? cu]|]; [|done].
    case_decide; [|done]. intros [= <-].
    destruct (updateUserStatus_frame (timerName t) Idle now _ Hwf0) as (_ & _ & _ & He).
    split_and!.
    + by apply emitTo_Wf, updateUserStatus_Wf.
    + by apply emitTo_Fresh, updateUserStatus_Fresh.
    + eexists. split; [rw emitTo_eq; simpl; by rw He|].
      intros x (sid & -> & _)%list_elem_of_fmap [? [=]].
Qed.

Lemma emittedBy_pass s e s2 :
  Inv s → beforeBroadcast s e = Some s2 →
  ∃ pre, emittedBy s e =
         pre ++ ToAll (state_update (getState (handle s e)))
             :: turnsOf (handle s e) (notified (broadcastState s2))
         ∧ ∀ x, x ∈ pre → ¬ isYourTurn x.
Proof.
  intros HI Hb. destruct (beforeBroadcast_ok s e s2 HI Hb) as (Hwf2 & Hf2 & pre & He & Hpre).
  exists pre. split; [|done]. unfold emittedBy.
  rw (handle_beforeBroadcast s e s2 Hb).
  assert (Wf (broadcastState s2)) as Hwfb by exact Hwf2.
  destruct (notifyNextInQueue_spec _ Hwfb) as (_ & Hr & _ & -> & _).
  rw notifyNextInQueue_getState //.
  rw (turnsOf_reg (broadcastState s2) (notifyNextInQueue (broadcastState s2))) //.
  simpl. rw He. rw -!app_assoc drop_app_length. done.
Qed.

(** C9.  In every state the server reaches and for every event: a handler
    that changes the occupancy ([leave_class], [come_back], [leave_queue],
    [disconnect] of the last socket, claim-timer expiry of a queued user)
    runs the pass on the state it has just broadcast, so what it emits is
    first messages that are not [your_turn], then the [state_update] of the
    new state, then the [your_turn] signals of the pass; and whatever the
    event, every [your_turn] it emits comes after the [state_update] of the
    state the event leaves. *)
Theorem state_update_precedes_your_turn (evs : list Event) (e : Event) :
  let s := run evs initial in
  let s' := handle s e in
  (∀ s2, beforeBroadcast s e = Some s2 →
         s' = notifyNextInQueue (broadcastState s2)
         ∧ ∃ pre, emittedBy s e =
                  pre ++ ToAll (state_update (getState s'))
                      :: turnsOf s' (notified (broadcastState s2))
                  ∧ ∀ x, x ∈ pre → ¬ isYourTurn x)
  ∧ (∀ i sid, emittedBy s e !! i = Some (ToSocket sid your_turn) →
              ∃ j, (j < i)%nat
                   ∧ emittedBy s e !! j = Some (ToAll (state_update (getState s')))).
Proof.
  intros s s'.
  assert (Inv s) as HI by apply reachable_Inv, reachable_run, reachable_initial.
  split.
  - intros s2 Hb. split; [by apply handle_beforeBroadcast|]. by apply emittedBy_pass.
  - intros i sid Hi. destruct (beforeBroadcast s e) as [s2|] eqn:Hb.
    + destruct (emittedBy_pass s e s2 HI Hb) as (pre & He & Hpre).
      fold s' in He. rw He in Hi. rw He. exists (length pre). split.
      * destruct (decide (i < length pre)%nat) as [Hlt|Hge].
        { rw lookup_app_l // in Hi. exfalso.
          apply (Hpre (ToSocket sid your_turn)); [by eapply list_elem_of_lookup_2|].
          by exists sid. }
        destruct (decide (i = length pre)) as [->|]; [|lia].
        by rw list_lookup_middle in Hi.
      * by rw list_lookup_middle.
    + exfalso. apply (no_pass_no_turn s e (ToSocket sid your_turn) Hb).
      * by eapply list_elem_of_lookup_2.
      * by exists sid.
Qed.

(** ** FIFO order *)

Section SortFacts.
Context (P : Entry → Prop) `{∀ e, Decision (P e)}.

Lemma insertByJoinedAt_head x l :
  Forall (entryLe x) l → insertByJoinedAt x l = x :: l.
Proof.
  destruct l as [|y l]; [done|]. intros [Hxy _]%Forall_cons. simpl.
  unfold entryLe in Hxy. by rw (proj2 (Z.leb_le _ _) Hxy).
Qed.

Lemma insertByJoinedAt_sorted x l :
  StronglySorted entryLe l → StronglySorted entryLe (insertByJoinedAt x l).
Proof.
  induction 1 as [|y l Hs IH Hy]; simpl; [repeat constructor|].
  destruct (Z.leb_spec (entryJoinedAt x) (entryJoinedAt y)) as [Hle|Hgt].
  - constructor; [by constructor|]. constructor; [done|].
    eapply Forall_impl; [exact Hy|]. unfold entryLe. intros z ?. lia.
  - constructor; [done|]. rw insertByJoinedAt_perm. constructor; [|done].
    unfold entryLe. lia.
Qed.

Lemma sortByJoinedAt_sorted l : StronglySorted entryLe (sortByJoinedAt l).
Proof.
  induction l as [|x l IH]; simpl; [constructor|]. by apply insertByJoinedAt_sorted.
Qed.

Lemma filter_insertByJoinedAt x l :
  P x → StronglySorted entryLe l →
  filter P (insertByJoinedAt x l) = insertByJoinedAt x (filter P l).
Proof.
  intros HP. induction 1 as [|y l Hs IH Hy]; simpl.
  { by rw filter_cons decide_True. }
  destruct (Z.leb_spec (entryJoinedAt x) (entryJoinedAt y)) as [Hle|Hgt].
  - rw filter_cons decide_True //. rw insertByJoinedAt_head //.
    apply Forall_forall. intros z [_ Hz]%list_elem_of_filter.
    apply elem_of_cons in Hz as [->|Hz]; [done|].
    rw Forall_forall in Hy. specialize (Hy z Hz). unfold entryLe in *. lia.
  - rw !filter_cons. destruct (decide (P y)); [|done]. simpl.
    rw (proj2 (Z.leb_gt _ _) Hgt). by f_equal.
Qed.

Lemma filter_insertByJoinedAt_not x l :
  ¬ P x → filter P (insertByJoinedAt x l) = filter P l.
Proof.
  intros HP. induction l as [|y l IH]; simpl.
  { by rw filter_cons decide_False. }
  destruct (entryJoinedAt x <=? entryJoinedAt y).
  - by rw filter_cons decide_False.
  - rw !filter_cons IH. done.
Qed.

(** A stable sort commutes with a filter. *)
Lemma filter_sortByJoinedAt l :
  filter P (sortByJoinedAt l) = sortByJoinedAt (filter P l).
Proof.
  induction l as [|x l IH]; simpl; [done|].
  rw filter_cons. destruct (decide (P x)) as [HP|HP]; simpl.
  - rw filter_insertByJoinedAt //; [apply sortByJoinedAt_sorted|]. by rw IH.
  - by rw filter_insertByJoinedAt_not.
Qed.
End SortFacts.

(** The projected lists are in FIFO order. *)
Lemma getState_sorted s :
  StronglySorted entryLe (outside (getState s))
  ∧ StronglySorted entryLe (queue (getState s)).
Proof.
  unfold getState. destruct (collect (users s) []) as [o q]. simpl.
  split; apply sortByJoinedAt_sorted.
Qed.

Lemma entries_after_idle sid u now (us : list (string * User)) :
  (∀ r, r ∈ us → r.1 = sid ↔ lname r.2 = lname u) →
  (entryOf ∘ snd) <$> filter isQueued (upd sid (withStatus Idle now) us) =
  filter (λ e, lnameE e ≠ lname u) ((entryOf ∘ snd) <$> filter isQueued us).
Proof.
  induction us as [|[k v] us IH]; intros Hk; [done|].
  assert ((entryOf ∘ snd) <$> filter isQueued (upd sid (withStatus Idle now) us) =
          filter (λ e, lnameE e ≠ lname u) ((entryOf ∘ snd) <$> filter isQueued us)) as IH'.
  { apply IH. intros r Hr. apply Hk. by right. }
  specialize (Hk (k, v) ltac:(left)). simpl in Hk.
  assert (lnameE (entryOf v) = lname v) as Hlv by done.
  csimpl. destruct (decide (k = sid)) as [Heq|Hne]; simpl.
  - rw (filter_cons_False isQueued (k, withStatus Idle now v)); [by unfold isQueued|].
    rw IH'. destruct (decide (status v = Queue)) as [Hq|Hq].
    + rw (filter_cons_True isQueued (k, v)) //. csimpl.
      rw filter_cons_False //. rw Hlv. intros Hn. apply Hn. by apply Hk.
    + by rw (filter_cons_False isQueued (k, v)).
  - destruct (decide (status v = Queue)) as [Hq|Hq].
    + rw !(filter_cons_True isQueued (k, v)) //. csimpl.
      rw filter_cons_True; [|by f_equal].
      rw Hlv. intros Hl. apply Hne. by apply Hk.
    + by rw !(filter_cons_False isQueued (k, v)).
Qed.

Lemma outside_after_idle sid now (us : list (string * User)) :
  (∀ r, r ∈ us → r.1 = sid → status r.2 ≠ Outside) →
  filter isOutside (upd sid (withStatus Idle now) us) = filter isOutside us.
Proof.
  induction us as [|[k v] us IH]; intros Hk; [done|].
  assert (filter isOutside (upd sid (withStatus Idle now) us) = filter isOutside us) as IH'.
  { apply IH. intros r Hr. apply Hk. by right. }
  specialize (Hk (k, v) ltac:(left)). simpl in Hk.
  csimpl. destruct (decide (k = sid)) as [Heq|Hne]; simpl.
  - rw (filter_cons_False isOutside (k, withStatus Idle now v)); [by unfold isOutside|].
    rw (filter_cons_False isOutside (k, v)); [by apply Hk | done].
  - rw !filter_cons IH'. done.
Qed.

(** ** The admission rule of [leave_class] *)

(** X18.  [leave_class] from a logged-in socket, in any state the server
    can reach: with [O] the outside count and [Q] the projected queue, the
    sender's new status is given by the specification's admission rule
    (empty queue: outside exactly when [O < MAX_OUTSIDE]; non-empty queue:
    a queued sender at FIFO index below [MAX_OUTSIDE - O] goes outside, a
    non-queued sender goes outside exactly when [|Q| < MAX_OUTSIDE - O],
    every other sender is queued); its [joinedAt] is the current time; and
    the timer whose handle its record held is no longer armed.  The sender
    has a FIFO index exactly when its status is [queue]; the index is the
    position of its own entry in [Q], and [Q] is in ascending order of
    [joinedAt]. *)
Theorem leave_class_admission (evs : list Event) (socket : SocketId) (now : Z) (u : User) :
  let s := run evs initial in
  JsMap.get socket (users s) = Some u →
  let s' := on_leave_class socket now s in
  (∃ u', JsMap.get socket (users s') = Some u'
         ∧ name u' = name u
         ∧ status u' = specAdmission (Z.of_nat (length (outside (getState s))))
                                     (queue (getState s)) (queueIndexOf s u)
         ∧ joinedAt u' = now)
  ∧ (is_Some (queueIndexOf s u) ↔ status u = Queue)
  ∧ (∀ h, notificationTimeout u = Some h → armed h s' = false)
  ∧ (∀ i, queueIndexOf s u = Some i → queue (getState s) !! i = Some (entryOf u))
  ∧ StronglySorted entryLe (queue (getState s)).
Proof.
  intros s Hg s'.
  assert (Inv s) as [Hwf Hf _ _] by apply reachable_Inv, reachable_run, reachable_initial.
  unfold s', on_leave_class. rw Hg.
  pose proof (clear_user s socket u Hwf Hg) as Hc.
  set (s1 := clearUserNotificationTimeout (name u) s) in *.
  assert (Wf s1) as Hwf1 by by apply clear_Wf.
  assert (JsMap.get socket (users s1) = Some (withTimeout None u)) as Hg1.
  { rw Hc. simpl. rw get_upd decide_True // Hg. done. }
  set (tg := leaveClassTarget (getState s) u).
  pose proof (updateUserStatus_user s1 socket (withTimeout None u) tg now Hwf1 Hg1) as Hu.
  change (name (withTimeout None u)) with (name u) in Hu.
  set (s2 := updateUserStatus (name u) tg now s1) in *.
  assert (Wf s2) as Hwf2 by by apply updateUserStatus_Wf.
  split_and!.
  - rw finish_get // Hu. simpl. rw get_upd decide_True // Hg1. simpl.
    eexists. split; [done|]. simpl. split_and!; try done.
    unfold tg. by rw leaveClassTarget_spec.
  - unfold queueIndexOf. rw -not_eq_None_Some posOf_None.
    rw -(queued_iff_in_queue s socket u Hwf (get_elem_of _ _ _ Hg)).
    split; [apply dec_stable | tauto].
  - intros h Hh. apply pass_not_armed; [exact Hwf2| |].
    + rw Hu Hc. simpl.
      apply (fresh_handles _ Hf socket u); [by apply get_elem_of | done].
    + apply (armed_dropTimer h _ (timers s)). rw Hu Hc. simpl. by rw Hh.
  - intros i Hi. unfold queueIndexOf in Hi. apply posOf_Some in Hi.
    apply list_lookup_fmap_Some in Hi as (q & Hl & Hq). rw Hq. f_equal.
    pose proof (list_elem_of_lookup_2 _ _ _ Hq) as Hin.
    apply elem_of_queue_wf in Hin as (sid' & u' & Hin' & _ & ->); [|done].
    by destruct (owner_unique _ _ _ _ _ _ Hwf Hin' (get_elem_of _ _ _ Hg) (eq_sym Hl))
      as [_ ->].
  - by destruct (getState_sorted s).
Qed.

(** ** The turn notifier *)

Lemma notified_lookup s i e :
  (i < toNotify s)%nat → queue (getState s) !! i = Some e → notified s !! i = Some e.
Proof. intros Hi Hq. unfold notified. by rw lookup_take_lt. Qed.

Lemma passHandle_queued s sid u i :
  Wf s → (sid, u) ∈ users s → queue (getState s) !! i = Some (entryOf u) →
  passHandle s u = if decide (i < toNotify s)%nat then Some (nextTimer s + i)%nat else None.
Proof.
  intros Hwf Hin Hq. unfold passHandle.
  pose proof (queue_lnames_NoDup s Hwf) as Hnd.
  assert ((lnameE <$> queue (getState s)) !! i = Some (lname u)) as Hqi.
  { by rw list_lookup_fmap Hq. }
  destruct (decide (i < toNotify s)%nat) as [Hi|Hi].
  - rw (posOf_lookup (lname u) _ i) //.
    + unfold notified. rw fmap_take. eapply sublist_NoDup; [exact Hnd|apply sublist_take].
    + by rw list_lookup_fmap (notified_lookup s i (entryOf u)).
  - destruct (posOf _ _) as [j|] eqn:Hp.
    + exfalso. apply posOf_Some in Hp. pose proof (lookup_lt_Some _ _ _ Hp) as Hj.
      rw length_fmap notified_length in Hj.
      unfold notified in Hp. rw fmap_take lookup_take_lt // in Hp.
      pose proof (NoDup_lookup _ _ _ _ Hnd Hp Hqi). lia.
    + rw decide_True //. by eapply list_elem_of_lookup_2.
Qed.

(** What one pass does, from a well-formed state. *)
Lemma pass_post s :
  Wf s → Fresh s →
  let s' := notifyNextInQueue s in
  let Q := queue (getState s) in
  let k := toNotify s in
  (∀ sid u h, (sid, u) ∈ users s → status u = Queue →
              notificationTimeout u = Some h → armed h s' = false)
  ∧ (∀ i e, Q !! i = Some e →
       ∃ sid u', getUserByName (entryName e) s' = Some (sid, u')
                 ∧ status u' = Queue ∧ entryOf u' = e
                 ∧ getSocketsByName (entryName e) s = [sid]
                 ∧ if decide (i < k)%nat
                   then notificationTimeout u' = Some (nextTimer s + i)%nat
                        ∧ armed (nextTimer s + i) s = false
                        ∧ mkTimer (nextTimer s + i) (entryName e) NOTIFICATION_TIMEOUT
                            ∈ timers s'
                        ∧ holdsArmed s' u' = true
                   else notificationTimeout u' = None)
  ∧ emitted s' = emitted s ++ turnsOf s (take k Q)
  ∧ getState s' = getState s
  ∧ Z.of_nat (length (armedQueued s')) ≤ availableSlots s'.
Proof.
  intros Hwf Hf. cbv zeta.
  pose proof (notifyNextInQueue_Wf s Hwf) as Hwf'.
  destruct (notifyNextInQueue_spec s Hwf) as (Hu & Hr & Hn & He & ts & Ht & Hts & Hq).
  split_and!.
  - intros sid u h Hin Hst Hh. apply not_true_is_false.
    intros (t & Hint & Heq)%armed_elem_of. rw Ht in Hint.
    apply elem_of_app in Hint as [Hint|Hint].
    + apply (Hq t sid u Hint Hin Hst). by rw Heq.
    + apply elem_of_newTimers in Hint as (i & e & _ & ->). simpl in Heq.
      pose proof (fresh_handles _ Hf sid u h Hin Hh). lia.
  - intros i e Hi.
    destruct (proj1 (elem_of_queue_wf s e Hwf)) as (sid & u & Hin & Hst & ->);
      [by eapply list_elem_of_lookup_2|].
    assert ((sid, withTimeout (passHandle s u) u) ∈ users (notifyNextInQueue s)) as Hin'.
    { rw Hu. apply elem_of_mapH. by exists u. }
    rw (passHandle_queued s sid u i Hwf Hin Hi) in Hin'.
    destruct (decide (i < toNotify s)%nat) as [Hlt|Hge].
    + exists sid, (withTimeout (Some (nextTimer s + i)%nat) u).
      assert (mkTimer (nextTimer s + i) (name u) NOTIFICATION_TIMEOUT
                ∈ timers (notifyNextInQueue s)) as Hint.
      { rw Ht. apply elem_of_app. right. apply elem_of_newTimers.
        exists i, (entryOf u). split; [by apply notified_lookup | done]. }
      split_and!; try done.
      * by apply (getUserByName_wf _ sid (withTimeout (Some (nextTimer s + i)%nat) u)).
      * by apply (getSocketsByName_wf s sid u).
      * apply not_true_is_false. intros (t & Hint0 & Heq)%armed_elem_of.
        pose proof (fresh_timers _ Hf t Hint0). lia.
      * unfold holdsArmed. simpl. apply armed_elem_of. by eexists.
    + exists sid, (withTimeout None u). split_and!; try done.
      * by apply (getUserByName_wf _ sid (withTimeout None u)).
      * by apply (getSocketsByName_wf s sid u).
  - done.
  - by apply notifyNextInQueue_getState.
  - rw notifyNextInQueue_avail //.
    pose proof (notifyNextInQueue_armedQueued s Hwf).
    pose proof (toNotify_avail s). lia.
Qed.

(** X19.  At no time do more queued users hold an armed claim timer than
    there are free slots, [avail = max(0, MAX_OUTSIDE - outside.length)];
    and every pass of the turn notifier, run by a handler on the state [s1]
    it has just broadcast, ends in a state where: every claim timer a
    queued user held before is cancelled; the first [min(avail, |queue|)]
    entries of the projected queue, in FIFO order, each hold a fresh handle
    of a timer armed for [NOTIFICATION_TIMEOUT] (2 minutes) under their
    name, and the later entries hold none; [your_turn] went, in that order,
    to every socket registered for each of these first entries, of which
    there is exactly one; the projection itself is unchanged, and its queue
    is in FIFO order (ascending [joinedAt]).  Throughout, a user holds a
    timer when the handle in its [notificationTimeout] field is armed; a
    timer whose handle no record stores is not counted. *)
Theorem turn_notifier_pass (evs : list Event) (e : Event) :
  let s := run evs initial in
  Z.of_nat (length (armedQueued s)) ≤ availableSlots s
  ∧ NOTIFICATION_TIMEOUT = 120000
  ∧ ∀ s2, beforeBroadcast s e = Some s2 →
      let s1 := broadcastState s2 in
      let s' := handle s e in
      let Q := queue (getState s1) in
      let k := toNotify s1 in
      s' = notifyNextInQueue s1
      ∧ Z.of_nat k = Z.min (availableSlots s1) (Z.of_nat (length Q))
      ∧ (∀ sid u h, (sid, u) ∈ users s1 → status u = Queue →
                    notificationTimeout u = Some h → armed h s' = false)
      ∧ (∀ i q, Q !! i = Some q →
           ∃ sid u', getUserByName (entryName q) s' = Some (sid, u')
                     ∧ status u' = Queue ∧ entryOf u' = q
                     ∧ getSocketsByName (entryName q) s1 = [sid]
                     ∧ if decide (i < k)%nat
                       then notificationTimeout u' = Some (nextTimer s1 + i)%nat
                            ∧ armed (nextTimer s1 + i) s1 = false
                            ∧ mkTimer (nextTimer s1 + i) (entryName q) NOTIFICATION_TIMEOUT
                                ∈ timers s'
                            ∧ holdsArmed s' u' = true
                       else notificationTimeout u' = None)
      ∧ emitted s' = emitted s1 ++ turnsOf s1 (take k Q)
      ∧ getState s' = getState s1
      ∧ StronglySorted entryLe Q
      ∧ Z.of_nat (length (armedQueued s')) ≤ availableSlots s'.
Proof.
  intros s.
  assert (Inv s) as HI by apply reachable_Inv, reachable_run, reachable_initial.
  split; [apply HI|]. split; [done|].
  intros s2 Hb. cbv zeta.
  destruct (beforeBroadcast_ok s e s2 HI Hb) as (Hwf2 & Hf2 & _).
  assert (Wf (broadcastState s2)) as Hwf1 by exact Hwf2.
  assert (Fresh (broadcastState s2)) as Hf1 by (destruct Hf2; by split).
  rw (handle_beforeBroadcast s e s2 Hb).
  destruct (pass_post (broadcastState s2) Hwf1 Hf1) as (P1 & P2 & P3 & P4 & P5).
  split_and!; try done.
  - unfold toNotify, availableSlots. lia.
  - apply getState_sorted.
Qed.

(** ** Expiry of a claim timer *)

Lemma notified_getState s s' : getState s = getState s' → notified s = notified s'.
Proof. intros H. unfold notified, toNotify, availableSlots. by rw H. Qed.

Lemma getState_to_idle s sid u now :
  Wf s → (sid, u) ∈ users s → status u = Queue →
  let s1 := setUsers (upd sid (withStatus Idle now) (users s)) s in
  queue (getState s1) = filter (λ e, lnameE e ≠ lname u) (queue (getState s))
  ∧ outside (getState s1) = outside (getState s).
Proof.
  intros Hwf Hin Hq s1.
  assert (Wf s1) as Hwf1 by by apply WfUR_upd.
  rw (getState_wf s1 Hwf1) (getState_wf s Hwf). simpl. split.
  - rw filter_sortByJoinedAt. f_equal. apply entries_after_idle.
    intros [k v] Hr. simpl. split.
    + intros ->. pose proof (wf_keys _ _ Hwf) as Hk.
      apply (elem_of_get _ _ _ Hk) in Hr, Hin. congruence.
    + intros Hl. by destruct (owner_unique _ _ _ _ _ _ Hwf Hr Hin Hl).
  - f_equal. f_equal. apply outside_after_idle. intros [k v] Hr. simpl. intros ->.
    pose proof (wf_keys _ _ Hwf) as Hk.
    apply (elem_of_get _ _ _ Hk) in Hr, Hin. assert (v = u) as -> by congruence.
    by rw Hq.
Qed.

Lemma filter_all {A} (P : A → Prop) `{∀ x, Decision (P x)} (l : list A) :
  (∀ x, x ∈ l → P x) → filter P l = l.
Proof.
  induction l as [|a l IH]; intros Hl; [done|].
  rw filter_cons_True; [apply Hl; left|]. f_equal. apply IH. intros x Hx. apply Hl. by right.
Qed.

(** In a list without two equal keys, dropping the key of the entry at
    [i] moves every later entry up by one place. *)
Lemma filter_without_lookup {A} (f : A → string) (l : list A) : ∀ i j x q,
  NoDup (f <$> l) → l !! i = Some x → l !! j = Some q → (i < j)%nat →
  filter (λ e, f e ≠ f x) l !! (j - 1)%nat = Some q.
Proof.
  induction l as [|a l IH]; intros i j x q Hnd Hi Hj Hlt; [done|].
  csimpl in Hnd. apply NoDup_cons in Hnd as [Ha Hnd].
  destruct j as [|j]; [lia|]. simpl in Hj.
  replace (S j - 1)%nat with j by lia.
  destruct i as [|i]; simpl in Hi.
  - injection Hi as ->. rw filter_cons_False; [by intros Hn|].
    rw filter_all; [|done]. intros y Hy Hfy. apply Ha. rw -Hfy.
    by apply list_elem_of_fmap_2.
  - rw filter_cons_True.
    { intros Hfa. apply Ha. rw Hfa. apply list_elem_of_fmap_2.
      by eapply list_elem_of_lookup_2. }
    destruct j as [|j]; [lia|]. simpl.
    replace j with (S j - 1)%nat by lia. apply (IH i); try done. lia.
Qed.

(** C4.  A claim timer [h], armed for the name [n], fires in a state the
    server can reach.  It leaves the table of armed timers.  When the user
    registered under [n] is missing or is no longer queued, nothing else
    changes.  When that user is still queued: it becomes [idle] (not
    [outside]) at the current time; [queue_timeout] goes to every socket
    registered under [n]; then the new state is broadcast; then the whole
    pass runs again on that state and emits its [your_turn] signals; and the
    new projected queue is the old one without that user, in the same
    order, while [outside] is unchanged.  Both queues are in FIFO order,
    ascending [joinedAt]; the pass notifies the first
    [min(avail, |queue|)] entries of the new one; so when the user who
    forfeits stood at place [i], every entry at a later place [j] up to
    [avail = MAX_OUTSIDE - outside.length] moves up to place [j - 1] and
    is among those the pass notifies: the freed slot passes to the next
    entry in FIFO order. *)
Theorem claim_timer_expiry (evs : list Event) (h : TimerId) (now : Z) (t : Timer) :
  let s := run evs initial in
  List.find (λ t, Nat.eqb (timerId t) h) (timers s) = Some t →
  let n := timerName t in
  let s' := on_timer h now s in
  armed h s' = false
  ∧ match getUserByName n s with
    | Some (sid, u) =>
        if decide (status u = Queue) then
          (∃ u', JsMap.get sid (users s') = Some u'
                 ∧ name u' = name u ∧ status u' = Idle ∧ joinedAt u' = now)
          ∧ (∃ s2, beforeBroadcast s (TimerFires h now) = Some s2
                   ∧ s' = notifyNextInQueue (broadcastState s2))
          ∧ emittedBy s (TimerFires h now) =
              ((λ x, ToSocket x queue_timeout) <$> getSocketsByName n s)
              ++ ToAll (state_update (getState s')) :: turnsOf s' (notified s')
          ∧ queue (getState s') = filter (λ e, lnameE e ≠ lname u) (queue (getState s))
          ∧ outside (getState s') = outside (getState s)
          ∧ StronglySorted entryLe (queue (getState s))
          ∧ StronglySorted entryLe (queue (getState s'))
          ∧ notified s' =
              take (Z.to_nat (Z.min (Z.max 0 (MAX_OUTSIDE
                                              - Z.of_nat (length (outside (getState s')))))
                                    (Z.of_nat (length (queue (getState s'))))))
                   (queue (getState s'))
          ∧ (∀ i j q, queue (getState s) !! i = Some (entryOf u) →
                      queue (getState s) !! j = Some q → (i < j)%nat →
                      Z.of_nat j ≤ MAX_OUTSIDE - Z.of_nat (length (outside (getState s))) →
                      queue (getState s') !! (j - 1)%nat = Some q
                      ∧ notified s' !! (j - 1)%nat = Some q)
        else s' = clearTimeout h s
    | None => s' = clearTimeout h s
    end.
Proof.
  intros s Hfind n s'.
  assert (Inv s) as HI by apply reachable_Inv, reachable_run, reachable_initial.
  pose proof (clearTimeout_Inv h s HI) as HI0.
  pose proof HI0 as [Hwf0 Hf0 _ _].
  assert (armed h (clearTimeout h s) = false) as Hna.
  { by apply (armed_dropTimer h _ (timers s)). }
  assert (h < nextTimer s)%nat as Hlt.
  { pose proof (find_some _ _ Hfind) as [Hin Heq%Nat.eqb_eq]. rw -Heq.
    apply (fresh_timers _ (inv_fresh _ HI)). by apply list_elem_of_In. }
  unfold s', on_timer. rw Hfind. fold n. unfold timeoutCallback.
  change (getUserByName n (clearTimeout h s)) with (getUserByName n s).
  destruct (getUserByName n s) as [[sid u]|] eqn:Hg; [|done].
  destruct (decide (status u = Queue)) as [Hq|Hq]; [|done].
  apply getUserByName_Some in Hg as (Hin & l & Hreg).
  destruct (wf_single _ _ Hwf0 _ _ Hreg) as [x [= <- ->]].
  assert (getSocketsByName n (clearTimeout h s) = [sid]) as Hsock.
  { unfold getSocketsByName. simpl. by rw Hreg. }
  pose proof (updateUserStatus_eq (clearTimeout h s) n Idle now Hwf0) as Hu.
  rw Hsock in Hu.
  set (s1 := updateUserStatus n Idle now (clearTimeout h s)) in *.
  assert (getSocketsByName n s1 = [sid]) as Hsock1.
  { rw Hu. unfold getSocketsByName. simpl. by rw Hreg. }
  rw Hsock1.
  set (s2 := emitTo [sid] queue_timeout s1).
  assert (Wf s1) as Hwf1 by (rw Hu; by apply WfUR_upd).
  assert (Wf (broadcastState s2)) as Hwfb by (unfold s2; by rw emitTo_eq).
  destruct (notifyNextInQueue_spec _ Hwfb) as (Hus & Hr & Hnx & Hem & _).
  pose proof (notifyNextInQueue_getState _ Hwfb) as Hgs.
  assert (getState (broadcastState s2) = getState s1) as Hgs1.
  { unfold s2. by rw emitTo_eq. }
  destruct (getState_to_idle (clearTimeout h s) sid u now Hwf0 Hin Hq) as [HQ HO].
  split.
  { apply pass_not_armed; [done| |].
    - unfold s2. rw emitTo_eq. simpl. by rw Hu.
    - unfold s2. rw emitTo_eq. simpl. by rw Hu. }
  split_and!.
  - rw Hus get_mapH. unfold s2. rw emitTo_eq. simpl. rw Hu. simpl.
    rw get_upd decide_True //. rw (elem_of_get sid u) //; [apply Hwf0|].
    simpl. by eexists.
  - exists s2. split; [|done]. simpl. rw Hfind. fold n.
    change (getUserByName n (clearTimeout h s)) with (getUserByName n s).
    unfold getUserByName. rw Hreg. rw (elem_of_get sid u) //; [apply Hwf0|].
    rw decide_True //. fold s1. by rw Hsock1.
  - unfold emittedBy. change (handle s (TimerFires h now)) with (on_timer h now s).
    unfold on_timer. rw Hfind. fold n. unfold timeoutCallback.
    change (getUserByName n (clearTimeout h s)) with (getUserByName n s).
    unfold getUserByName. rw Hreg. rw (elem_of_get sid u) //; [apply Hwf0|].
    rw decide_True //. fold s1. rw Hsock1. fold s2. rw Hem.
    rw (turnsOf_reg (broadcastState s2) (notifyNextInQueue (broadcastState s2))) //.
    rw (notified_getState (notifyNextInQueue (broadcastState s2)) (broadcastState s2)) //.
    rw Hgs. unfold getSocketsByName at 1. rw Hreg.
    unfold s2. rw emitTo_eq. simpl. rw Hu. simpl.
    rw -!app_assoc drop_app_length. done.
  - rw Hgs Hgs1 Hu. exact HQ.
  - rw Hgs Hgs1 Hu. exact HO.
  - by destruct (getState_sorted s).
  - by destruct (getState_sorted (notifyNextInQueue (broadcastState s2))).
  - done.
  - intros i j q Hi Hj Hij Hj'.
    assert (queue (getState (notifyNextInQueue (broadcastState s2))) !! (j - 1)%nat
            = Some q) as Hq'.
    { rw Hgs Hgs1 Hu HQ. change (lname u) with (lnameE (entryOf u)).
      apply (filter_without_lookup lnameE _ i j); try done.
      by apply (queue_lnames_NoDup (clearTimeout h s)). }
    split; [exact Hq'|].
    unfold notified. rw lookup_take_lt; [|exact Hq'].
    apply lookup_lt_Some in Hq'. rw Hgs in Hq'.
    assert (outside (getState (broadcastState s2)) = outside (getState s)) as HO'
      by (rw Hgs1 Hu; exact HO).
    unfold toNotify, availableSlots. rw Hgs HO'. lia.
Qed.

(** ** [login] *)

(** C8.  From any state: a socket that is in the registry set of a
    canonical name and sends [login] with a name of that canonical form
    receives [login_success] and never an error; the registry, the timers
    and every existing presence record are unchanged; the only possible
    change is a new idle record, stamped with the current time, for this
    socket when it had none; and a repeated [login] changes neither the
    presence store nor the registry again. *)
Theorem login_idempotent (s : Server) (socket : SocketId) (v : JsValue) (z : string)
        (now : Z) (l : list SocketId) :
  sanitizeName v = Some z →
  nameToSockets s !! toLowerCase z = Some l → socket ∈ l →
  let s' := on_login socket v now s in
  emitted s' = emitted s ++ [ToSocket socket (login_success z);
                             ToAll (state_update (getState s'))]
  ∧ nameToSockets s' = nameToSockets s
  ∧ timers s' = timers s ∧ nextTimer s' = nextTimer s
  ∧ users s' = (if JsMap.has socket (users s) then users s
                else users s ++ [(socket, mkUser z Idle now None)])
  ∧ ∀ now', users (on_login socket v now' s') = users s'
            ∧ nameToSockets (on_login socket v now' s') = nameToSockets s'.
Proof.
  intros Hz Hreg Hin.
  assert (∀ st now0, nameToSockets st !! toLowerCase z = Some l →
            on_login socket v now0 st =
            broadcastState (emit (ToSocket socket (login_success z))
              (if JsMap.has socket (users st) then st
               else setUsers (JsMap.set socket (mkUser z Idle now0 None) (users st)) st)))
    as Hstep.
  { intros st now0 Hl. unfold on_login. rw Hz Hl.
    by rw (proj2 (JsSet_has_elem_of socket l) Hin). }
  cbv zeta. rw (Hstep s now Hreg).
  assert (users (if JsMap.has socket (users s) then s
                 else setUsers (JsMap.set socket (mkUser z Idle now None) (users s)) s)
          = if JsMap.has socket (users s) then users s
            else users s ++ [(socket, mkUser z Idle now None)]) as Hus.
  { unfold JsMap.has. destruct (JsMap.get socket (users s)) eqn:Hg; [done|].
    simpl. apply keys_set_absent. by apply get_None_keys. }
  split_and!.
  - simpl. rw -app_assoc. by destruct (JsMap.has socket (users s)).
  - by destruct (JsMap.has socket (users s)).
  - by destruct (JsMap.has socket (users s)).
  - by destruct (JsMap.has socket (users s)).
  - exact Hus.
  - intros now'. rw Hstep.
    { simpl. by destruct (JsMap.has socket (users s)). }
    simpl. rw Hus.
    assert (JsMap.has socket (if JsMap.has socket (users s) then users s
                              else users s ++ [(socket, mkUser z Idle now None)]) = true)
      as ->; [|done].
    unfold JsMap.has. destruct (JsMap.get socket (users s)) eqn:Hg; [by rw Hg|].
    rw -(keys_set_absent socket); [by apply get_None_keys|].
    by rw get_set decide_True.
Qed.

Lemma on_login_registry socket v now s :
  Inv s →
  (∃ reason, on_login socket v now s = emit (ToSocket socket (login_error reason)) s)
  ∨ (∃ z, sanitizeName v = Some z
          ∧ nameToSockets s !! toLowerCase z = Some [socket]
          ∧ nameToSockets (on_login socket v now s) = nameToSockets s)
  ∨ (∃ z, sanitizeName v = Some z
          ∧ nameToSockets s !! toLowerCase z = None
          ∧ nameToSockets (on_login socket v now s)
            = <[toLowerCase z := [socket]]> (nameToSockets s)).
Proof.
  intros [Hwf _ _ _]. unfold on_login.
  destruct (sanitizeName v) as [z|]; [|left; by eexists].
  destruct (nameToSockets s !! toLowerCase z) as [l|] eqn:Hreg.
  - destruct (wf_single _ _ Hwf _ _ Hreg) as [x ->].
    destruct (JsSet.has socket [x]) eqn:Hhas.
    + apply JsSet_has_elem_of, list_elem_of_singleton in Hhas as <-.
      right. left. exists z. split_and!; try done.
      by destruct (JsMap.has socket (users s)).
    + left. by eexists.
  - right. right. by exists z.
Qed.

(** C10.  In every state the server reaches, every registry entry holds
    exactly one socket; and a [login] either fails with a [login_error]
    and changes nothing, or finds the entry of the name holding this very
    socket and leaves the registry as it is, or finds no entry for the name
    and creates one holding this socket alone: no second socket is ever
    added to an entry. *)
Theorem registry_entries_are_singletons (evs : list Event) :
  let s := run evs initial in
  (∀ k l, nameToSockets s !! k = Some l → ∃ sid, l = [sid])
  ∧ ∀ socket v now,
      (∃ reason, on_login socket v now s = emit (ToSocket socket (login_error reason)) s)
      ∨ (∃ z, sanitizeName v = Some z
              ∧ nameToSockets s !! toLowerCase z = Some [socket]
              ∧ nameToSockets (on_login socket v now s) = nameToSockets s)
      ∨ (∃ z, sanitizeName v = Some z
              ∧ nameToSockets s !! toLowerCase z = None
              ∧ nameToSockets (on_login socket v now s)
                = <[toLowerCase z := [socket]]> (nameToSockets s)).
Proof.
  intros s.
  assert (Inv s) as HI by apply reachable_Inv, reachable_run, reachable_initial.
  split; [apply HI|]. intros socket v now. by apply on_login_registry.
Qed.

(** ** Ownership of a name *)

Lemma finish_registry s :
  Wf s → nameToSockets (notifyNextInQueue (broadcastState s)) = nameToSockets s.
Proof.
  intros Hwf. assert (Wf (broadcastState s)) as Hwfb by exact Hwf.
  by destruct (notifyNextInQueue_spec _ Hwfb) as (_ & -> & _).
Qed.

Lemma clear_registry s n :
  Wf s → nameToSockets (clearUserNotificationTimeout n s) = nameToSockets s.
Proof.
  intros Hwf. by destruct (clear_cases s Hwf n) as [->|(sid & u & _ & ->)].
Qed.

(** Only [login] and [disconnect] change the registry. *)
Lemma handle_registry s e :
  Inv s →
  nameToSockets (handle s e) =
  match e with
  | Login socket v now => nameToSockets (on_login socket v now s)
  | Disconnect socket =>
      match JsMap.get socket (users s) with
      | Some user => base.delete (lname user) (nameToSockets s)
      | None => nameToSockets s
      end
  | _ => nameToSockets s
  end.
Proof.
  intros HI. pose proof HI as [Hwf _ _ _].
  destruct e as [socket v now|socket now|socket now|socket now|socket|socket|h now];
    simpl; try done.
  - unfold on_leave_class. destruct (JsMap.get socket (users s)) as [user|]; [|done].
    pose proof (clear_Wf s Hwf (name user)) as Hwf1.
    rw finish_registry; [by apply updateUserStatus_Wf|].
    destruct (updateUserStatus_frame (name user) (leaveClassTarget (getState s) user)
                now _ Hwf1) as (-> & _).
    by apply clear_registry.
  - unfold on_come_back. destruct (JsMap.get socket (users s)) as [user|]; [|done].
    case_decide; [|done].
    rw finish_registry; [by apply updateUserStatus_Wf|].
    by destruct (updateUserStatus_frame (name user) Idle now _ Hwf) as (-> & _).
  - unfold on_leave_queue. destruct (JsMap.get socket (users s)) as [user|]; [|done].
    case_decide; [|done].
    pose proof (clear_Wf s Hwf (name user)) as Hwf1.
    rw finish_registry; [by apply updateUserStatus_Wf|].
    destruct (updateUserStatus_frame (name user) Idle now _ Hwf1) as (-> & _).
    by apply clear_registry.
  - unfold on_request_state. by destruct (JsMap.get socket (users s)).
  - destruct (JsMap.get socket (users s)) as [user|] eqn:Hg.
    + rw (on_disconnect_eq socket user) //. rw finish_registry //.
      by apply WfUR_delete.
    + unfold on_disconnect. by rw Hg.
  - unfold on_timer. destruct (find _ _) as [t|]; [|done].
    pose proof (clearTimeout_Inv h s HI) as [Hwf0 _ _ _].
    unfold timeoutCallback. destruct (getUserByName _ _) as [[? cu]|]; [|done].
    case_decide; [|done].
    rw finish_registry; [by apply emitTo_Wf, updateUserStatus_Wf|].
    rw emitTo_eq. simpl.
    by destruct (updateUserStatus_frame (timerName t) Idle now _ Hwf0) as (-> & _).
Qed.

(** A name stays with the socket that owns it until that socket
    disconnects. *)
Lemma owner_kept s e key s1 :
  Inv s → nameToSockets s !! key = Some [s1] → e ≠ Disconnect s1 →
  nameToSockets (handle s e) !! key = Some [s1].
Proof.
  intros HI HK Hne. rw handle_registry //. pose proof HI as [Hwf _ _ _].
  destruct e as [socket v now|socket now|socket now|socket now|socket|socket|h now];
    try done.
  - destruct (on_login_registry socket v now s HI)
      as [[reason ->]|[(z & _ & _ & ->)|(z & _ & Hnone & ->)]]; try done.
    rw lookup_insert_ne //. intros <-. congruence.
  - destruct (JsMap.get socket (users s)) as [user|] eqn:Hg; [|done].
    rw lookup_delete_ne //. intros <-.
    pose proof (wf_owner _ _ Hwf socket user (get_elem_of _ _ _ Hg)) as Ho.
    rw HK in Ho. injection Ho as ->. done.
Qed.

Lemma run_owner_kept evs s key s1 :
  Inv s → nameToSockets s !! key = Some [s1] → Disconnect s1 ∉ evs →
  Inv (run evs s) ∧ nameToSockets (run evs s) !! key = Some [s1].
Proof.
  revert s. induction evs as [|e evs IH]; intros s HI HK Hn; [done|].
  apply not_elem_of_cons in Hn as [Hne Hn]. simpl. apply IH; [|by apply owner_kept|done].
  by apply handle_Inv.
Qed.

Lemma login_success_owner socket v now z s :
  Inv s → sanitizeName v = Some z →
  ToSocket socket (login_success z) ∈ emittedBy s (Login socket v now) →
  nameToSockets (on_login socket v now s) !! toLowerCase z = Some [socket].
Proof.
  intros HI Hz. unfold emittedBy. simpl.
  destruct (on_login_registry socket v now s HI)
    as [[reason ->]|[(z' & Hz' & Hreg & ->)|(z' & Hz' & _ & ->)]].
  - simpl. rw drop_app_length. by intros [=]%list_elem_of_singleton.
  - intros _. congruence.
  - intros _. assert (z' = z) as -> by congruence. by rw lookup_insert_eq.
Qed.

(** C7.  Socket [s1] logs in with success under a name; as long as no
    [disconnect] of [s1] is processed, whatever else happens, a [login] of
    another socket [s2] under any name with the same canonical key gets
    [login_error "Name already in use"] and changes nothing else in the
    server; so [s2] can obtain the name only after a [disconnect] of
    [s1]. *)
Theorem name_in_use (evs1 evs2 : list Event) (s1 s2 : SocketId) (v1 v2 : JsValue)
        (z1 z2 : string) (now1 now2 : Z) :
  s1 ≠ s2 →
  sanitizeName v1 = Some z1 → sanitizeName v2 = Some z2 →
  toLowerCase z1 = toLowerCase z2 →
  let st1 := run evs1 initial in
  ToSocket s1 (login_success z1) ∈ emittedBy st1 (Login s1 v1 now1) →
  let st2 := run evs2 (handle st1 (Login s1 v1 now1)) in
  (Disconnect s1 ∉ evs2 →
   handle st2 (Login s2 v2 now2)
   = emit (ToSocket s2 (login_error "Name already in use")) st2)
  ∧ (ToSocket s2 (login_success z2) ∈ emittedBy st2 (Login s2 v2 now2) →
     Disconnect s1 ∈ evs2).
Proof.
  intros Hne Hz1 Hz2 Hkey st1 Hok st2.
  assert (Inv st1) as HI1 by apply reachable_Inv, reachable_run, reachable_initial.
  pose proof (login_success_owner s1 v1 now1 z1 st1 HI1 Hz1 Hok) as HK.
  assert (Disconnect s1 ∉ evs2 →
          handle st2 (Login s2 v2 now2)
          = emit (ToSocket s2 (login_error "Name already in use")) st2) as Hmain.
  { intros Hn.
    destruct (run_owner_kept evs2 (handle st1 (Login s1 v1 now1)) _ s1
                (handle_Inv _ _ HI1) HK Hn) as [_ HK2].
    fold st2 in HK2. simpl. unfold on_login. rw Hz2 -Hkey HK2.
    assert (JsSet.has s2 [s1] = false) as ->; [|done].
    apply JsSet_has_false. by intros ?%list_elem_of_singleton. }
  split; [exact Hmain|].
  intros Hin. destruct (decide (Disconnect s1 ∈ evs2)) as [|Hn]; [done|exfalso].
  unfold emittedBy in Hin. rw (Hmain Hn) in Hin. simpl in Hin.
  rw drop_app_length in Hin. by apply list_elem_of_singleton in Hin.
Qed.

(** ** The code at the inputs it mishandles *)

(** C5.  The code at the failing input.  In scenario B the queued user
    Eve, on socket [s5], holds the armed claim timer [0].  Her socket
    disconnects: her presence record and her registry entry are removed,
    and the broadcast and the pass follow, but timer [0] is still armed:
    [clearUserNotificationTimeout] runs after [nameToSockets.delete] and
    finds no user.  When a new socket has taken the name and is queued,
    the orphaned timer fires against it: it gets [queue_timeout] and
    becomes idle, one second after it queued and without any [your_turn]. *)
Theorem disconnect_leaves_claim_timer_armed :
  let s := run scenarioB initial in
  let s' := handle s (Disconnect "s5") in
  let later := run afterDisconnect initial in
  JsMap.get "s5" (users s) = Some (mkUser "Eve" Queue 15 (Some 0%nat))
  ∧ timers s = [mkTimer 0 "Eve" NOTIFICATION_TIMEOUT]
  ∧ JsMap.get "s5" (users s') = None
  ∧ nameToSockets s' !! "eve" = None
  ∧ timers s' = [mkTimer 0 "Eve" NOTIFICATION_TIMEOUT]
  ∧ armed 0 s' = true
  ∧ JsMap.get "s6" (users later) = Some (mkUser "eve" Queue 23 None)
  ∧ JsMap.get "s6" (users (handle later (TimerFires 0 24)))
    = Some (mkUser "eve" Idle 24 None)
  ∧ emittedBy later (TimerFires 0 24)
    = [ToSocket "s6" queue_timeout;
       ToAll (state_update (getState (handle later (TimerFires 0 24))))].
Proof. cbv zeta. split_and!; by vm_compute. Qed.

(** C2.  The code at the failing input.  The timer [0] that the
    disconnect of C5 left armed carries the name of Eve; a new socket,
    [s6], has logged in under that name and is idle; all four slots are
    taken and nobody is queued.  [leave_class] from [s6] follows the
    admission rule: the user is queued, stamped with the current time.
    But the pending claim timer of that name is not cancelled:
    [clearUserNotificationTimeout] clears the handle stored in the
    record, and the record stores none.  The timer then fires against
    the user, who gets [queue_timeout] and is idle again, without ever
    having been sent [your_turn]. *)
Theorem leave_class_leaves_name_timer_armed :
  let s := run nameTakenAgain initial in
  let s' := handle s (LeaveClass "s6" 23) in
  JsMap.get "s6" (users s) = Some (mkUser "eve" Idle 22 None)
  ∧ timers s = [mkTimer 0 "Eve" NOTIFICATION_TIMEOUT]
  ∧ getUserByName "Eve" s = Some ("s6", mkUser "eve" Idle 22 None)
  ∧ length (outside (getState s)) = 4%nat
  ∧ queue (getState s) = []
  ∧ JsMap.get "s6" (users s') = Some (mkUser "eve" Queue 23 None)
  ∧ timers s' = [mkTimer 0 "Eve" NOTIFICATION_TIMEOUT]
  ∧ armed 0 s' = true
  ∧ emittedBy s (LeaveClass "s6" 23) = [ToAll (state_update (getState s'))]
  ∧ JsMap.get "s6" (users (handle s' (TimerFires 0 120020)))
    = Some (mkUser "eve" Idle 120020 None)
  ∧ emittedBy s' (TimerFires 0 120020)
    = [ToSocket "s6" queue_timeout;
       ToAll (state_update (getState (handle s' (TimerFires 0 120020))))].
Proof. cbv zeta. split_and!; by vm_compute. Qed.

(** C3.  The code at the failing input.  The state [s] is the one a pass
    of the turn notifier has just left: the pass of the [leave_class]
    above.  No slot is free and one user is queued, yet a claim timer is
    armed under her name, and running the pass once more changes
    nothing: the loop that clears the timeouts of all queued users finds
    no handle in her record.  When a slot is freed, the next pass arms a
    second timer for her and sends [your_turn]: two claim timers of one
    queued user are armed together, the older one not cancelled.  The
    older one fires first and takes the claim away. *)
Theorem pass_leaves_name_timer_armed :
  let s0 := run nameTakenAgain initial in
  let s := handle s0 (LeaveClass "s6" 23) in
  let s3 := handle s (ComeBack "s1" 24) in
  (∃ s2, beforeBroadcast s0 (LeaveClass "s6" 23) = Some s2
         ∧ s = notifyNextInQueue (broadcastState s2))
  ∧ availableSlots s = 0
  ∧ queue (getState s) = [mkEntry "eve" 23]
  ∧ getUserByName "Eve" s = Some ("s6", mkUser "eve" Queue 23 None)
  ∧ timers s = [mkTimer 0 "Eve" NOTIFICATION_TIMEOUT]
  ∧ armed 0 s = true
  ∧ notifyNextInQueue s = s
  ∧ (∃ s2, beforeBroadcast s (ComeBack "s1" 24) = Some s2
           ∧ s3 = notifyNextInQueue (broadcastState s2))
  ∧ availableSlots s3 = 1
  ∧ queue (getState s3) = [mkEntry "eve" 23]
  ∧ JsMap.get "s6" (users s3) = Some (mkUser "eve" Queue 23 (Some 1%nat))
  ∧ timers s3 = [mkTimer 0 "Eve" NOTIFICATION_TIMEOUT;
                 mkTimer 1 "eve" NOTIFICATION_TIMEOUT]
  ∧ armed 0 s3 = true ∧ armed 1 s3 = true
  ∧ emittedBy s (ComeBack "s1" 24)
    = [ToAll (state_update (getState s3)); ToSocket "s6" your_turn]
  ∧ JsMap.get "s6" (users (handle s3 (TimerFires 0 120020)))
    = Some (mkUser "eve" Idle 120020 (Some 1%nat))
  ∧ emittedBy s3 (TimerFires 0 120020)
    = [ToSocket "s6" queue_timeout;
       ToAll (state_update (getState (handle s3 (TimerFires 0 120020))))].
Proof.
  cbv zeta. split_and!; try by vm_compute.
  - destruct (beforeBroadcast (run nameTakenAgain initial) (LeaveClass "s6" 23))
      as [s2|] eqn:Hb; [|by vm_compute in Hb].
    exists s2. split; [done|]. by apply handle_beforeBroadcast.
  - destruct (beforeBroadcast (handle (run nameTakenAgain initial) (LeaveClass "s6" 23))
                (ComeBack "s1" 24)) as [s2|] eqn:Hb; [|by vm_compute in Hb].
    exists s2. split; [done|]. by apply handle_beforeBroadcast.
Qed.

(** A second defect of the purge.  [disconnect] removes the registry entry
    of the name the socket bears last: a socket that logged in under two
    names leaves the entry of the first behind, and the name can never be
    taken again. *)
Lemma relogin_leaves_registry_entry :
  let s := run relogin initial in
  users s = []
  ∧ nameToSockets s !! "ann" = Some ["s1"]
  ∧ emittedBy s (Login "s2" (JsString "Ann") 3)
    = [ToSocket "s2" (login_error "Name already in use")].
Proof. cbv zeta. split_and!; by vm_compute. Qed.

(** The events the handlers ignore: [come_back] from a status other than
    [outside] and [leave_queue] from a status other than [queue] leave the
    server as it is, and so does any of the three events from a socket
    that is not logged in. *)
Lemma illegal_transitions_ignored (s : Server) (socket : SocketId) (now : Z) :
  (∀ u, JsMap.get socket (users s) = Some u → status u ≠ Outside →
        on_come_back socket now s = s)
  ∧ (∀ u, JsMap.get socket (users s) = Some u → status u ≠ Queue →
          on_leave_queue socket now s = s)
  ∧ (JsMap.get socket (users s) = None →
     on_come_back socket now s = s ∧ on_leave_queue socket now s = s
     ∧ on_leave_class socket now s = s).
Proof.
  unfold on_come_back, on_leave_queue, on_leave_class. split_and!.
  - intros u -> Hs. by rw decide_False.
  - intros u -> Hs. by rw decide_False.
  - by intros ->.
Qed.

(** C6.  The code at the failing input.  With four users outside and
    nobody queued, [leave_class] from Ann, who is outside, is not ignored:
    she is moved to [queue] with a new [joinedAt], the new state is
    broadcast, and the pass then sends her [your_turn] for the slot she has
    just given up and arms a claim timer for her. *)
Theorem leave_class_from_outside_is_not_ignored :
  let s := run fourOutside initial in
  let s' := handle s (LeaveClass "s1" 15) in
  JsMap.get "s1" (users s) = Some (mkUser "Ann" Outside 11 None)
  ∧ length (outside (getState s)) = 4%nat
  ∧ JsMap.get "s1" (users s') = Some (mkUser "Ann" Queue 15 (Some 0%nat))
  ∧ timers s' = [mkTimer 0 "Ann" NOTIFICATION_TIMEOUT]
  ∧ emittedBy s (LeaveClass "s1" 15)
    = [ToAll (state_update (getState s')); ToSocket "s1" your_turn]
  ∧ s' ≠ s.
Proof.
  cbv zeta. split_and!; by vm_compute.
Qed.

(** ** The theorems at concrete inputs *)

(** In scenario B the queued user, first in the queue with one free slot,
    sends [leave_class] and goes outside. *)
Lemma leave_class_admission_witness :
  JsMap.get "s5" (users (run scenarioB initial))
  = Some (mkUser "Eve" Queue 15 (Some 0%nat))
  ∧ ∃ u', JsMap.get "s5" (users (on_leave_class "s5" 30 (run scenarioB initial)))
          = Some u'
          ∧ status u' = Outside ∧ joinedAt u' = 30.
Proof.
  assert (JsMap.get "s5" (users (run scenarioB initial))
          = Some (mkUser "Eve" Queue 15 (Some 0%nat))) as H by (vm_compute; reflexivity).
  split; [exact H|].
  destruct (leave_class_admission scenarioB "s5" 30 _ H) as ((u' & Hg & _ & Hs & Hj) & _).
  exists u'. split; [exact Hg|]. split; [|exact Hj].
  rw Hs. vm_compute. reflexivity.
Defined.

(** In scenario B the claim timer [0] of the queued user fires. *)
Lemma claim_timer_expiry_witness :
  List.find (λ t, Nat.eqb (timerId t) 0) (timers (run scenarioB initial))
  = Some (mkTimer 0 "Eve" NOTIFICATION_TIMEOUT)
  ∧ armed 0 (on_timer 0 140000 (run scenarioB initial)) = false.
Proof.
  assert (List.find (λ t, Nat.eqb (timerId t) 0) (timers (run scenarioB initial))
          = Some (mkTimer 0 "Eve" NOTIFICATION_TIMEOUT)) as H by (vm_compute; reflexivity).
  split; [exact H|].
  destruct (claim_timer_expiry scenarioB 0 140000 _ H) as [Ha _]. exact Ha.
Defined.

(** Socket [s1] is Alice; socket [s2] asks for alice. *)
Lemma name_in_use_witness :
  sanitizeName (JsString "Alice") = Some "Alice"
  ∧ sanitizeName (JsString " alice") = Some "alice"
  ∧ handle (run [LeaveClass "s1" 2] (handle (run [] initial) (Login "s1" (JsString "Alice") 1)))
           (Login "s2" (JsString " alice") 3)
    = emit (ToSocket "s2" (login_error "Name already in use"))
           (run [LeaveClass "s1" 2] (handle (run [] initial) (Login "s1" (JsString "Alice") 1))).
Proof.
  assert (sanitizeName (JsString "Alice") = Some "Alice") as H1 by (vm_compute; reflexivity).
  assert (sanitizeName (JsString " alice") = Some "alice") as H2 by (vm_compute; reflexivity).
  split; [exact H1|]. split; [exact H2|].
  assert ("s1" ≠ "s2") as H3 by discriminate.
  assert (toLowerCase "Alice" = toLowerCase "alice") as H4 by (vm_compute; reflexivity).
  assert (ToSocket "s1" (login_success "Alice")
            ∈ emittedBy (run [] initial) (Login "s1" (JsString "Alice") 1)) as H5
    by (vm_compute; left).
  assert (Disconnect "s1" ∉ [LeaveClass "s1" 2]) as H6.
  { intros [H|H]%elem_of_cons; [discriminate H|]. by apply elem_of_nil in H. }
  destruct (name_in_use [] [LeaveClass "s1" 2] "s1" "s2" _ _ "Alice" "alice" 1 3
                        H3 H1 H2 H4 H5) as [Hmain _].
  exact (Hmain H6).
Defined.

(** Socket [s1], logged in as Ann, sends [login] with [ANN]. *)
Lemma login_idempotent_witness :
  sanitizeName (JsString "ANN") = Some "ANN"
  ∧ users (on_login "s1" (JsString "ANN") 9 (run [Login "s1" (JsString "Ann") 1] initial))
    = [("s1", mkUser "Ann" Idle 1 None)].
Proof.
  assert (sanitizeName (JsString "ANN") = Some "ANN") as H1 by (vm_compute; reflexivity).
  split; [exact H1|].
  assert (nameToSockets (run [Login "s1" (JsString "Ann") 1] initial) !! toLowerCase "ANN"
          = Some ["s1"]) as H2 by (vm_compute; reflexivity).
  assert ("s1" ∈ ["s1"]) as H3 by left.
  destruct (login_idempotent (run [Login "s1" (JsString "Ann") 1] initial)
                             "s1" (JsString "ANN") "ANN" 9 ["s1"] H1 H2 H3)
    as (_ & _ & _ & _ & Hu & _).
  rw Hu. vm_compute. reflexivity.
Defined.

(** Scenario A, then Ann comes back: the pass notifies Eve. *)
Lemma turn_notifier_pass_witness :
  beforeBroadcast (run scenarioA initial) (ComeBack "s1" 20)
  = Some (updateUserStatus "Ann" Idle 20 (run scenarioA initial))
  ∧ emitted (handle (run scenarioA initial) (ComeBack "s1" 20))
    = emitted (broadcastState (updateUserStatus "Ann" Idle 20 (run scenarioA initial)))
      ++ [ToSocket "s5" your_turn].
Proof.
  assert (beforeBroadcast (run scenarioA initial) (ComeBack "s1" 20)
          = Some (updateUserStatus "Ann" Idle 20 (run scenarioA initial))) as H
    by (vm_compute; reflexivity).
  split; [exact H|].
  destruct (turn_notifier_pass scenarioA (ComeBack "s1" 20)) as (_ & _ & Hpass).
  destruct (Hpass _ H) as (_ & _ & _ & _ & He & _).
  rw He. vm_compute. reflexivity.
Defined.

(** Scenario A, then Ann comes back: the [state_update] precedes Eve's
    [your_turn]. *)
Lemma state_update_precedes_your_turn_witness :
  emittedBy (run scenarioA initial) (ComeBack "s1" 20) !! 1%nat
  = Some (ToSocket "s5" your_turn)
  ∧ ∃ j, (j < 1)%nat
         ∧ emittedBy (run scenarioA initial) (ComeBack "s1" 20) !! j
           = Some (ToAll (state_update
                            (getState (handle (run scenarioA initial) (ComeBack "s1" 20))))).
Proof.
  assert (emittedBy (run scenarioA initial) (ComeBack "s1" 20) !! 1%nat
          = Some (ToSocket "s5" your_turn)) as H by (vm_compute; reflexivity).
  split; [exact H|].
  destruct (state_update_precedes_your_turn scenarioA (ComeBack "s1" 20)) as [_ Hturn].
  exact (Hturn 1%nat "s5" H).
Defined.

(** * The helpers and the handlers, one by one *)

(** ** sanitizeName *)

Section SanitizeFacts.
Implicit Types (s : string) (c : ascii).

Lemma strip_chars s : Forall (λ c, isStripped c = false) (chars (strip s)).
Proof.
  induction s as [|c r IH]; simpl; [constructor|].
  destruct (isStripped c) eqn:Hc; [done|]. by constructor.
Qed.

Lemma strip_id s : Forall (λ c, isStripped c = false) (chars s) → strip s = s.
Proof.
  induction s as [|c r IH]; simpl; [done|].
  intros [Hc Hr]%Forall_cons. rw Hc. f_equal. by apply IH.
Qed.

Lemma trimStart_Forall (P : ascii → Prop) s :
  Forall P (chars s) → Forall P (chars (trimStart s)).
Proof.
  induction s as [|c r IH]; simpl; [done|].
  intros H. destruct (isSpace c); [|done]. apply IH. by apply Forall_cons in H as [_ ?].
Qed.

Lemma trimEnd_Forall (P : ascii → Prop) s :
  Forall P (chars s) → Forall P (chars (trimEnd s)).
Proof.
  induction s as [|c r IH]; simpl; [done|].
  intros [Hc Hr]%Forall_cons. specialize (IH Hr).
  destruct (trimEnd r) as [|c' r'].
  - destruct (isSpace c); [constructor | by repeat constructor].
  - by constructor.
Qed.

Lemma trimStart_head s c r : trimStart s = String c r → isSpace c = false.
Proof.
  induction s as [|c0 r0 IH]; simpl; [done|].
  destruct (isSpace c0) eqn:Hc; [done|]. by intros [= <- _].
Qed.

Lemma trimStart_id s :
  (∀ c r, s = String c r → isSpace c = false) → trimStart s = s.
Proof. destruct s as [|c r]; simpl; [done|]. intros H. by rw (H c r). Qed.

Lemma trimEnd_head s c r : trimEnd s = String c r → ∃ r0, s = String c r0.
Proof.
  destruct s as [|c0 r0]; simpl; [done|].
  destruct (trimEnd r0).
  - destruct (isSpace c0); [done|]. intros [= <- _]. by eexists.
  - intros [= <- _]. by eexists.
Qed.

Lemma trimEnd_last s c : last (chars (trimEnd s)) = Some c → isSpace c = false.
Proof.
  induction s as [|c0 r0 IH]; simpl; [done|].
  destruct (trimEnd r0) as [|c1 r1] eqn:Hr.
  - destruct (isSpace c0) eqn:Hc; simpl; [done|]. by intros [= <-].
  - simpl in *. exact IH.
Qed.

Lemma trimEnd_id s :
  (∀ c, last (chars s) = Some c → isSpace c = false) → trimEnd s = s.
Proof.
  induction s as [|c0 r0 IH]; simpl; [done|]. intros H.
  destruct r0 as [|c1 r1].
  - simpl in *. by rw (H c0).
  - rw IH; [|done]. intros c Hc. apply H. simpl in *. exact Hc.
Qed.

Lemma trim_trim s : trim (trim s) = trim s.
Proof.
  unfold trim. rw (trimStart_id (trimEnd (trimStart s))).
  - intros c r Hc. apply trimEnd_head in Hc as [r0 Hc]. by eapply trimStart_head.
  - apply trimEnd_id. apply trimEnd_last.
Qed.

Lemma chars_length s : length (chars s) = String.length s.
Proof. induction s as [|c r IH]; simpl; [done|]. by rw IH. Qed.
End SanitizeFacts.

Lemma sanitizeName_Some (v : JsValue) (z : string) :
  sanitizeName v = Some z ↔
  ∃ n, v = JsString n ∧ z = trim (strip n) ∧ (1 ≤ String.length z ≤ 30)%nat.
Proof.
  split.
  - destruct v as [n|]; [|done]. unfold sanitizeName.
    destruct n as [|c0 r0]; [done|]. generalize (String c0 r0). intros n.
    destruct (_ || _) eqn:Hlen; [done|]. intros [= <-].
    apply orb_false_iff in Hlen as [H0 H30].
    apply Z.eqb_neq in H0. rw Z.gtb_ltb in H30. apply Z.ltb_ge in H30.
    exists n. split; [done|]. split; [done|]. lia.
  - intros (n & -> & -> & Hlen). unfold sanitizeName.
    destruct n as [|c0 r0]; [simpl in Hlen; lia|]. revert Hlen.
    generalize (String c0 r0). intros n Hlen.
    assert ((Z.of_nat (String.length (trim (strip n))) =? 0)
            || (Z.of_nat (String.length (trim (strip n))) >? 30) = false) as ->; [|done].
    apply orb_false_iff. split; [apply Z.eqb_neq; lia|].
    rw Z.gtb_ltb. apply Z.ltb_ge. lia.
Qed.

(** X1.  A name [sanitizeName] accepts comes from a string: it is that
    string without the eight forbidden characters and trimmed; it holds
    between 1 and 30 code units, none of them forbidden, and neither its
    first nor its last one is white space. *)
Theorem sanitizeName_accepts (v : JsValue) (z : string) :
  sanitizeName v = Some z →
  (∃ n, v = JsString n ∧ z = trim (strip n))
  ∧ (1 ≤ String.length z ≤ 30)%nat
  ∧ Forall (λ c, isStripped c = false) (chars z)
  ∧ (∀ c r, z = String c r → isSpace c = false)
  ∧ (∀ c, last (chars z) = Some c → isSpace c = false).
Proof.
  intros H. apply sanitizeName_Some in H as (n & -> & -> & Hlen).
  split; [by exists n|]. split; [exact Hlen|]. split; [|split].
  - apply trimEnd_Forall, trimStart_Forall, strip_chars.
  - intros c r Hc. unfold trim in Hc. apply trimEnd_head in Hc as [r1 Hc].
    by eapply trimStart_head.
  - apply trimEnd_last.
Qed.

(** A trimmed string of 1 to 30 code units without forbidden characters
    is a fixed point of [sanitizeName]. *)
Lemma sanitizeName_fixed (z : string) :
  (1 ≤ String.length z ≤ 30)%nat →
  Forall (λ c, isStripped c = false) (chars z) → trim z = z →
  sanitizeName (JsString z) = Some z.
Proof.
  intros Hlen Hst Htrim. apply sanitizeName_Some. exists z.
  split; [done|]. split; [|done]. by rw (strip_id z Hst) Htrim.
Qed.

(** X2.  [sanitizeName] is idempotent: a name it has accepted is accepted
    again, unchanged. *)
Theorem sanitizeName_idempotent (v : JsValue) (z : string) :
  sanitizeName v = Some z → sanitizeName (JsString z) = Some z.
Proof.
  intros (n & -> & Hz & Hlen)%sanitizeName_Some.
  apply sanitizeName_fixed; [done| |].
  - rw Hz. apply trimEnd_Forall, trimStart_Forall, strip_chars.
  - by rw Hz trim_trim.
Qed.

(** [sanitizeName] at a name with brackets and outer blanks. *)
Lemma sanitizeName_accepts_witness :
  sanitizeName (JsString "  <Eve>; ") = Some "Eve"
  ∧ (1 ≤ String.length "Eve" ≤ 30)%nat.
Proof.
  assert (sanitizeName (JsString "  <Eve>; ") = Some "Eve") as H by (vm_compute; reflexivity).
  split; [exact H|].
  destruct (sanitizeName_accepts _ _ H) as (_ & Hlen & _). exact Hlen.
Defined.

Lemma sanitizeName_idempotent_witness :
  sanitizeName (JsString "  <Eve>; ") = Some "Eve"
  ∧ sanitizeName (JsString "Eve") = Some "Eve".
Proof.
  assert (sanitizeName (JsString "  <Eve>; ") = Some "Eve") as H by (vm_compute; reflexivity).
  split; [exact H|]. exact (sanitizeName_idempotent _ _ H).
Defined.

(** ** What a handler changes in the user map *)

Lemma pubIn_upd_ne sid k f us : sid ≠ k → pubIn sid (upd k f us) = pubIn sid us.
Proof. intros Hne. unfold pubIn. rw get_upd. by rw decide_False. Qed.

Lemma pubIn_upd_timeout sid k x us :
  pubIn sid (upd k (withTimeout x) us) = pubIn sid us.
Proof.
  unfold pubIn. rw get_upd. case_decide; [|done].
  by destruct (JsMap.get sid us).
Qed.

Lemma pubIn_upd_status sid k st now us :
  pubIn sid (upd k (withStatus st now) us) =
  if decide (sid = k) then (λ p, (p.1.1, st, now)) <$> pubIn sid us else pubIn sid us.
Proof.
  unfold pubIn. rw get_upd. case_decide; [|done].
  by destruct (JsMap.get sid us).
Qed.

Lemma pubIn_clear s n sid :
  Wf s → pubIn sid (users (clearUserNotificationTimeout n s)) = pubIn sid (users s).
Proof.
  intros Hwf. destruct (clear_cases s Hwf n) as [->|(k & u & _ & ->)]; [done|].
  apply pubIn_upd_timeout.
Qed.

Lemma pubIn_finish s sid :
  Wf s → pubIn sid (users (notifyNextInQueue (broadcastState s))) = pubIn sid (users s).
Proof.
  intros Hwf. unfold pubIn. rw finish_get //.
  by destruct (JsMap.get sid (users s)).
Qed.

(** The status change of a handler, on the record of its sender. *)
Lemma pubIn_status_change s k u st now sid :
  Wf s → JsMap.get k (users s) = Some u →
  pubIn sid (users (notifyNextInQueue (broadcastState
     (updateUserStatus (name u) st now (clearUserNotificationTimeout (name u) s))))) =
  pubIn sid (upd k (withStatus st now) (users s)).
Proof.
  intros Hwf Hg.
  pose proof (clear_Wf s Hwf (name u)) as Hwf1.
  assert (JsMap.get k (users (clearUserNotificationTimeout (name u) s))
          = Some (withTimeout None u)) as Hg1.
  { rw (clear_user s k u) //=. rw get_upd decide_True // Hg //. }
  rw pubIn_finish; [by apply updateUserStatus_Wf|].
  change (name u) with (name (withTimeout None u)) at 1.
  rw (updateUserStatus_user _ k (withTimeout None u) st now Hwf1 Hg1) /=.
  rw !pubIn_upd_status. rw pubIn_clear //.
Qed.

Lemma pubIn_to_idle s k u now sid :
  Wf s → JsMap.get k (users s) = Some u →
  pubIn sid (users (notifyNextInQueue (broadcastState
     (updateUserStatus (name u) Idle now s)))) =
  pubIn sid (upd k (withStatus Idle now) (users s)).
Proof.
  intros Hwf Hg. rw pubIn_finish; [by apply updateUserStatus_Wf|].
  by rw (updateUserStatus_user s k u Idle now Hwf Hg).
Qed.

Lemma pubIn_disconnect s k u sid :
  Wf s → JsMap.get k (users s) = Some u →
  pubIn sid (users (on_disconnect k s)) = pubIn sid (JsMap.delete k (users s)).
Proof.
  intros Hwf Hg. rw (on_disconnect_eq k u s Hwf Hg). rw pubIn_finish //.
  by apply WfUR_delete.
Qed.

(** Every handler leaves the user map as it was, handles aside, or changes
    one record of it: the one of its sender; for a timer, the one of the
    socket registered under the timer's name. *)
Lemma handle_pubIn s e :
  Inv s →
  ∃ base, (∀ sid, pubIn sid (users (handle s e)) = pubIn sid base)
  ∧ (base = users s
     ∨ (∃ k u st now, JsMap.get k (users s) = Some u
          ∧ base = upd k (withStatus st now) (users s)
          ∧ (senderOf e = Some k
             ∨ ∃ h t, e = TimerFires h now
                      ∧ List.find (λ t, Nat.eqb (timerId t) h) (timers s) = Some t
                      ∧ getUserByName (timerName t) s = Some (k, u)))
     ∨ (∃ k, e = Disconnect k ∧ base = JsMap.delete k (users s))
     ∨ (∃ k v now z, e = Login k v now ∧ sanitizeName v = Some z
          ∧ base = JsMap.set k (mkUser z Idle now None) (users s))).
Proof.
  intros HI. pose proof (inv_wf _ HI) as Hwf.
  destruct e as [k v now|k now|k now|k now|k|k|h now]; simpl.
  - unfold on_login. destruct (sanitizeName v) as [z|] eqn:Hz; [|by exists (users s); auto].
    destruct (nameToSockets s !! toLowerCase z) as [l|].
    + destruct (JsSet.has k l).
      * unfold JsMap.has. destruct (JsMap.get k (users s)); [by exists (users s); auto|].
        eexists. split; [done|]. do 3 right. by exists k, v, now, z.
      * destruct (_ >? _); [by exists (users s); auto|].
        eexists. split; [done|]. do 3 right. by exists k, v, now, z.
    + eexists. split; [done|]. do 3 right. by exists k, v, now, z.
  - unfold on_leave_class. destruct (JsMap.get k (users s)) as [u|] eqn:Hg;
      [|by exists (users s); auto].
    eexists. split; [intros sid; by apply pubIn_status_change|].
    right; left. exists k, u. eauto 10.
  - unfold on_come_back. destruct (JsMap.get k (users s)) as [u|] eqn:Hg;
      [|by exists (users s); auto].
    case_decide; [|by exists (users s); auto].
    eexists. split; [intros sid; by apply pubIn_to_idle|].
    right; left. exists k, u. eauto 10.
  - unfold on_leave_queue. destruct (JsMap.get k (users s)) as [u|] eqn:Hg;
      [|by exists (users s); auto].
    case_decide; [|by exists (users s); auto].
    eexists. split; [intros sid; by apply pubIn_status_change|].
    right; left. exists k, u. eauto 10.
  - exists (users s). split; [|by left]. intros sid. unfold on_request_state.
    by destruct (JsMap.get k (users s)).
  - destruct (JsMap.get k (users s)) as [u|] eqn:Hg.
    + eexists. split; [intros sid; by apply (pubIn_disconnect s k u)|].
      do 2 right; left. by exists k.
    + exists (users s). split; [|by left]. unfold on_disconnect. by rw Hg.
  - unfold on_timer.
    destruct (find _ _) as [t|] eqn:Hfind; [|by exists (users s); auto].
    unfold timeoutCallback.
    set (s0 := clearTimeout h s).
    assert (Wf s0) as Hwf0 by apply Hwf.
    destruct (getUserByName (timerName t) s0) as [[k u]|] eqn:Hu;
      [|by exists (users s); auto].
    case_decide; [|by exists (users s); auto].
    destruct (getUserByName_Some _ _ _ _ Hu) as [Hin [l Hreg]].
    exists (upd k (withStatus Idle now) (users s)). split.
    + intros sid. rw pubIn_finish.
      { apply emitTo_Wf. by apply updateUserStatus_Wf. }
      rw emitTo_eq /=. rw updateUserStatus_eq //.
      unfold getSocketsByName. by rw Hreg.
    + right; left. exists k, u, Idle, now. split; [|split; [done|]].
      * apply elem_of_get; [apply Hwf | exact Hin].
      * right. by exists h, t.
Qed.

Lemma handle_pubIn_other s e k sid :
  Inv s → senderOf e = Some k → sid ≠ k →
  pubIn sid (users (handle s e)) = pubIn sid (users s).
Proof.
  intros HI He Hk. destruct (handle_pubIn s e HI) as (base & Hb & Hcase). rw Hb.
  destruct Hcase as [->|[(k' & u1 & st & now' & _ & -> & Hs)
                        |[(k' & -> & ->)|(k' & v' & now' & z & -> & _ & ->)]]].
  - done.
  - destruct Hs as [Hs|(h & t & -> & _)]; [|done].
    rw He in Hs. injection Hs as <-. by apply pubIn_upd_ne.
  - injection He as <-. unfold pubIn. by rw get_delete decide_False.
  - injection He as <-. unfold pubIn. by rw get_set decide_False.
Qed.

(** X3.  The name of every connected user has passed [sanitizeName]: in
    every state the server reaches, a stored name is accepted unchanged. *)
Theorem stored_names_are_sanitized (evs : list Event) (sid : SocketId) (u : User) :
  JsMap.get sid (users (run evs initial)) = Some u →
  sanitizeName (JsString (name u)) = Some (name u).
Proof.
  assert (∀ s, reachable s → ∀ sid u, JsMap.get sid (users s) = Some u →
               sanitizeName (JsString (name u)) = Some (name u)) as H.
  { clear. induction 1 as [|s e Hr IH]; [done|]. intros sid u Hg.
    destruct (handle_pubIn s e (reachable_Inv _ Hr)) as (base & Hb & Hcase).
    specialize (Hb sid). unfold pubIn in Hb. rw Hg /= in Hb.
    destruct (JsMap.get sid base) as [u0|] eqn:Hg0; [|done].
    injection Hb as Hn _ _. rw Hn.
    destruct Hcase as [->|[(k & u1 & st & now & Hk & -> & _)|[(k & _ & ->)|(k & v & now & z & _ & Hz & ->)]]].
    - by eapply IH.
    - rw get_upd in Hg0. case_decide as Hd.
      + subst k. rw Hk /= in Hg0. injection Hg0 as <-. simpl. by eapply IH.
      + by eapply IH.
    - rw get_delete in Hg0. case_decide; [done|]. by eapply IH.
    - rw get_set in Hg0. case_decide.
      + injection Hg0 as <-. simpl.
        apply sanitizeName_Some in Hz as (n & _ & Hz & Hlen).
        apply sanitizeName_fixed; [done| |].
        * rw Hz. apply trimEnd_Forall, trimStart_Forall, strip_chars.
        * by rw Hz trim_trim.
      + by eapply IH. }
  apply H. apply reachable_run. constructor.
Qed.

Lemma stored_names_are_sanitized_witness :
  JsMap.get "s1" (users (run [Login "s1" (JsString "  <Eve>; ") 1] initial))
  = Some (mkUser "Eve" Idle 1 None)
  ∧ sanitizeName (JsString "Eve") = Some "Eve".
Proof.
  assert (JsMap.get "s1" (users (run [Login "s1" (JsString "  <Eve>; ") 1] initial))
          = Some (mkUser "Eve" Idle 1 None)) as H by (vm_compute; reflexivity).
  split; [exact H|].
  exact (stored_names_are_sanitized [Login "s1" (JsString "  <Eve>; ") 1] "s1" _ H).
Defined.

(** X8.  A handler run changes the name, the status and the time stamp of
    no record but one: that of the socket the event comes from; for a
    timer, that of the socket found under the name the timer carries.
    Records of other sockets are neither created nor removed. *)
Theorem handler_changes_one_record (evs : list Event) (e : Event) (sid : SocketId) :
  let s := run evs initial in
  pubIn sid (users (handle s e)) ≠ pubIn sid (users s) →
  senderOf e = Some sid
  ∨ ∃ h now t u, e = TimerFires h now
                 ∧ List.find (λ t, Nat.eqb (timerId t) h) (timers s) = Some t
                 ∧ getUserByName (timerName t) s = Some (sid, u)
                 ∧ status u = Queue.
Proof.
  intros s Hne.
  assert (Inv s) as HI by apply reachable_Inv, reachable_run, reachable_initial.
  destruct (decide (senderOf e = Some sid)) as [|Hs]; [by left|]. right.
  destruct e as [k v now|k now|k now|k now|k|k|h now].
  1-6: by exfalso; apply Hne, (handle_pubIn_other s _ k); [| |intros ->].
  simpl in Hne. unfold on_timer in Hne.
  destruct (find _ _) as [t|] eqn:Hfind; [|done].
  unfold timeoutCallback in Hne. set (s0 := clearTimeout h s) in *.
  assert (Wf s0) as Hwf0 by apply HI.
  destruct (getUserByName (timerName t) s0) as [[k u]|] eqn:Hu; [|done].
  case_decide as Hq; [|done].
  destruct (getUserByName_Some _ _ _ _ Hu) as [Hin [l Hreg]].
  rw pubIn_finish in Hne.
  { apply emitTo_Wf. by apply updateUserStatus_Wf. }
  rw emitTo_eq /= in Hne. rw updateUserStatus_eq // in Hne.
  unfold getSocketsByName in Hne. rw Hreg /= in Hne.
  destruct (decide (sid = k)) as [->|Hk]; [|by rw pubIn_upd_ne in Hne].
  by exists h, now, t, u.
Qed.

(** ** The projection, on any content of the user map *)

Lemma firstWithName_cons n k u us :
  firstWithName n ((k, u) :: us) =
  if decide (lname u = n) then Some u else firstWithName n us.
Proof.
  unfold firstWithName. simpl. rw eqb_decide.
  case_decide; [by rw bool_decide_eq_true_2 | by rw bool_decide_eq_false_2].
Qed.

(** What the loop of [getState] collects: for every canonical name not yet
    processed, the entry of the first record that carries it. *)
Lemma collect_elem us : ∀ P e,
  (e ∈ (collect us P).1 ↔
     (lnameE e ∉ P) ∧ ∃ u, firstWithName (lnameE e) us = Some u
                         ∧ status u = Outside ∧ e = entryOf u)
  ∧ (e ∈ (collect us P).2 ↔
     (lnameE e ∉ P) ∧ ∃ u, firstWithName (lnameE e) us = Some u
                         ∧ status u = Queue ∧ e = entryOf u).
Proof.
  induction us as [|[k user] rest IH]; intros P e.
  { simpl. split; (split; [by intros ?%elem_of_nil | by intros (_ & u & ? & _)]). }
  cbn [collect]. fold (lname user). rw !firstWithName_cons.
  destruct (JsSet.has (lname user) P) eqn:Hhas.
  - apply JsSet_has_elem_of in Hhas. destruct (IH P e) as [IHo IHq].
    split; [rw IHo | rw IHq]; (split; intros (Hn & u & Hu & Hst & He); (split; [done|]);
      exists u; (split; [|done]); [rw decide_False // | case_decide; [|done]]; congruence).
  - apply JsSet_has_false in Hhas.
    destruct (IH (lname user :: P) e) as [IHo IHq].
    destruct (collect rest (lname user :: P)) as [o q] eqn:Hc. simpl in IHo, IHq.
    assert (∀ st, ((lnameE e ∉ lname user :: P)
                   ∧ ∃ u, firstWithName (lnameE e) rest = Some u ∧ status u = st ∧ e = entryOf u)
                  ∨ (status user = st ∧ e = entryOf user)
                  ↔ (lnameE e ∉ P)
                    ∧ ∃ u, (if decide (lname user = lnameE e) then Some user
                            else firstWithName (lnameE e) rest) = Some u
                           ∧ status u = st ∧ e = entryOf u) as Hgen.
    { intros st. split.
      - intros [(Hn & u & Hu & Hst & He)|[Hst He]].
        + apply not_elem_of_cons in Hn as [Hne Hn]. split; [done|].
          exists u. by rw decide_False.
        + subst e. split; [done|]. exists user. by rw decide_True.
      - intros (Hn & u & Hu & Hst & He). case_decide as Hd.
        + injection Hu as <-. by right.
        + left. split; [|by exists u]. apply not_elem_of_cons. by split. }
    destruct (status user) eqn:Hst; simpl.
    + split; [rw IHo -Hgen | rw IHq -Hgen]; (split; [by left | by intros [?|[? _]]]).
    + split; [rw elem_of_cons IHo -Hgen | rw IHq -Hgen].
      * split; [intros [->|?]; [by right | by left] | intros [?|[_ ->]]; [by right | by left]].
      * split; [by left | by intros [?|[? _]]].
    + split; [rw IHo -Hgen | rw elem_of_cons IHq -Hgen].
      * split; [by left | by intros [?|[? _]]].
      * split; [intros [->|?]; [by right | by left] | intros [?|[_ ->]]; [by right | by left]].
Qed.

Lemma collect_NoDup us : ∀ P,
  NoDup (lnameE <$> ((collect us P).1 ++ (collect us P).2)).
Proof.
  induction us as [|[k user] rest IH]; intros P; [constructor|].
  cbn [collect]. fold (lname user).
  destruct (JsSet.has (lname user) P); [apply IH|].
  pose proof (IH (lname user :: P)) as Hnd.
  pose proof (collect_elem rest (lname user :: P)) as Hel.
  destruct (collect rest (lname user :: P)) as [o q]. simpl in Hnd, Hel.
  assert (lname user ∉ lnameE <$> (o ++ q)) as Hfresh.
  { intros (e & He & [Hin|Hin]%elem_of_app)%list_elem_of_fmap.
    - apply Hel in Hin as [Hn _]. apply Hn. rw -He. left.
    - apply Hel in Hin as [Hn _]. apply Hn. rw -He. left. }
  destruct (status user); simpl; [done| by constructor |].
  rw -Permutation_middle. by constructor.
Qed.

(** X4.  [getState] on any content of the user map.  For every canonical
    (lower-cased) name the first record in insertion order decides: its
    entry is in [outside] when its status is outside, in [queue] when it
    is queued, and the name is shown nowhere else.  No canonical name
    occurs twice in the two lists, and each list is ordered by
    [joinedAt]. *)
Theorem getState_projection (s : Server) :
  let st := getState s in
  (∀ e, e ∈ outside st ↔
        ∃ u, firstWithName (lnameE e) (users s) = Some u
             ∧ status u = Outside ∧ e = entryOf u)
  ∧ (∀ e, e ∈ queue st ↔
          ∃ u, firstWithName (lnameE e) (users s) = Some u
               ∧ status u = Queue ∧ e = entryOf u)
  ∧ NoDup (lnameE <$> (outside st ++ queue st))
  ∧ StronglySorted entryLe (outside st)
  ∧ StronglySorted entryLe (queue st).
Proof.
  pose proof (collect_elem (users s) []) as Hel.
  pose proof (collect_NoDup (users s) []) as Hnd.
  pose proof (getState_sorted s) as [Hso Hsq].
  unfold getState in *. destruct (collect (users s) []) as [o q]. simpl in *.
  split_and!; [| | |done|done].
  - intros e. rw sortByJoinedAt_perm. destruct (Hel e) as [-> _].
    split; [by intros [_ ?] | intros ?; split; [apply not_elem_of_nil | done]].
  - intros e. rw sortByJoinedAt_perm. destruct (Hel e) as [_ ->].
    split; [by intros [_ ?] | intros ?; split; [apply not_elem_of_nil | done]].
  - by rw !sortByJoinedAt_perm.
Qed.

(** ** The projection and the lookups, in the states the server reaches *)

(** X5.  In every state the server reaches, [getState] hides no user:
    [outside] holds one entry for each record whose status is outside,
    [queue] one entry for each record that is queued. *)
Theorem getState_shows_every_user (evs : list Event) :
  let s := run evs initial in
  outside (getState s) ≡ₚ (entryOf ∘ snd) <$> filter isOutside (users s)
  ∧ queue (getState s) ≡ₚ (entryOf ∘ snd) <$> filter isQueued (users s).
Proof.
  intros s.
  assert (Wf s) as Hwf by apply inv_wf, reachable_Inv, reachable_run, reachable_initial.
  rw (getState_wf s Hwf) /=. by rw !sortByJoinedAt_perm.
Qed.

(** X6.  In every state the server reaches, the two lookups by name agree
    with the user map: the name of a stored user leads back to this very
    record and to its socket alone, whatever the case of the letters, and
    no other record carries the same canonical name. *)
Theorem lookup_by_name_round_trip (evs : list Event) (sid : SocketId) (u : User)
    (n : string) :
  let s := run evs initial in
  JsMap.get sid (users s) = Some u →
  toLowerCase n = toLowerCase (name u) →
  getUserByName n s = Some (sid, u)
  ∧ getSocketsByName n s = [sid]
  ∧ ∀ sid' u', JsMap.get sid' (users s) = Some u' →
               toLowerCase (name u') = toLowerCase (name u) → sid' = sid ∧ u' = u.
Proof.
  intros s Hg Hn.
  assert (Wf s) as Hwf by apply inv_wf, reachable_Inv, reachable_run, reachable_initial.
  apply get_elem_of in Hg. split_and!.
  - by apply getUserByName_owner.
  - unfold getSocketsByName. rw Hn. fold (lname u). by rw (wf_owner _ _ Hwf sid u Hg).
  - intros sid' u' Hg' Hn'. apply get_elem_of in Hg'.
    by eapply (owner_unique _ _ sid' sid u' u Hwf).
Qed.

Lemma lookup_by_name_round_trip_witness :
  JsMap.get "s1" (users (run [Login "s1" (JsString "Ann") 1] initial))
  = Some (mkUser "Ann" Idle 1 None)
  ∧ getUserByName "ANN" (run [Login "s1" (JsString "Ann") 1] initial)
    = Some ("s1", mkUser "Ann" Idle 1 None).
Proof.
  assert (JsMap.get "s1" (users (run [Login "s1" (JsString "Ann") 1] initial))
          = Some (mkUser "Ann" Idle 1 None)) as H by (vm_compute; reflexivity).
  split; [exact H|].
  destruct (lookup_by_name_round_trip [Login "s1" (JsString "Ann") 1] "s1" _ "ANN" H)
    as [Ha _]; [vm_compute; reflexivity | exact Ha].
Defined.

(** ** clearUserNotificationTimeout, on any state *)

Lemma pub_set_same k (v u : User) us :
  JsMap.get k us = Some u → pub (k, v) = pub (k, u) →
  pub <$> JsMap.set k v us = pub <$> us.
Proof.
  intros Hg Hp. induction us as [|[k' u'] r IH]; [done|]. simpl in *.
  destruct (String.eqb k k') eqn:Hk.
  - injection Hg as ->. csimpl. f_equal. exact Hp.
  - csimpl. f_equal. by apply IH.
Qed.

(** X7.  [clearUserNotificationTimeout], on any state: it is idempotent,
    leaves no handle in the user it finds, arms no timer, and changes
    neither the projected state nor the registry nor what was emitted. *)
Theorem clearUserNotificationTimeout_idempotent (n : string) (s : Server) :
  let s' := clearUserNotificationTimeout n s in
  clearUserNotificationTimeout n s' = s'
  ∧ (∀ sid u, getUserByName n s' = Some (sid, u) → notificationTimeout u = None)
  ∧ (∀ t, t ∈ timers s' → t ∈ timers s)
  ∧ getState s' = getState s
  ∧ (∀ sid, pubIn sid (users s') = pubIn sid (users s))
  ∧ nameToSockets s' = nameToSockets s
  ∧ nextTimer s' = nextTimer s
  ∧ emitted s' = emitted s.
Proof.
  unfold clearUserNotificationTimeout at 1.
  destruct (getUserByName n s) as [[k u]|] eqn:Hu.
  2: { simpl. split_and!; try done. - unfold clearUserNotificationTimeout. by rw Hu.
       - intros sid u. by rw Hu. }
  destruct (notificationTimeout u) as [h|] eqn:Hh.
  2: { simpl. split_and!; try done. - unfold clearUserNotificationTimeout. by rw Hu Hh.
       - intros sid u'. rw Hu. by intros [= _ <-]. }
  assert (JsMap.get k (users s) = Some u) as Hg.
  { unfold getUserByName in Hu. destruct (nameToSockets s !! toLowerCase n) as [[|x l]|]; try done.
    destruct (JsMap.get x (users s)) eqn:Hx; [|done]. by injection Hu as -> ->. }
  set (s' := setUsers _ _).
  assert (getUserByName n s' = Some (k, withTimeout None u)) as Hu'.
  { unfold getUserByName in *. simpl.
    destruct (nameToSockets s !! toLowerCase n) as [[|x l]|]; try done.
    destruct (JsMap.get x (users s)) eqn:Hx; [|done]. injection Hu as -> ->.
    by rw get_set decide_True. }
  split_and!; try done.
  - unfold clearUserNotificationTimeout. by rw Hu'.
  - intros sid u'. rw Hu'. by intros [= _ <-].
  - intros t. simpl. apply (dropTimer_subset (Some h)).
  - apply getState_pub. simpl. by apply (pub_set_same k _ u).
  - intros sid. unfold pubIn. simpl. rw get_set. case_decide; [|done]. subst. by rw Hg.
Qed.

(** ** The projection after a record has left [outside] and [queue] *)

Section Without.
Context (P : SocketId * User → Prop) `{∀ r, Decision (P r)}.

Lemma entries_upd_out sid u st now (us : list (string * User)) :
  (∀ k v, ¬ P (k, withStatus st now v)) →
  (∀ r, r ∈ us → r.1 = sid ↔ lname r.2 = lname u) →
  (entryOf ∘ snd) <$> filter P (upd sid (withStatus st now) us) =
  filter (λ e, lnameE e ≠ lname u) ((entryOf ∘ snd) <$> filter P us).
Proof.
  intros HP. induction us as [|[k v] us IH]; intros Hk; [done|].
  assert ((entryOf ∘ snd) <$> filter P (upd sid (withStatus st now) us) =
          filter (λ e, lnameE e ≠ lname u) ((entryOf ∘ snd) <$> filter P us)) as IH'.
  { apply IH. intros r Hr. apply Hk. by right. }
  specialize (Hk (k, v) ltac:(left)). simpl in Hk.
  assert (lnameE (entryOf v) = lname v) as Hlv by done.
  csimpl. destruct (decide (k = sid)) as [Heq|Hne]; simpl.
  - rw (filter_cons_False P (k, withStatus st now v)); [by apply HP|].
    rw IH'. destruct (decide (P (k, v))) as [Hq|Hq].
    + rw (filter_cons_True P (k, v)) //. csimpl.
      rw filter_cons_False //. rw Hlv. intros Hn. apply Hn. by apply Hk.
    + by rw (filter_cons_False P (k, v)).
  - destruct (decide (P (k, v))) as [Hq|Hq].
    + rw !(filter_cons_True P (k, v)) //. csimpl.
      rw filter_cons_True; [|by f_equal].
      rw Hlv. intros Hl. apply Hne. by apply Hk.
    + by rw !(filter_cons_False P (k, v)).
Qed.

Lemma entries_delete sid u (us : list (string * User)) :
  (∀ r, r ∈ us → r.1 = sid ↔ lname r.2 = lname u) →
  (entryOf ∘ snd) <$> filter P (JsMap.delete sid us) =
  filter (λ e, lnameE e ≠ lname u) ((entryOf ∘ snd) <$> filter P us).
Proof.
  induction us as [|[k v] us IH]; intros Hk; [done|].
  assert ((entryOf ∘ snd) <$> filter P (JsMap.delete sid us) =
          filter (λ e, lnameE e ≠ lname u) ((entryOf ∘ snd) <$> filter P us)) as IH'.
  { apply IH. intros r Hr. apply Hk. by right. }
  specialize (Hk (k, v) ltac:(left)). simpl in Hk.
  assert (lnameE (entryOf v) = lname v) as Hlv by done.
  simpl. rw eqb_decide. destruct (decide (sid = k)) as [Heq|Hne].
  - rw bool_decide_eq_true_2 // IH'. destruct (decide (P (k, v))) as [Hq|Hq].
    + rw (filter_cons_True P (k, v)) //. csimpl.
      rw filter_cons_False //. rw Hlv. intros Hn. apply Hn. by apply Hk.
    + by rw (filter_cons_False P (k, v)).
  - rw bool_decide_eq_false_2 //. destruct (decide (P (k, v))) as [Hq|Hq].
    + rw !(filter_cons_True P (k, v)) //. csimpl.
      rw filter_cons_True; [|by f_equal].
      rw Hlv. intros Hl. apply Hne. symmetry. by apply Hk.
    + by rw !(filter_cons_False P (k, v)).
Qed.
End Without.

Lemma length_filter_without {A} (f : A → string) (l : list A) (x : A) :
  NoDup (f <$> l) → x ∈ l →
  S (length (filter (λ e, f e ≠ f x) l)) = length l.
Proof.
  induction l as [|a l IH]; intros Hnd Hin; [by apply elem_of_nil in Hin|].
  csimpl in Hnd. apply NoDup_cons in Hnd as [Ha Hnd].
  destruct (decide (f a = f x)) as [Heq|Hne].
  - rw filter_cons_False; [by intros Hn|]. simpl. f_equal. f_equal.
    apply filter_all. intros y Hy Hfy. apply Ha. rw Heq -Hfy.
    by apply list_elem_of_fmap_2.
  - rw filter_cons_True //. simpl. f_equal. apply IH; [done|].
    apply elem_of_cons in Hin as [->|Hin]; done.
Qed.

Lemma key_iff_name s sid u :
  Wf s → (sid, u) ∈ users s →
  ∀ r, r ∈ users s → r.1 = sid ↔ lname r.2 = lname u.
Proof.
  intros Hwf Hin [k v] Hr. simpl. split.
  - intros ->. pose proof (wf_keys _ _ Hwf) as Hk.
    apply (elem_of_get _ _ _ Hk) in Hr, Hin. congruence.
  - intros Hl. by destruct (owner_unique _ _ _ _ _ _ Hwf Hr Hin Hl).
Qed.

(** The two lists after the record of [sid] became idle, or was deleted:
    the old lists without its name, in the same order. *)
Lemma getState_without s s1 sid u now :
  Wf s → Wf s1 → (sid, u) ∈ users s →
  users s1 = upd sid (withStatus Idle now) (users s)
  ∨ users s1 = JsMap.delete sid (users s) →
  outside (getState s1) = filter (λ e, lnameE e ≠ lname u) (outside (getState s))
  ∧ queue (getState s1) = filter (λ e, lnameE e ≠ lname u) (queue (getState s)).
Proof.
  intros Hwf Hwf1 Hin Hu.
  pose proof (key_iff_name s sid u Hwf Hin) as Hk.
  rw (getState_wf s1 Hwf1) (getState_wf s Hwf) /=. rw !filter_sortByJoinedAt.
  destruct Hu as [->| ->].
  - split; f_equal; by apply entries_upd_out.
  - split; f_equal; by apply entries_delete.
Qed.

Lemma elem_of_outside_wf s e :
  Wf s → e ∈ outside (getState s) ↔
         ∃ sid u, (sid, u) ∈ users s ∧ status u = Outside ∧ e = entryOf u.
Proof.
  intros H. rw (getState_wf s H). simpl. rw sortByJoinedAt_perm.
  rw list_elem_of_fmap. split.
  - intros ([sid u] & -> & [Hq Hin]%list_elem_of_filter). by exists sid, u.
  - intros (sid & u & Hin & Hq & ->). exists (sid, u). split; [done|].
    by apply list_elem_of_filter.
Qed.

Lemma outside_lnames_NoDup s : Wf s → NoDup (lnameE <$> outside (getState s)).
Proof.
  intros H. rw (getState_wf s H). simpl. rw sortByJoinedAt_perm.
  rw -list_fmap_compose.
  assert (lnameE ∘ (entryOf ∘ snd) = lname ∘ snd) as -> by done.
  eapply sublist_NoDup; [by eapply WfUR_lnames|].
  apply fmap_sublist. apply sublist_filter.
Qed.

Lemma not_queued_filter s sid u :
  Wf s → (sid, u) ∈ users s → status u ≠ Queue →
  filter (λ e, lnameE e ≠ lname u) (queue (getState s)) = queue (getState s).
Proof.
  intros Hwf Hin Hst. apply filter_all. intros e He Hl. apply Hst.
  apply (queued_iff_in_queue s sid u Hwf Hin). rw -Hl. by apply list_elem_of_fmap_2.
Qed.

Lemma not_outside_filter s sid u :
  Wf s → (sid, u) ∈ users s → status u ≠ Outside →
  filter (λ e, lnameE e ≠ lname u) (outside (getState s)) = outside (getState s).
Proof.
  intros Hwf Hin Hst. apply filter_all. intros e He Hl. apply Hst.
  apply elem_of_outside_wf in He as (sid' & u' & Hin' & Ho & ->); [|done].
  by destruct (owner_unique _ _ _ _ _ _ Hwf Hin Hin' (eq_sym Hl)) as [_ ->].
Qed.

(** ** What the pair [broadcastState(); notifyNextInQueue();] emits *)

Lemma finish_getState s : Wf s → getState (notifyNextInQueue (broadcastState s)) = getState s.
Proof. intros Hwf. by rw notifyNextInQueue_getState. Qed.

Lemma finish_emitted s :
  Wf s →
  emitted (notifyNextInQueue (broadcastState s)) =
  emitted s ++ ToAll (state_update (getState s)) :: turnsOf s (notified s).
Proof.
  intros Hwf. assert (Wf (broadcastState s)) as Hwfb by exact Hwf.
  destruct (notifyNextInQueue_spec _ Hwfb) as (_ & _ & _ & -> & _).
  rw (notified_getState (broadcastState s) s) //.
  rw (turnsOf_reg s (broadcastState s)) //.
  simpl. by rw -app_assoc.
Qed.

Lemma notified_nil s : queue (getState s) = [] → notified s = [].
Proof. intros Hq. unfold notified. rw Hq. by rw take_nil. Qed.

Lemma notified_cons s q Q :
  queue (getState s) = q :: Q → 0 < availableSlots s → ∃ l, notified s = q :: l.
Proof.
  intros Hq Ha. unfold notified, toNotify. rw Hq.
  destruct (Z.to_nat _) as [|n] eqn:Hn; [simpl in Hn; lia|].
  by exists (take n Q).
Qed.

Lemma turnsOf_head s q l sid u :
  Wf s → (sid, u) ∈ users s → q = entryOf u →
  turnsOf s (q :: l) = ToSocket sid your_turn :: turnsOf s l.
Proof.
  intros Hwf Hin ->. unfold turnsOf. csimpl.
  change (entryName (entryOf u)) with (name u).
  by rw (getSocketsByName_wf s sid u Hwf Hin).
Qed.

(** ** come_back *)

(** X9.  [come_back] of a user who is outside, in a state the server
    reaches: the user becomes idle at the current time; [outside] loses
    its entry and nothing else, so one slot is freed; the queue and the
    registry are unchanged; the new state is broadcast first, and when
    somebody is queued, the head of the queue is sent [your_turn] right
    after it. *)
Theorem come_back_frees_a_slot (evs : list Event) (socket : SocketId) (now : Z) (u : User) :
  let s := run evs initial in
  JsMap.get socket (users s) = Some u → status u = Outside →
  let s' := on_come_back socket now s in
  pubIn socket (users s') = Some (name u, Idle, now)
  ∧ outside (getState s') = filter (λ e, lnameE e ≠ lname u) (outside (getState s))
  ∧ S (length (outside (getState s'))) = length (outside (getState s))
  ∧ queue (getState s') = queue (getState s)
  ∧ nameToSockets s' = nameToSockets s
  ∧ match queue (getState s) with
    | [] => emittedBy s (ComeBack socket now) = [ToAll (state_update (getState s'))]
    | q :: _ =>
        ∃ sid rest, getSocketsByName (entryName q) s = [sid]
          ∧ emittedBy s (ComeBack socket now) =
            ToAll (state_update (getState s')) :: ToSocket sid your_turn :: rest
    end.
Proof.
  intros s Hg Hst s'.
  assert (Inv s) as HI by apply reachable_Inv, reachable_run, reachable_initial.
  pose proof (inv_wf _ HI) as Hwf. pose proof (get_elem_of _ _ _ Hg) as Hin.
  pose proof (updateUserStatus_user s socket u Idle now Hwf Hg) as Hu.
  assert (s' = notifyNextInQueue (broadcastState (updateUserStatus (name u) Idle now s)))
    as Hs'.
  { unfold s', on_come_back. by rw Hg decide_True. }
  set (s2 := updateUserStatus (name u) Idle now s) in *.
  assert (Wf s2) as Hwf2 by by apply updateUserStatus_Wf.
  assert (getState s' = getState s2) as Hgs by (rw Hs'; by apply finish_getState).
  destruct (getState_without s s2 socket u now Hwf Hwf2 Hin) as [Ho Hq]; [left; by rw Hu|].
  rw (not_queued_filter s socket u Hwf Hin) in Hq; [by rw Hst|].
  assert (S (length (outside (getState s2))) = length (outside (getState s))) as Hlen.
  { rw Ho. change (lname u) with (lnameE (entryOf u)).
    apply (length_filter_without lnameE); [by apply outside_lnames_NoDup|].
    apply elem_of_outside_wf; [done|]. by exists socket, u. }
  assert (nameToSockets s2 = nameToSockets s ∧ emitted s2 = emitted s) as [Hr He]
    by by rw Hu.
  assert (emittedBy s (ComeBack socket now) =
          ToAll (state_update (getState s2)) :: turnsOf s2 (notified s2)) as Hem.
  { unfold emittedBy. change (handle s (ComeBack socket now)) with s'.
    rw Hs' finish_emitted // He. by rw drop_app_length. }
  rw Hgs. split_and!; try done.
  - rw Hs' pubIn_finish // Hu /= pubIn_upd_status decide_True //.
    unfold pubIn. by rw Hg.
  - rw Hs' finish_registry //.
  - destruct (queue (getState s)) as [|q Q] eqn:HQ.
    + rw Hem notified_nil //.
    + destruct (notified_cons s2 q Q Hq) as [l Hl].
      { unfold availableSlots. pose proof (inv_outside _ HI). unfold MAX_OUTSIDE in *. lia. }
      assert (q ∈ queue (getState s2)) as Hin2 by (rw Hq; left).
      apply elem_of_queue_wf in Hin2 as (sid & uq & Hinq & _ & Heq); [|done].
      exists sid, (turnsOf s2 l). split.
      * rw Heq. change (entryName (entryOf uq)) with (name uq).
        rw -(getSocketsByName_wf s2 sid uq Hwf2 Hinq).
        unfold getSocketsByName. by rw Hr.
      * rw Hem Hl. f_equal. by eapply turnsOf_head.
Qed.

(** ** leave_queue *)

Lemma passHandle_not_queued s sid u :
  Wf s → (sid, u) ∈ users s → status u ≠ Queue →
  passHandle s u = notificationTimeout u.
Proof.
  intros Hwf Hin Hst. unfold passHandle.
  assert (lname u ∉ lnameE <$> queue (getState s)) as Hq.
  { by rw (queued_iff_in_queue s sid u Hwf Hin). }
  assert (posOf (lname u) (lnameE <$> notified s) = None) as ->.
  { apply posOf_None. intros (e & He & Hn)%list_elem_of_fmap. apply Hq.
    rw He. apply list_elem_of_fmap_2. unfold notified in Hn.
    by eapply subseteq_take. }
  by rw decide_False.
Qed.

(** X10.  [leave_queue] of a queued user, in a state the server reaches:
    the user becomes idle at the current time and holds no handle; the
    claim timer it held is cancelled; the queue loses its entry and
    nothing else, the order of the others is kept; [outside] and the
    registry are unchanged. *)
Theorem leave_queue_removes_the_entry (evs : list Event) (socket : SocketId) (now : Z)
    (u : User) :
  let s := run evs initial in
  JsMap.get socket (users s) = Some u → status u = Queue →
  let s' := on_leave_queue socket now s in
  JsMap.get socket (users s') = Some (mkUser (name u) Idle now None)
  ∧ (∀ h, notificationTimeout u = Some h → armed h s' = false)
  ∧ queue (getState s') = filter (λ e, lnameE e ≠ lname u) (queue (getState s))
  ∧ S (length (queue (getState s'))) = length (queue (getState s))
  ∧ outside (getState s') = outside (getState s)
  ∧ nameToSockets s' = nameToSockets s.
Proof.
  intros s Hg Hst s'.
  assert (Inv s) as HI by apply reachable_Inv, reachable_run, reachable_initial.
  pose proof (inv_wf _ HI) as Hwf. pose proof (inv_fresh _ HI) as Hf.
  pose proof (get_elem_of _ _ _ Hg) as Hin.
  pose proof (clear_user s socket u Hwf Hg) as Hc.
  set (s1 := clearUserNotificationTimeout (name u) s) in *.
  assert (Wf s1) as Hwf1 by by apply clear_Wf.
  assert (JsMap.get socket (users s1) = Some (withTimeout None u)) as Hg1.
  { rw Hc /=. by rw get_upd decide_True // Hg. }
  pose proof (updateUserStatus_user s1 socket (withTimeout None u) Idle now Hwf1 Hg1) as Hu.
  change (name (withTimeout None u)) with (name u) in Hu.
  assert (s' = notifyNextInQueue (broadcastState (updateUserStatus (name u) Idle now s1)))
    as Hs'.
  { unfold s', on_leave_queue. by rw Hg decide_True. }
  set (s2 := updateUserStatus (name u) Idle now s1) in *.
  assert (Wf s2) as Hwf2 by by apply updateUserStatus_Wf.
  assert (getState s' = getState s2) as Hgs by (rw Hs'; by apply finish_getState).
  assert (getState s1 = getState s) as Hgs1 by by apply clear_getState.
  destruct (getState_without s1 s2 socket (withTimeout None u) now Hwf1 Hwf2) as [Ho Hq];
    [by apply get_elem_of | left; by rw Hu |].
  change (lname (withTimeout None u)) with (lname u) in Ho, Hq.
  rw Hgs1 in Ho, Hq.
  rw (not_outside_filter s socket u Hwf Hin) in Ho; [by rw Hst|].
  assert (JsMap.get socket (users s2) = Some (mkUser (name u) Idle now None)) as Hg2.
  { rw Hu /=. by rw get_upd decide_True // Hg1. }
  rw Hgs. split_and!; try done.
  - rw Hs' finish_get // Hg2 /=. f_equal.
    rw (passHandle_not_queued (broadcastState s2) socket); try done.
    by apply get_elem_of.
  - intros h Hh. rw Hs'. apply pass_not_armed; [exact Hwf2| |].
    + rw Hu Hc /=. apply (fresh_handles _ Hf socket u); done.
    + apply (armed_dropTimer h _ (timers s)). rw Hu Hc /=. by rw Hh.
  - rw Hq. change (lname u) with (lnameE (entryOf u)).
    apply (length_filter_without lnameE); [by apply queue_lnames_NoDup|].
    apply elem_of_queue_wf; [done|]. by exists socket, u.
  - rw Hs' finish_registry // Hu Hc //.
Qed.

(** ** disconnect *)

(** X11.  [disconnect] of a logged-in socket, in a state the server
    reaches: its record and the registry entry of its name are removed;
    [outside] and [queue] lose the entry of that name and nothing else;
    and the name is free again: a login under it, from any socket,
    succeeds. *)
Theorem disconnect_frees_the_name (evs : list Event) (socket : SocketId) (u : User) :
  let s := run evs initial in
  JsMap.get socket (users s) = Some u →
  let s' := on_disconnect socket s in
  JsMap.get socket (users s') = None
  ∧ nameToSockets s' = base.delete (lname u) (nameToSockets s)
  ∧ outside (getState s') = filter (λ e, lnameE e ≠ lname u) (outside (getState s))
  ∧ queue (getState s') = filter (λ e, lnameE e ≠ lname u) (queue (getState s))
  ∧ ∀ socket2 v z now,
      sanitizeName v = Some z → toLowerCase z = lname u →
      emittedBy s' (Login socket2 v now) =
      [ToSocket socket2 (login_success z);
       ToAll (state_update (getState (handle s' (Login socket2 v now))))].
Proof.
  intros s Hg s'.
  assert (Inv s) as HI by apply reachable_Inv, reachable_run, reachable_initial.
  pose proof (inv_wf _ HI) as Hwf. pose proof (get_elem_of _ _ _ Hg) as Hin.
  pose proof (on_disconnect_eq socket u s Hwf Hg) as Hs'. fold s' in Hs'.
  set (s4 := mkServer _ _ _ _ _) in Hs'.
  assert (Wf s4) as Hwf4 by by apply WfUR_delete.
  assert (nameToSockets s' = base.delete (lname u) (nameToSockets s)) as Hr.
  { rw Hs' finish_registry //. }
  destruct (getState_without s s4 socket u 0 Hwf Hwf4 Hin) as [Ho Hq]; [by right|].
  assert (getState s' = getState s4) as Hgs by (rw Hs'; by apply finish_getState).
  rw Hgs. split_and!; try done.
  - rw Hs' finish_get //=. by rw get_delete decide_True.
  - intros socket2 v z now Hz Hl. unfold emittedBy. simpl. unfold on_login.
    rw Hz Hr Hl lookup_delete_eq /=. by rw -app_assoc drop_app_length.
Qed.

(** ** login under a name nobody holds *)

Lemma collect_app_idle us k u : ∀ P,
  status u = Idle → collect (us ++ [(k, u)]) P = collect us P.
Proof.
  induction us as [|[k' u'] us IH]; intros P Hst; simpl.
  - rw Hst. by destruct (JsSet.has _ _).
  - destruct (JsSet.has _ _); [by apply IH|]. by rw IH.
Qed.

(** X12.  [login] under a valid name that has no registry entry, from
    any state: the socket gets an idle record with the sanitized name and
    the current time, and the registry entry of the canonical name, for
    this socket alone; the sender is sent [login_success], then the state
    is broadcast; no timer changes.  When the socket had no record, the
    record is appended and the projected state is the same as before. *)
Theorem login_under_a_free_name (s : Server) (socket : SocketId) (v : JsValue)
    (z : string) (now : Z) :
  sanitizeName v = Some z → nameToSockets s !! toLowerCase z = None →
  let s' := on_login socket v now s in
  users s' = JsMap.set socket (mkUser z Idle now None) (users s)
  ∧ nameToSockets s' = <[toLowerCase z := [socket]]> (nameToSockets s)
  ∧ timers s' = timers s ∧ nextTimer s' = nextTimer s
  ∧ emitted s' = emitted s ++ [ToSocket socket (login_success z);
                               ToAll (state_update (getState s'))]
  ∧ (JsMap.get socket (users s) = None →
     users s' = users s ++ [(socket, mkUser z Idle now None)]
     ∧ getState s' = getState s).
Proof.
  intros Hz Hreg s'. unfold s', on_login. rw Hz Hreg /=.
  split_and!; try done.
  - by rw -app_assoc.
  - intros Hg. apply get_None_keys in Hg.
    rw (keys_set_absent _ _ _ Hg). split; [done|].
    unfold getState. simpl. by rw collect_app_idle.
Qed.

(** ** updateUserStatus, on any state *)

(** X13.  [updateUserStatus], on any state: the record of every socket
    registered under the name gets the status and the current time, and
    keeps its name and its timer handle; a registered socket without a
    record is skipped; no other record changes, no record is added or
    removed, and registry, timers and emissions are left alone. *)
Theorem updateUserStatus_changes_the_registered_sockets (n : string) (st : Status)
    (now : Z) (s : Server) :
  let s' := updateUserStatus n st now s in
  (∀ sid, JsMap.get sid (users s') =
          if decide (sid ∈ getSocketsByName n s)
          then withStatus st now <$> JsMap.get sid (users s)
          else JsMap.get sid (users s))
  ∧ (users s').*1 = (users s).*1
  ∧ nameToSockets s' = nameToSockets s ∧ timers s' = timers s
  ∧ nextTimer s' = nextTimer s ∧ emitted s' = emitted s.
Proof.
  unfold updateUserStatus. generalize (getSocketsByName n s) as l. intros l.
  revert s. induction l as [|x l IH]; intros s; [done|]. cbn [foldl].
  set (s1 := match JsMap.get x (users s) with Some _ => _ | None => s end).
  assert ((∀ sid, JsMap.get sid (users s1) =
                  if decide (sid = x) then withStatus st now <$> JsMap.get sid (users s)
                  else JsMap.get sid (users s))
          ∧ (users s1).*1 = (users s).*1
          ∧ nameToSockets s1 = nameToSockets s ∧ timers s1 = timers s
          ∧ nextTimer s1 = nextTimer s ∧ emitted s1 = emitted s) as (H1 & Hk1 & F1).
  { unfold s1. destruct (JsMap.get x (users s)) as [user|] eqn:Hx.
    - split_and!; try done.
      + intros sid. simpl. rw get_set. case_decide; [|done]. subst. by rw Hx.
      + simpl. apply keys_set_present. apply dec_stable. intros Hn.
        apply get_None_keys in Hn. congruence.
    - split_and!; try done. intros sid. case_decide; [|done]. subst. by rw Hx. }
  destruct (IH s1) as (H2 & Hk2 & F2). cbv zeta in *.
  split_and!; try (destruct F1 as (? & ? & ? & ?), F2 as (? & ? & ? & ?); congruence).
  intros sid. rw H2 H1.
  destruct (decide (sid = x)) as [->|Hne].
  - rw (decide_True (P := x ∈ x :: l)); [left|].
    case_decide; [|done]. by destruct (JsMap.get x (users s)).
  - destruct (decide (sid ∈ l)) as [Hl|Hl].
    + rw (decide_True (P := sid ∈ x :: l)); [by right | done].
    + rw (decide_False (P := sid ∈ x :: l)); [|done].
      by intros [?|?]%elem_of_cons.
Qed.

(** ** Who is sent [your_turn] *)

Lemma StronglySorted_lookup {A} (R : A → A → Prop) (l : list A) : ∀ i j a b,
  StronglySorted R l → l !! i = Some a → l !! j = Some b → (i < j)%nat → R a b.
Proof.
  induction l as [|x l IH]; intros i j a b Hs Hi Hj Hlt; [done|].
  apply StronglySorted_inv in Hs as [Hs Hall].
  destruct j as [|j]; [lia|]. destruct i as [|i]; simpl in *.
  - injection Hi as <-. rw Forall_forall in Hall. apply Hall.
    by eapply list_elem_of_lookup_2.
  - apply (IH i j); try done. lia.
Qed.

(** X14.  Whatever the event and the state the server has reached, a
    [your_turn] is emitted only when the handler leaves a free slot; it
    goes only to the socket of a user who, when the handler returns, is
    queued and holds an armed claim timer; and it goes to the longest
    waiting: every queued user left without a handle joined the queue no
    earlier than the one who was signalled. *)
Theorem your_turn_goes_to_the_longest_waiting (evs : list Event) (e : Event)
    (sid : SocketId) :
  let s := run evs initial in
  let s' := handle s e in
  ToSocket sid your_turn ∈ emittedBy s e →
  Z.of_nat (length (outside (getState s'))) < MAX_OUTSIDE
  ∧ ∃ u, JsMap.get sid (users s') = Some u
         ∧ status u = Queue
         ∧ holdsArmed s' u = true
         ∧ ∀ sid' u', JsMap.get sid' (users s') = Some u' → status u' = Queue →
                      notificationTimeout u' = None → joinedAt u ≤ joinedAt u'.
Proof.
  intros s s' Hin.
  assert (Inv s) as HI by apply reachable_Inv, reachable_run, reachable_initial.
  destruct (beforeBroadcast s e) as [s2|] eqn:Hb.
  2: { exfalso. apply (no_pass_no_turn s e _ Hb Hin). by exists sid. }
  destruct (emittedBy_pass s e s2 HI Hb) as (pre & Hem & Hpre).
  destruct (beforeBroadcast_ok s e s2 HI Hb) as (Hwf2 & Hf2 & _).
  pose proof (handle_beforeBroadcast s e s2 Hb) as Hs'. fold s' in Hs', Hem.
  set (s1 := broadcastState s2) in *.
  assert (Wf s1) as Hwf1 by exact Hwf2. assert (Fresh s1) as Hf1 by (destruct Hf2 as [Ht Hh]; by split).
  assert (Wf s') as Hwf' by (rw Hs'; by apply notifyNextInQueue_Wf).
  destruct (pass_post s1 Hwf1 Hf1) as (_ & Hpost & _ & Hgs & _). cbv zeta in Hpost.
  rw -Hs' in Hpost, Hgs.
  assert (nameToSockets s' = nameToSockets s1) as Hreg.
  { rw Hs'. by destruct (notifyNextInQueue_spec s1 Hwf1) as (_ & ? & _). }
  rw Hem in Hin. apply elem_of_app in Hin as [Hin|Hin].
  { exfalso. apply (Hpre _ Hin). by exists sid. }
  apply elem_of_cons in Hin as [Hin|Hin]; [done|].
  unfold turnsOf in Hin. apply list_elem_of_bind in Hin as (q & Hin & Hq).
  apply list_elem_of_fmap in Hin as (x & [= ->] & Hx).
  apply list_elem_of_lookup in Hq as [i Hi].
  assert (i < toNotify s1)%nat as Hlt.
  { rw -(notified_length s1). by eapply lookup_lt_Some. }
  assert (queue (getState s1) !! i = Some q) as HQi.
  { unfold notified in Hi. by apply lookup_take_Some in Hi as [? _]. }
  destruct (Hpost i q HQi) as (sid0 & u & Hu & Hst & Heq & Hsock & Hif).
  rw decide_True // in Hif. destruct Hif as (_ & _ & _ & Harmed).
  assert (x = sid0) as ->.
  { unfold getSocketsByName in Hx, Hsock. rw Hreg Hsock in Hx.
    by apply list_elem_of_singleton in Hx. }
  destruct (getUserByName_Some _ _ _ _ Hu) as [Hinu _].
  split.
  { rw Hgs. pose proof (toNotify_avail s1) as Ha. unfold availableSlots in Ha. lia. }
  exists u. split_and!; try done.
  { apply elem_of_get; [apply Hwf' | done]. }
  intros sid' u' Hg' Hst' Hh'. apply get_elem_of in Hg'.
  assert (entryOf u' ∈ queue (getState s1)) as Hq'.
  { rw -Hgs. apply elem_of_queue_wf; [done|]. by exists sid', u'. }
  apply list_elem_of_lookup in Hq' as [j Hj].
  destruct (Hpost j _ Hj) as (sidj & uj & Huj & _ & _ & _ & Hifj).
  change (entryName (entryOf u')) with (name u') in Huj.
  rw (getUserByName_wf s' sid' u' Hwf' Hg') in Huj. injection Huj as <- <-.
  destruct (decide (j < toNotify s1)%nat) as [Hj'|Hj'].
  { destruct Hifj as [Hsome _]. congruence. }
  pose proof (getState_sorted s1) as [_ Hsorted].
  assert (entryLe q (entryOf u')) as Hle.
  { apply (StronglySorted_lookup entryLe _ i j _ _ Hsorted HQi Hj). lia. }
  rw -Heq in Hle. exact Hle.
Qed.

(** ** The properties above, at the scenarios of the specification *)

(** Scenario A, then Ann comes back: her record changes, and she is the
    sender. *)
Lemma handler_changes_one_record_witness :
  pubIn "s1" (users (handle (run scenarioA initial) (ComeBack "s1" 20)))
  ≠ pubIn "s1" (users (run scenarioA initial))
  ∧ (senderOf (ComeBack "s1" 20) = Some "s1"
     ∨ ∃ h now t u, ComeBack "s1" 20 = TimerFires h now
         ∧ List.find (λ t, Nat.eqb (timerId t) h) (timers (run scenarioA initial)) = Some t
         ∧ getUserByName (timerName t) (run scenarioA initial) = Some ("s1", u)
         ∧ status u = Queue).
Proof.
  assert (pubIn "s1" (users (handle (run scenarioA initial) (ComeBack "s1" 20)))
          ≠ pubIn "s1" (users (run scenarioA initial))) as H
    by (vm_compute; discriminate).
  split; [exact H|].
  exact (handler_changes_one_record scenarioA (ComeBack "s1" 20) "s1" H).
Defined.

(** Scenario A, then Ann comes back. *)
Lemma come_back_frees_a_slot_witness :
  JsMap.get "s1" (users (run scenarioA initial)) = Some (mkUser "Ann" Outside 11 None)
  ∧ pubIn "s1" (users (on_come_back "s1" 20 (run scenarioA initial)))
    = Some ("Ann", Idle, 20).
Proof.
  assert (JsMap.get "s1" (users (run scenarioA initial))
          = Some (mkUser "Ann" Outside 11 None)) as H by (vm_compute; reflexivity).
  split; [exact H|].
  destruct (come_back_frees_a_slot scenarioA "s1" 20 _ H eq_refl) as [Ha _]. exact Ha.
Defined.

(** Scenario B, then Eve, who holds the claim timer [0], leaves the
    queue. *)
Lemma leave_queue_removes_the_entry_witness :
  JsMap.get "s5" (users (run scenarioB initial))
  = Some (mkUser "Eve" Queue 15 (Some 0%nat))
  ∧ JsMap.get "s5" (users (on_leave_queue "s5" 30 (run scenarioB initial)))
    = Some (mkUser "Eve" Idle 30 None)
  ∧ armed 0 (on_leave_queue "s5" 30 (run scenarioB initial)) = false.
Proof.
  assert (JsMap.get "s5" (users (run scenarioB initial))
          = Some (mkUser "Eve" Queue 15 (Some 0%nat))) as H by (vm_compute; reflexivity).
  split; [exact H|].
  destruct (leave_queue_removes_the_entry scenarioB "s5" 30 _ H eq_refl) as (Ha & Hb & _).
  split; [exact Ha|]. exact (Hb 0%nat eq_refl).
Defined.

(** Scenario B, then Eve disconnects. *)
Lemma disconnect_frees_the_name_witness :
  JsMap.get "s5" (users (run scenarioB initial))
  = Some (mkUser "Eve" Queue 15 (Some 0%nat))
  ∧ JsMap.get "s5" (users (on_disconnect "s5" (run scenarioB initial))) = None.
Proof.
  assert (JsMap.get "s5" (users (run scenarioB initial))
          = Some (mkUser "Eve" Queue 15 (Some 0%nat))) as H by (vm_compute; reflexivity).
  split; [exact H|].
  destruct (disconnect_frees_the_name scenarioB "s5" _ H) as [Ha _]. exact Ha.
Defined.

(** The first login of all. *)
Lemma login_under_a_free_name_witness :
  sanitizeName (JsString "Ann") = Some "Ann"
  ∧ nameToSockets initial !! toLowerCase "Ann" = None
  ∧ users (on_login "s1" (JsString "Ann") 1 initial)
    = JsMap.set "s1" (mkUser "Ann" Idle 1 None) (users initial).
Proof.
  assert (sanitizeName (JsString "Ann") = Some "Ann") as H1 by (vm_compute; reflexivity).
  assert (nameToSockets initial !! toLowerCase "Ann" = None) as H2
    by (vm_compute; reflexivity).
  split; [exact H1|]. split; [exact H2|].
  destruct (login_under_a_free_name initial "s1" (JsString "Ann") "Ann" 1 H1 H2) as [Ha _].
  exact Ha.
Defined.

(** Scenario A, then Ann comes back: Eve is sent [your_turn]. *)
Lemma your_turn_goes_to_the_longest_waiting_witness :
  ToSocket "s5" your_turn ∈ emittedBy (run scenarioA initial) (ComeBack "s1" 20)
  ∧ ∃ u, JsMap.get "s5" (users (handle (run scenarioA initial) (ComeBack "s1" 20))) = Some u
         ∧ status u = Queue
         ∧ holdsArmed (handle (run scenarioA initial) (ComeBack "s1" 20)) u = true.
Proof.
  assert (ToSocket "s5" your_turn ∈ emittedBy (run scenarioA initial) (ComeBack "s1" 20))
    as H by (vm_compute; right; left).
  split; [exact H|].
  destruct (your_turn_goes_to_the_longest_waiting scenarioA (ComeBack "s1" 20) "s5" H)
    as (_ & u & Hg & Hst & Ha & _).
  exists u. split; [exact Hg|]. split; [exact Hst | exact Ha].
Defined.

(** ** leave_class and the projection *)

Lemma upd_split sid f u (us : list (SocketId * User)) :
  NoDup us.*1 → (sid, u) ∈ us →
  ∃ l1 l2, us = l1 ++ (sid, u) :: l2
           ∧ upd sid f us = l1 ++ (sid, f u) :: l2
           ∧ (sid ∉ l1.*1) ∧ (sid ∉ l2.*1).
Proof.
  intros Hnd (l1 & l2 & ->)%list_elem_of_split. exists l1, l2.
  rw fmap_app fmap_cons /= in Hnd.
  apply NoDup_app in Hnd as (_ & H1 & [H2 _]%NoDup_cons).
  assert (sid ∉ l1.*1) as Hn1 by (intros Hin; apply (H1 _ Hin); left).
  split_and!; try done.
  unfold upd. rw fmap_app fmap_cons /=. rw decide_True //.
  fold (upd sid f l1) (upd sid f l2). by rw !upd_absent.
Qed.

Section Moved.
Context (P : SocketId * User → Prop) `{∀ r, Decision (P r)}.

Lemma entries_upd_in sid u st now (us : list (SocketId * User)) :
  NoDup us.*1 → (sid, u) ∈ us →
  (∀ r, r ∈ us → r.1 = sid ↔ lname r.2 = lname u) →
  P (sid, withStatus st now u) →
  (entryOf ∘ snd) <$> filter P (upd sid (withStatus st now) us) ≡ₚ
  mkEntry (name u) now
    :: filter (λ e, lnameE e ≠ lname u) ((entryOf ∘ snd) <$> filter P us).
Proof.
  intros Hnd Hin Hk HP.
  destruct (upd_split sid (withStatus st now) u us Hnd Hin) as (l1 & l2 & -> & -> & H1 & H2).
  assert (∀ l : list (SocketId * User), l ⊆ l1 ++ (sid, u) :: l2 → sid ∉ l.*1 →
          filter (λ e, lnameE e ≠ lname u) ((entryOf ∘ snd) <$> filter P l)
          = (entryOf ∘ snd) <$> filter P l) as Hid.
  { intros l Hsub Hl. apply filter_all.
    intros e ([k v] & -> & [_ Hr]%list_elem_of_filter)%list_elem_of_fmap Hn.
    apply Hl. apply list_elem_of_fmap. exists (k, v). split; [|done].
    symmetry. by apply (Hk (k, v)); [apply Hsub|]. }
  rw !filter_app !fmap_app filter_app.
  rw (filter_cons_True P (sid, withStatus st now u)) //.
  rw Hid; [intros x Hx; apply elem_of_app; by left | done |].
  assert (filter (λ e, lnameE e ≠ lname u)
            ((entryOf ∘ snd) <$> filter P ((sid, u) :: l2))
          = (entryOf ∘ snd) <$> filter P l2) as ->.
  { destruct (decide (P (sid, u))).
    - rw (filter_cons_True P (sid, u)) //. csimpl.
      rw filter_cons_False; [by intros Hn; apply Hn|].
      apply Hid; [|done]. intros x Hx. apply elem_of_app. right. by right.
    - rw (filter_cons_False P (sid, u)) //.
      apply Hid; [|done]. intros x Hx. apply elem_of_app. right. by right. }
  csimpl. by rw -Permutation_middle.
Qed.
End Moved.

(** X15.  [leave_class] and the broadcast state, in a state the server
    reaches: the sender's entry, stamped with the current time, is in
    the list of the status it was given, and in that list only; every
    other entry stays in its list.  The status is never idle. *)
Theorem leave_class_moves_the_entry (evs : list Event) (socket : SocketId) (now : Z)
    (u : User) :
  let s := run evs initial in
  JsMap.get socket (users s) = Some u →
  let s' := on_leave_class socket now s in
  let others := filter (λ e, lnameE e ≠ lname u) in
  match leaveClassTarget (getState s) u with
  | Outside =>
      outside (getState s') ≡ₚ mkEntry (name u) now :: others (outside (getState s))
      ∧ queue (getState s') = others (queue (getState s))
  | Queue =>
      queue (getState s') ≡ₚ mkEntry (name u) now :: others (queue (getState s))
      ∧ outside (getState s') = others (outside (getState s))
  | Idle => False
  end.
Proof.
  intros s Hg s' others.
  assert (Inv s) as HI by apply reachable_Inv, reachable_run, reachable_initial.
  pose proof (inv_wf _ HI) as Hwf.
  pose proof (clear_user s socket u Hwf Hg) as Hc.
  set (s1 := clearUserNotificationTimeout (name u) s) in *.
  assert (Wf s1) as Hwf1 by by apply clear_Wf.
  assert (JsMap.get socket (users s1) = Some (withTimeout None u)) as Hg1.
  { rw Hc /=. by rw get_upd decide_True // Hg. }
  pose proof (get_elem_of _ _ _ Hg1) as Hin1.
  set (tg := leaveClassTarget (getState s) u).
  pose proof (updateUserStatus_user s1 socket (withTimeout None u) tg now Hwf1 Hg1) as Hu.
  change (name (withTimeout None u)) with (name u) in Hu.
  assert (s' = notifyNextInQueue (broadcastState (updateUserStatus (name u) tg now s1)))
    as Hs'.
  { unfold s', on_leave_class. by rw Hg. }
  set (s2 := updateUserStatus (name u) tg now s1) in *.
  assert (Wf s2) as Hwf2 by by apply updateUserStatus_Wf.
  assert (getState s' = getState s2) as -> by (rw Hs'; by apply finish_getState).
  assert (getState s = getState s1) as Hgs1 by (symmetry; by apply clear_getState).
  pose proof (key_iff_name s1 socket _ Hwf1 Hin1) as Hk.
  change (lname (withTimeout None u)) with (lname u) in Hk.
  pose proof (wf_keys _ _ Hwf1) as Hnd.
  unfold others. rw Hgs1 (getState_wf s2 Hwf2) (getState_wf s1 Hwf1) /=.
  rw !filter_sortByJoinedAt Hu /=.
  destruct tg eqn:Htg.
  - pose proof (leaveClassTarget_spec (getState s) u) as Hspec. fold tg in Hspec.
    rw Htg in Hspec. unfold specAdmission in Hspec.
    destruct (queue (getState s)); [by case_decide|].
    destruct (posOf _ _); by case_decide.
  - split.
    + etrans; [apply sortByJoinedAt_perm|].
      etrans; [|apply perm_skip; symmetry; apply sortByJoinedAt_perm].
      by apply (entries_upd_in isOutside socket (withTimeout None u)).
    + f_equal. by apply entries_upd_out.
  - split.
    + etrans; [apply sortByJoinedAt_perm|].
      etrans; [|apply perm_skip; symmetry; apply sortByJoinedAt_perm].
      by apply (entries_upd_in isQueued socket (withTimeout None u)).
    + f_equal. by apply entries_upd_out.
Qed.

(** Scenario B, then Eve, first of the queue with one slot free, leaves
    the class. *)
Lemma leave_class_moves_the_entry_witness :
  JsMap.get "s5" (users (run scenarioB initial))
  = Some (mkUser "Eve" Queue 15 (Some 0%nat))
  ∧ queue (getState (on_leave_class "s5" 30 (run scenarioB initial))) = [].
Proof.
  assert (JsMap.get "s5" (users (run scenarioB initial))
          = Some (mkUser "Eve" Queue 15 (Some 0%nat))) as H by (vm_compute; reflexivity).
  split; [exact H|].
  pose proof (leave_class_moves_the_entry scenarioB "s5" 30 _ H) as Hm.
  cbv zeta in Hm.
  assert (leaveClassTarget (getState (run scenarioB initial))
            (mkUser "Eve" Queue 15 (Some 0%nat)) = Outside) as Ht
    by (vm_compute; reflexivity).
  rw Ht in Hm. destruct Hm as [_ Hq]. rw Hq. vm_compute. reflexivity.
Defined.

(** ** What is broadcast *)

Lemma beforeBroadcast_emitted s e s2 :
  Inv s → beforeBroadcast s e = Some s2 →
  ∃ pre, emitted s2 = emitted s ++ pre ∧ ∀ x, x ∈ pre → ∃ sid m, x = ToSocket sid m.
Proof.
  intros HI. pose proof HI as [Hwf Hf _ _].
  destruct e as [socket v now|socket now|socket now|socket now|socket|socket|h now];
    simpl; try done.
  - destruct (JsMap.get socket (users s)) as [user|]; [|done]. intros [= <-].
    pose proof (clear_Wf s Hwf (name user)) as Hwf1.
    exists []. split; [|by intros ? ?%elem_of_nil].
    destruct (updateUserStatus_frame (name user)
                (leaveClassTarget (getState s) user) now _ Hwf1) as (_ & _ & _ & ->).
    by rw clear_emitted // app_nil_r.
  - destruct (JsMap.get socket (users s)) as [user|]; [|done].
    case_decide; [|done]. intros [= <-].
    exists []. split; [|by intros ? ?%elem_of_nil].
    destruct (updateUserStatus_frame (name user) Idle now _ Hwf) as (_ & _ & _ & ->).
    by rw app_nil_r.
  - destruct (JsMap.get socket (users s)) as [user|]; [|done].
    case_decide; [|done]. intros [= <-].
    pose proof (clear_Wf s Hwf (name user)) as Hwf1.
    exists []. split; [|by intros ? ?%elem_of_nil].
    destruct (updateUserStatus_frame (name user) Idle now _ Hwf1) as (_ & _ & _ & ->).
    by rw clear_emitted // app_nil_r.
  - destruct (JsMap.get socket (users s)) as [user|] eqn:Hg; [|done].
    pose proof (beforeBroadcast_disconnect socket user s Hwf Hg) as Hb.
    simpl in Hb. rw Hg in Hb. rw Hb. intros [= <-].
    exists []. split; [by rw app_nil_r | by intros ? ?%elem_of_nil].
  - destruct (find _ _) as [t|]; [|done].
    pose proof (clearTimeout_Inv h s HI) as [Hwf0 Hf0 _ _].
    destruct (getUserByName _ _) as [[? cu]|]; [|done].
    case_decide; [|done]. intros [= <-].
    destruct (updateUserStatus_frame (timerName t) Idle now _ Hwf0) as (_ & _ & _ & He).
    eexists. split; [rw emitTo_eq; simpl; by rw He|].
    intros x (sid & -> & _)%list_elem_of_fmap. by eexists _, _.
Qed.

Lemma no_pass_broadcast s e st :
  beforeBroadcast s e = None → ToAll (state_update st) ∈ emittedBy s e →
  st = getState (handle s e).
Proof.
  unfold emittedBy.
  destruct e as [socket v now|socket now|socket now|socket now|socket|socket|h now];
    simpl.
  - intros _. unfold on_login.
    destruct (sanitizeName v) as [z|]; simpl.
    2:{ rw drop_app_length. by intros [=]%list_elem_of_singleton. }
    destruct (nameToSockets s !! toLowerCase z) as [l|]; simpl.
    + destruct (JsSet.has socket l).
      * destruct (JsMap.has socket (users s)); simpl;
          rw -app_assoc drop_app_length;
          by intros [[=]|[[= ->]|[]%elem_of_nil]%elem_of_cons]%elem_of_cons.
      * destruct (JsSet.size l >? 0); simpl.
        -- rw drop_app_length. by intros [=]%list_elem_of_singleton.
        -- rw -app_assoc drop_app_length.
           by intros [[=]|[[= ->]|[]%elem_of_nil]%elem_of_cons]%elem_of_cons.
    + rw -app_assoc drop_app_length.
      by intros [[=]|[[= ->]|[]%elem_of_nil]%elem_of_cons]%elem_of_cons.
  - unfold on_leave_class. destruct (JsMap.get socket (users s)); [done|].
    rw drop_all. by intros _ ?%elem_of_nil.
  - unfold on_come_back. destruct (JsMap.get socket (users s)).
    + case_decide; [done|]. rw drop_all. by intros _ ?%elem_of_nil.
    + rw drop_all. by intros _ ?%elem_of_nil.
  - unfold on_leave_queue. destruct (JsMap.get socket (users s)).
    + case_decide; [done|]. rw drop_all. by intros _ ?%elem_of_nil.
    + rw drop_all. by intros _ ?%elem_of_nil.
  - intros _. unfold on_request_state. destruct (JsMap.get socket (users s)); simpl.
    + rw -app_assoc drop_app_length.
      by intros [[=]|[[= ->]|[]%elem_of_nil]%elem_of_cons]%elem_of_cons.
    + rw drop_app_length. by intros [= ->]%list_elem_of_singleton.
  - unfold on_disconnect. destruct (JsMap.get socket (users s)).
    2:{ rw drop_all. by intros _ ?%elem_of_nil. }
    destruct (nameToSockets s !! _).
    2:{ rw drop_all. by intros _ ?%elem_of_nil. }
    simpl. destruct (_ =? 0); [done|]. simpl.
    rw drop_all. by intros _ ?%elem_of_nil.
  - unfold on_timer. destruct (find _ _) as [t|].
    2:{ rw drop_all. by intros _ ?%elem_of_nil. }
    unfold timeoutCallback. destruct (getUserByName _ _) as [[? cu]|].
    2:{ simpl. rw drop_all. by intros _ ?%elem_of_nil. }
    case_decide; [done|]. simpl. rw drop_all. by intros _ ?%elem_of_nil.
Qed.

(** X16.  What a handler broadcasts is the state it leaves: whatever the
    event and the state the server has reached, a [state_update] emitted
    while the event is handled carries the projection of the state in
    which the handler returns, although the turn notifier runs after the
    broadcast. *)
Theorem state_update_carries_the_final_state (evs : list Event) (e : Event) (st : State) :
  let s := run evs initial in
  ToAll (state_update st) ∈ emittedBy s e → st = getState (handle s e).
Proof.
  intros s Hin.
  assert (Inv s) as HI by apply reachable_Inv, reachable_run, reachable_initial.
  destruct (beforeBroadcast s e) as [s2|] eqn:Hb; [|by apply no_pass_broadcast].
  destruct (beforeBroadcast_ok s e s2 HI Hb) as (Hwf2 & _).
  destruct (beforeBroadcast_emitted s e s2 HI Hb) as (pre & He & Hpre).
  unfold emittedBy in Hin. rw (handle_beforeBroadcast s e s2 Hb) in Hin |- *.
  rw finish_emitted // He -app_assoc drop_app_length in Hin.
  rw finish_getState //.
  apply elem_of_app in Hin as [Hin|Hin].
  { by destruct (Hpre _ Hin) as (? & ? & ?). }
  apply elem_of_cons in Hin as [[= ->]|Hin]; [done|].
  unfold turnsOf in Hin. apply list_elem_of_bind in Hin as (q & Hin & _).
  by apply list_elem_of_fmap in Hin as (x & ? & _).
Qed.

(** Scenario A, then Ann comes back. *)
Lemma state_update_carries_the_final_state_witness :
  ToAll (state_update (mkState [mkEntry "Bob" 12; mkEntry "Cy" 13; mkEntry "Dan" 14]
                               [mkEntry "Eve" 15]))
    ∈ emittedBy (run scenarioA initial) (ComeBack "s1" 20)
  ∧ mkState [mkEntry "Bob" 12; mkEntry "Cy" 13; mkEntry "Dan" 14] [mkEntry "Eve" 15]
    = getState (handle (run scenarioA initial) (ComeBack "s1" 20)).
Proof.
  assert (ToAll (state_update (mkState [mkEntry "Bob" 12; mkEntry "Cy" 13; mkEntry "Dan" 14]
                                       [mkEntry "Eve" 15]))
            ∈ emittedBy (run scenarioA initial) (ComeBack "s1" 20)) as H
    by (vm_compute; left).
  split; [exact H|].
  exact (state_update_carries_the_final_state scenarioA (ComeBack "s1" 20) _ H).
Defined.

(** ** Who changes the registry *)

(** X17.  In every state the server reaches, the registry entry of a key
    changes only in two ways: a [login] under a name with that key, which
    had no entry, gives it to the sender alone; the [disconnect] of the
    socket whose record carries a name with that key, and which holds the
    entry alone, removes it.  No other event, and no turn notifier pass,
    touches the registry. *)
Theorem registry_changes_only_by_login_and_disconnect (evs : list Event) (e : Event)
    (key : string) :
  let s := run evs initial in
  nameToSockets (handle s e) !! key ≠ nameToSockets s !! key →
  (∃ socket v now z, e = Login socket v now ∧ sanitizeName v = Some z
      ∧ key = toLowerCase z
      ∧ nameToSockets s !! key = None
      ∧ nameToSockets (handle s e) !! key = Some [socket])
  ∨ (∃ socket u, e = Disconnect socket ∧ JsMap.get socket (users s) = Some u
      ∧ key = toLowerCase (name u)
      ∧ nameToSockets s !! key = Some [socket]
      ∧ nameToSockets (handle s e) !! key = None).
Proof.
  intros s Hne.
  assert (Inv s) as HI by apply reachable_Inv, reachable_run, reachable_initial.
  pose proof (inv_wf _ HI) as Hwf.
  rw (handle_registry s e HI) in Hne |- *.
  destruct e as [socket v now|socket now|socket now|socket now|socket|socket|h now];
    try done.
  - left. destruct (on_login_registry socket v now s HI)
      as [[reason Hr]|[(z & Hz & Hreg & Hr)|(z & Hz & Hreg & Hr)]].
    + by rw Hr in Hne.
    + by rw Hr in Hne.
    + rw Hr in Hne |- *. destruct (decide (key = toLowerCase z)) as [->|Hk].
      * exists socket, v, now, z. by rw lookup_insert_eq.
      * by rw lookup_insert_ne in Hne.
  - right. destruct (JsMap.get socket (users s)) as [u|] eqn:Hg; [|done].
    destruct (decide (key = lname u)) as [->|Hk].
    + exists socket, u. rw lookup_delete_eq. split_and!; try done.
      apply (wf_owner _ _ Hwf). by apply get_elem_of.
    + by rw lookup_delete_ne in Hne.
Qed.

(** The first login of all creates the entry of its name. *)
Lemma registry_changes_only_by_login_and_disconnect_witness :
  nameToSockets (handle (run [] initial) (Login "s1" (JsString "Ann") 1)) !! "ann"
  ≠ nameToSockets (run [] initial) !! "ann"
  ∧ ((∃ socket v now z, Login "s1" (JsString "Ann") 1 = Login socket v now
        ∧ sanitizeName v = Some z ∧ "ann" = toLowerCase z
        ∧ nameToSockets (run [] initial) !! "ann" = None
        ∧ nameToSockets (handle (run [] initial) (Login "s1" (JsString "Ann") 1)) !! "ann"
          = Some [socket])
     ∨ (∃ socket u, Login "s1" (JsString "Ann") 1 = Disconnect socket
          ∧ JsMap.get socket (users (run [] initial)) = Some u
          ∧ "ann" = toLowerCase (name u)
          ∧ nameToSockets (run [] initial) !! "ann" = Some [socket]
          ∧ nameToSockets (handle (run [] initial) (Login "s1" (JsString "Ann") 1)) !! "ann"
            = None)).
Proof.
  assert (nameToSockets (handle (run [] initial) (Login "s1" (JsString "Ann") 1)) !! "ann"
          ≠ nameToSockets (run [] initial) !! "ann") as H
    by (vm_compute; discriminate).
  split; [exact H|].
  exact (registry_changes_only_by_login_and_disconnect [] (Login "s1" (JsString "Ann") 1)
           "ann" H).
Defined.
